(** * Accessibility rewriting of LaTeX sources: model and properties

    A shallow embedding of the source-rewriting core of
    [make_accessible_tex.py] (plain LaTeX dialect, module [Tex]) and of
    [make_accessible.py] (course-notes dialect, module [Shn]).

    Texts are lists of 8-bit characters.  Python's [str] is a sequence of
    Unicode code points; the model covers ASCII documents, which is where
    [str.lower], [str.strip] and the digit class of [re] coincide with the
    definitions below.

    The first part holds the definitions (Python primitives, the two
    programs); the second part holds the lemmas and theorems. *)

From Stdlib Require Import Ascii String List ZArith Lia Bool Arith.
Import ListNotations.

Local Open Scope char_scope.
Local Open Scope list_scope.

Definition text := list ascii.

(** A text literal. *)
Definition txt (s : string) : text := list_ascii_of_string s.

Definition NL : ascii := "010".

(** ** Python primitives: [str], [pathlib], [re] *)

Module Py.

(** Exceptions that the modelled code can raise. *)
Inductive exn : Type :=
| re_error (msg : string) (pos : nat)
| IndexError (msg : string)
| FileNotFoundError (path : string).

Inductive outcome (A : Type) : Type :=
| Returned (a : A)
| Raised (e : exn).
Arguments Returned {A} a.
Arguments Raised {A} e.

Definition bind {A B} (x : outcome A) (f : A -> outcome B) : outcome B :=
  match x with
  | Returned a => f a
  | Raised e => Raised e
  end.

(** [s.startswith(p)] *)
Fixpoint startswith (p s : text) : bool :=
  match p, s with
  | [], _ => true
  | a :: p', b :: s' => Ascii.eqb a b && startswith p' s'
  | _ :: _, [] => false
  end.

(** The text after the literal [p], when [s] starts with [p]. *)
Fixpoint strip_prefix (p s : text) : option text :=
  match p, s with
  | [], _ => Some s
  | a :: p', b :: s' => if Ascii.eqb a b then strip_prefix p' s' else None
  | _ :: _, [] => None
  end.

(** [p in s] *)
Fixpoint contains (p s : text) : bool :=
  startswith p s ||
  match s with
  | [] => false
  | _ :: s' => contains p s'
  end.

(** [s.find(p)]; [None] stands for -1. *)
Fixpoint find (p s : text) : option nat :=
  if startswith p s then Some 0
  else match s with
       | [] => None
       | _ :: s' => option_map S (find p s')
       end.

(** [s.rfind(p)]; [None] stands for -1. *)
Fixpoint rfind (p s : text) : option nat :=
  match s with
  | [] => if startswith p [] then Some 0 else None
  | _ :: s' =>
      match rfind p s' with
      | Some i => Some (S i)
      | None => if startswith p s then Some 0 else None
      end
  end.

(** [s[i:j]] for [0 <= i], [0 <= j]. *)
Definition slice (s : text) (i j : nat) : text := firstn (j - i) (skipn i s).

(** [s.count(p)] for a non-empty [p]: non-overlapping occurrences, left
    to right.  [skip] characters of the current occurrence are still to
    be passed. *)
Fixpoint count_from (skip : nat) (p s : text) : nat :=
  match s with
  | [] => 0
  | _ :: s' =>
      match skip with
      | S k => count_from k p s'
      | O => if startswith p s
             then S (count_from (Nat.pred (length p)) p s')
             else count_from 0 p s'
      end
  end.
Definition count (p s : text) : nat := count_from 0 p s.

(** [str.isspace] on ASCII: tab, LF, VT, FF, CR, FS, GS, RS, US, space. *)
Definition isspace (c : ascii) : bool :=
  let n := nat_of_ascii c in
  (((9 <=? n) && (n <=? 13)) || ((28 <=? n) && (n <=? 32)))%nat.

Fixpoint lstrip (s : text) : text :=
  match s with
  | c :: s' => if isspace c then lstrip s' else s
  | [] => []
  end.

Definition rstrip (s : text) : text := rev (lstrip (rev s)).

(** [s.strip()] *)
Definition strip (s : text) : text := rstrip (lstrip s).

Definition lower_char (c : ascii) : ascii :=
  let n := nat_of_ascii c in
  if ((65 <=? n) && (n <=? 90))%nat then ascii_of_nat (n + 32) else c.

(** [s.lower()] *)
Definition lower (s : text) : text := map lower_char s.

(** [s.replace(a, b)] for single characters [a], [b]. *)
Definition replace_char (a b : ascii) (s : text) : text :=
  map (fun c => if Ascii.eqb c a then b else c) s.

(** [s.split(c)] for a single-character separator. *)
Fixpoint split (c : ascii) (s : text) : list text :=
  match s with
  | [] => [[]]
  | x :: s' =>
      if Ascii.eqb x c then [] :: split c s'
      else match split c s' with
           | h :: t => (x :: h) :: t
           | [] => [[x]]
           end
  end.

Definition text_eqb (a b : text) : bool :=
  if list_eq_dec ascii_dec a b then true else false.

(** A [dict] with text keys, in insertion order; assignment to a key that
    is present overwrites its value in place. *)
Definition dict := list (text * text).

Fixpoint dict_get (d : dict) (k : text) : option text :=
  match d with
  | [] => None
  | (k', v) :: d' => if text_eqb k k' then Some v else dict_get d' k
  end.

Fixpoint dict_set (d : dict) (k v : text) : dict :=
  match d with
  | [] => [(k, v)]
  | (k', v') :: d' =>
      if text_eqb k k' then (k', v) :: d' else (k', v') :: dict_set d' k v
  end.

(** *** [pathlib.PurePosixPath] *)

(** The parts of a path after its root: empty components and single dots
    are dropped. *)
Definition path_parts (s : text) : list text :=
  filter (fun p => negb (text_eqb p []) && negb (text_eqb p ["."]))
         (split "/" s).

(** [Path(s).name] *)
Definition path_name (s : text) : text := last (path_parts s) [].

(** [Path(s).stem]: the name without its last suffix; a leading or a
    trailing dot does not start a suffix. *)
Definition path_stem (s : text) : text :=
  let name := path_name s in
  match rfind ["."] name with
  | Some i => if ((0 <? i) && (i <? length name - 1))%nat
              then firstn i name else name
  | None => name
  end.

(** *** Regular expressions

    A compiled pattern is modelled by what [pattern.match(s, pos)] computes
    on the text from [pos] on: the capture groups (group 1, 2, ...; [None]
    for a group that did not take part), group 0, and the text after the
    match.  No pattern of the programs looks behind or uses anchors. *)

Definition groups := list (option text).

Definition pattern := text -> option (groups * text * text).

Record re_match := MkMatch {
  m_start : nat;
  m_end : nat;
  m_group0 : text;
  m_groups : groups
}.

(** [m.group(i)] for [i >= 1]. *)
Definition group (m : re_match) (i : nat) : option text :=
  nth (i - 1) (m_groups m) None.

(** [x or ''] *)
Definition or_empty (x : option text) : text :=
  match x with
  | Some ((_ :: _) as t) => t
  | _ => []
  end.

(** [pattern.finditer(text)], scanning from position [pos], where [s] is
    the text from [pos] on.  The patterns of the programs never match the
    empty text; after an empty match the scan moves on by one character. *)
Fixpoint finditer_fuel (fuel : nat) (pat : pattern) (pos : nat) (s : text)
  : list re_match :=
  match fuel with
  | O => []
  | S k =>
      match pat s with
      | Some (g, w, rest) =>
          let m := MkMatch pos (pos + length w) w g in
          match w, s with
          | _ :: _, _ => m :: finditer_fuel k pat (pos + length w) rest
          | [], _ :: s' => m :: finditer_fuel k pat (S pos) s'
          | [], [] => [m]
          end
      | None =>
          match s with
          | [] => []
          | _ :: s' => finditer_fuel k pat (S pos) s'
          end
      end
  end.

Definition finditer (pat : pattern) (s : text) : list re_match :=
  finditer_fuel (S (length s)) pat 0 s.

(** [pattern.search(text)]: the text before the first match, the match
    and the text after it. *)
Fixpoint search_from (pat : pattern) (pos : nat) (s : text)
  : option (text * re_match * text) :=
  match pat s with
  | Some (g, w, rest) => Some ([], MkMatch pos (pos + length w) w g, rest)
  | None =>
      match s with
      | [] => None
      | c :: s' =>
          match search_from pat (S pos) s' with
          | Some (pre, m, rest) => Some (c :: pre, m, rest)
          | None => None
          end
      end
  end.

Definition search (pat : pattern) (s : text) := search_from pat 0 s.

(** The loop of [re.sub] with a callable replacement, and of the
    hand-written loop of [Tex.wrap_images]: unmatched spans and
    replacements are appended in order, then the tail. *)
Definition sub_loop (repl : re_match -> text) (s : text)
           (ms : list re_match) : text :=
  let '(result, prev) :=
    fold_left
      (fun '(result, prev) m =>
         (result ++ slice s prev (m_start m) ++ repl m, m_end m))
      ms ([], 0) in
  result ++ skipn prev s.

(** [pattern.sub(repl, text)] with a callable [repl]. *)
Definition sub_call (pat : pattern) (repl : re_match -> text) (s : text)
  : text :=
  sub_loop repl s (finditer pat s).

(** [pattern.subn(repl, text, count=1)] with a callable [repl]. *)
Definition subn_call_1 (pat : pattern) (repl : re_match -> text) (s : text)
  : text * nat :=
  match search pat s with
  | Some (pre, m, rest) => (pre ++ repl m ++ rest, 1)
  | None => (s, 0)
  end.

(** [pattern.sub(repl, text, count=1)] with a callable [repl]. *)
Definition sub_call_1 (pat : pattern) (repl : re_match -> text) (s : text)
  : text :=
  fst (subn_call_1 pat repl s).

(** *** Pattern building blocks *)

(** The longest prefix without the character [c], and what follows. *)
Fixpoint span_not (c : ascii) (s : text) : text * text :=
  match s with
  | [] => ([], [])
  | x :: s' =>
      if Ascii.eqb x c then ([], s)
      else let (a, b) := span_not c s' in (x :: a, b)
  end.

(** [\[[^\]]*\]]: the bracket group with its brackets, and the rest.  The
    greedy class stops at the first closing bracket, and no shorter run
    can be followed by one. *)
Definition bracketed (s : text) : option (text * text) :=
  match s with
  | "[" :: r =>
      let (o, r2) := span_not "]" r in
      match r2 with
      | "]" :: r3 => Some ("[" :: o ++ ["]"], r3)
      | _ => None
      end
  | _ => None
  end.

(** [\{([^}]+)\}]: the text between the braces, and the rest. *)
Definition braced (s : text) : option (text * text) :=
  match s with
  | "{" :: r =>
      let (f, r2) := span_not "}" r in
      match f, r2 with
      | _ :: _, "}" :: r3 => Some (f, r3)
      | _, _ => None
      end
  | _ => None
  end.

(** [(o)?k]: the optional part is tried first; when what follows it does
    not match, the pattern is tried without it. *)
Definition with_optional {A} (o : text -> option (text * text))
           (k : text -> option (A * text)) (s : text)
  : option (option text * A * text) :=
  let without :=
    match k s with
    | Some (a, r) => Some (None, a, r)
    | None => None
    end in
  match o s with
  | Some (w, s1) =>
      match k s1 with
      | Some (a, r) => Some (Some w, a, r)
      | None => without
      end
  | None => without
  end.

(** *** Replacement templates ([re]'s [parse_template]) *)

Inductive titem : Type :=
| TLit (c : ascii)
| TGroup (n : nat).

Definition in_range (lo hi : nat) (c : ascii) : bool :=
  let n := nat_of_ascii c in ((lo <=? n) && (n <=? hi))%nat.

Definition is_digit (c : ascii) : bool := in_range 48 57 c.
Definition is_octdigit (c : ascii) : bool := in_range 48 55 c.
Definition is_ascii_letter (c : ascii) : bool :=
  in_range 65 90 c || in_range 97 122 c.
Definition digit_val (c : ascii) : nat := nat_of_ascii c - 48.

Definition number (base : nat) (ds : text) : nat :=
  fold_left (fun acc d => base * acc + digit_val d) ds 0.

Definition isidentifier (name : text) : bool :=
  match name with
  | [] => false
  | c :: r =>
      (is_ascii_letter c || Ascii.eqb c "_") &&
      forallb (fun x => is_ascii_letter x || is_digit x || Ascii.eqb x "_") r
  end.

(** The escapes a template knows: a, b, f, n, r, t, v and the backslash. *)
Definition template_escape (c : ascii) : option ascii :=
  if Ascii.eqb c "a" then Some "007"
  else if Ascii.eqb c "b" then Some "008"
  else if Ascii.eqb c "f" then Some "012"
  else if Ascii.eqb c "n" then Some "010"
  else if Ascii.eqb c "r" then Some "013"
  else if Ascii.eqb c "t" then Some "009"
  else if Ascii.eqb c "v" then Some "011"
  else if Ascii.eqb c "\" then Some "\"
  else None.

Definition cons_items (xs : list titem) (r : outcome (list titem))
  : outcome (list titem) :=
  bind r (fun l => Returned (xs ++ l)).

Definition add_group (ngroups index : nat) (at_pos : nat)
           (r : outcome (list titem)) : outcome (list titem) :=
  if (ngroups <? index)%nat
  then Raised (re_error "invalid group reference" at_pos)
  else cons_items [TGroup index] r.

(** [parse_template]: the template is read left to right, and the first
    bad escape raises.  [ngroups] is the number of groups of the pattern
    (none of the patterns here has a named group); [pos] is the index of
    [s] in the template. *)
Fixpoint parse_template_fuel (fuel ngroups pos : nat) (s : text)
  : outcome (list titem) :=
  match fuel with
  | O => Returned []
  | S k =>
      let continue := parse_template_fuel k ngroups in
      match s with
      | [] => Returned []
      | "\" :: [] => Raised (re_error "bad escape (end of pattern)" pos)
      | "\" :: c :: r =>
          if Ascii.eqb c "g" then
            match r with
            | "<" :: r1 =>
                let (name, r2) := span_not ">" r1 in
                match r2 with
                | ">" :: r3 =>
                    match name with
                    | [] => Raised (re_error "missing group name" (pos + 3))
                    | _ :: _ =>
                        if forallb is_digit name then
                          add_group ngroups (number 10 name) (pos + 3)
                                    (continue (pos + 4 + length name) r3)
                        else if isidentifier name then
                          Raised (IndexError "unknown group name")
                        else
                          Raised (re_error "bad character in group name"
                                           (pos + 3))
                    end
                | _ => Raised (re_error "missing >, unterminated name"
                                        (pos + 3))
                end
            | _ => Raised (re_error "missing <" (pos + 2))
            end
          else if Ascii.eqb c "0" then
            match r with
            | d1 :: d2 :: r2 =>
                if is_octdigit d1 && is_octdigit d2 then
                  cons_items
                    [TLit (ascii_of_nat (number 8 [d1; d2] mod 256))]
                    (continue (pos + 4) r2)
                else if is_octdigit d1 then
                  cons_items [TLit (ascii_of_nat (digit_val d1))]
                             (continue (pos + 3) (d2 :: r2))
                else cons_items [TLit zero] (continue (pos + 2) r)
            | [d1] =>
                if is_octdigit d1 then
                  cons_items [TLit (ascii_of_nat (digit_val d1))]
                             (continue (pos + 3) [])
                else cons_items [TLit zero] (continue (pos + 2) r)
            | [] => cons_items [TLit zero] (continue (pos + 2) r)
            end
          else if is_digit c then
            match r with
            | d :: r1 =>
                if is_digit d then
                  match r1 with
                  | e :: r2 =>
                      if is_octdigit c && is_octdigit d && is_octdigit e
                      then
                        if (255 <? number 8 [c; d; e])%nat
                        then Raised (re_error "octal escape value outside of range 0-0o377" pos)
                        else cons_items
                               [TLit (ascii_of_nat (number 8 [c; d; e]))]
                               (continue (pos + 4) r2)
                      else add_group ngroups (number 10 [c; d]) (pos + 1)
                                     (continue (pos + 3) r1)
                  | [] => add_group ngroups (number 10 [c; d]) (pos + 1)
                                    (continue (pos + 3) r1)
                  end
                else add_group ngroups (digit_val c) (pos + 1)
                               (continue (pos + 2) r)
            | [] => add_group ngroups (digit_val c) (pos + 1)
                              (continue (pos + 2) r)
            end
          else
            match template_escape c with
            | Some e => cons_items [TLit e] (continue (pos + 2) r)
            | None =>
                if is_ascii_letter c
                then Raised (re_error (String "b" (String "a" (String "d"
                               (String " " (String "e" (String "s"
                               (String "c" (String "a" (String "p"
                               (String "e" (String " " (String "\"
                               (String c EmptyString)))))))))))))
                               pos)
                else cons_items [TLit "\"; TLit c] (continue (pos + 2) r)
            end
      | c :: r => cons_items [TLit c] (continue (pos + 1) r)
      end
  end.

Definition parse_template (ngroups : nat) (template : text)
  : outcome (list titem) :=
  parse_template_fuel (S (length template)) ngroups 0 template.

(** [expand_template]: a group that did not take part expands to the
    empty text. *)
Definition expand_template (items : list titem) (m : re_match) : text :=
  flat_map (fun i =>
              match i with
              | TLit c => [c]
              | TGroup O => m_group0 m
              | TGroup n => match group m n with
                            | Some t => t
                            | None => []
                            end
              end) items.

(** The replacement function of [pattern.sub(template, ...)] for a text
    template: a template without a backslash is used as it is, any other
    is compiled first, before the text is searched. *)
Definition template_filter (ngroups : nat) (template : text)
  : outcome (re_match -> text) :=
  if contains ["\"] template
  then bind (parse_template ngroups template)
            (fun items => Returned (expand_template items))
  else Returned (fun _ => template).

(** [pattern.sub(template, text)] *)
Definition sub_template (pat : pattern) (ngroups : nat) (template s : text)
  : outcome text :=
  bind (template_filter ngroups template)
       (fun f => Returned (sub_call pat f s)).

(** [pattern.sub(template, text, count=1)] *)
Definition sub_template_1 (pat : pattern) (ngroups : nat)
           (template s : text) : outcome text :=
  bind (template_filter ngroups template)
       (fun f => Returned (sub_call_1 pat f s)).

Fixpoint join_lines (ls : list text) : text :=
  match ls with
  | [] => []
  | [l] => l
  | l :: ls' => l ++ NL :: join_lines ls'
  end.

(** The longest prefix whose characters satisfy [f], and what follows. *)
Fixpoint span_while (f : ascii -> bool) (s : text) : text * text :=
  match s with
  | [] => ([], [])
  | x :: s' =>
      if f x then let (a, b) := span_while f s' in (x :: a, b)
      else ([], s)
  end.

(** [name(\[[^\]]*\])?\{([^}]+)\}]: the optional bracket group, the braced
    argument, group 0 and the rest. *)
Definition command (name : text) (s : text)
  : option (option text * text * text * text) :=
  match strip_prefix name s with
  | None => None
  | Some s1 =>
      match with_optional bracketed braced s1 with
      | Some (o, f, rest) =>
          Some (o, f, name ++ or_empty o ++ "{" :: f ++ ["}"], rest)
      | None => None
      end
  end.

Definition is_some {A} (x : option A) : bool :=
  match x with Some _ => true | None => false end.

(** [m.group(i)] for a group that a match always sets. *)
Definition group_text (m : re_match) (i : nat) : text :=
  match group m i with Some t => t | None => [] end.

(** [s.replace(a, b)] for a non-empty [a]: occurrences are replaced left
    to right without overlap; [skip] characters of the occurrence just
    replaced are still to be passed. *)
Fixpoint replace_from (skip : nat) (a b s : text) : text :=
  match s with
  | [] => []
  | c :: s' =>
      match skip with
      | S k => replace_from k a b s'
      | O => if startswith a s
             then b ++ replace_from (Nat.pred (length a)) a b s'
             else c :: replace_from 0 a b s'
      end
  end.
Definition replace (a b s : text) : text := replace_from 0 a b s.

End Py.

(** ** The LaTeX the two programs write

    Both programs emit the same wrapper around a directive:
    [\pdftooltip{\includegraphics<opts>{<fname>}}{<alt>}]. *)

Definition wrapper (opts fname alt : text) : text :=
  txt "\pdftooltip{\includegraphics" ++ opts ++ txt "{" ++ fname
      ++ txt "}}{" ++ alt ++ txt "}".

(** [\\includegraphics(\[[^\]]*\])?\{([^}]+)\}], the pattern [INCL_RE] of
    both programs. *)
Definition INCL_RE : Py.pattern := fun s =>
  match Py.command (txt "\includegraphics") s with
  | Some (o, f, w, rest) => Some ([o; Some f], w, rest)
  | None => None
  end.

(** [(\\documentclass(?:\[[^\]]*\])?\{[^}]+\})] *)
Definition docclass_pat : Py.pattern := fun s =>
  match Py.command (txt "\documentclass") s with
  | Some (_, _, w, rest) => Some ([Some w], w, rest)
  | None => None
  end.

(** [\\pdftooltip\{\\includegraphics(?:\[[^\]]*\])?\{([^}]+)\}\}\{([^}]+)\}],
    the pattern of [extract_alt_map] in both programs. *)
Definition tooltip_pat : Py.pattern := fun s =>
  match Py.strip_prefix (txt "\pdftooltip{") s with
  | None => None
  | Some s1 =>
      match Py.command (txt "\includegraphics") s1 with
      | Some (_, f, w, "}" :: s2) =>
          match Py.braced s2 with
          | Some (a, rest) =>
              Some ([Some f; Some a],
                    txt "\pdftooltip{" ++ w ++ txt "}{" ++ a ++ txt "}",
                    rest)
          | None => None
          end
      | _ => None
      end
  end.


(** ** [make_accessible_tex.py] *)

Module Tex.
Import Py.

Definition AUTHOR : text := txt "Your Name".
Definition SUBJECT : text := txt "Your Subject".
Definition KEYWORDS : text := txt "keyword1, keyword2".

Definition ALT_MARKER : text := txt "***!!***Guess by make_accessible_tex.py:".

Definition ACCESSIBILITY_PACKAGES : text :=
  join_lines
    [ txt "\usepackage[T1]{fontenc}";
      txt "\usepackage{lmodern}";
      txt "\usepackage[utf8]{inputenc}";
      txt "\usepackage[english]{babel}" ].

Definition build_hyperref_block (title : text) : text :=
  join_lines
    [ txt "\usepackage[pdftex,";
      txt "    pdftitle={" ++ title ++ txt "},";
      txt "    pdfauthor={" ++ AUTHOR ++ txt "},";
      txt "    pdflang={en-US},";
      txt "    pdfsubject={" ++ SUBJECT ++ txt "},";
      txt "    pdfkeywords={" ++ KEYWORDS ++ txt "},";
      txt "    colorlinks=true,";
      txt "    linkcolor=blue,";
      txt "    urlcolor=blue,";
      txt "    citecolor=blue,";
      txt "    unicode]{hyperref}";
      txt "\IfFileExists{pdfcomment.sty}{\usepackage{pdfcomment}}{\newcommand{\pdftooltip}[2]{#1}}" ].

Definition already_patched (t : text) : bool :=
  contains (txt "fontenc") t && contains (txt "lmodern") t
  && contains (txt "pdftitle") t.

(** [\\usepackage(?:\[[^\]]*\])?] followed by the literal [arg]. *)
Definition usepackage (arg : text) (s : text) : option (text * text) :=
  match strip_prefix (txt "\usepackage") s with
  | None => None
  | Some s1 =>
      match with_optional bracketed
              (fun r => match strip_prefix arg r with
                        | Some r' => Some (tt, r')
                        | None => None
                        end) s1 with
      | Some (o, _, rest) =>
          Some (txt "\usepackage" ++ or_empty o ++ arg, rest)
      | None => None
      end
  end.

(** [(\\usepackage(?:\[[^\]]*\])?\{graphicx\})] *)
Definition graphicx_pat : pattern := fun s =>
  match usepackage (txt "{graphicx}") s with
  | Some (w, rest) => Some ([Some w], w, rest)
  | None => None
  end.

(** [\\usepackage(?:\[[^\]]*\])?\{hyperref\}] *)
Definition bare_href_pat : pattern := fun s =>
  match usepackage (txt "{hyperref}") s with
  | Some (w, rest) => Some ([], w, rest)
  | None => None
  end.

Definition patch_preamble (t title : text) : outcome text :=
  let hyperref_block := build_hyperref_block title in
  if is_some (search graphicx_pat t) then
    bind (sub_template bare_href_pat 0 [] t)
         (fun t1 =>
            sub_template_1 graphicx_pat 1
              (ACCESSIBILITY_PACKAGES ++ txt "\n\1\n" ++ hyperref_block) t1)
  else if is_some (search bare_href_pat t) then
    sub_template_1 bare_href_pat 0
      (ACCESSIBILITY_PACKAGES ++ [NL] ++ hyperref_block) t
  else
    sub_template_1 docclass_pat 1
      (txt "\1\n" ++ ACCESSIBILITY_PACKAGES ++ [NL] ++ hyperref_block) t.

Definition known : dict :=
  [ (txt "traystack",
     txt "Photo of a spring-loaded cafeteria tray stack, analogy for the stack data structure");
    (txt "pathfinder", txt "NASA Mars Pathfinder rover");
    (txt "rs232_serialbits", txt "RS-232 serial bit frame timing diagram");
    (txt "rs232_db25pinout", txt "DB-25 connector pinout for RS-232") ].

(** [re.sub(r'\d{4,}', '', s)]: every maximal run of four or more digits
    is removed; [run] is the run of digits read so far. *)
Definition flush_run (run : text) : text :=
  if (4 <=? length run)%nat then [] else run.

Fixpoint drop_long_numbers (run s : text) : text :=
  match s with
  | [] => flush_run run
  | c :: s' =>
      if is_digit c then drop_long_numbers (run ++ [c]) s'
      else flush_run run ++ c :: drop_long_numbers [] s'
  end.

(** [re.sub(r'[-_]', ' ', s)] *)
Definition dashes_to_spaces (s : text) : text :=
  map (fun c => if Ascii.eqb c "-" || Ascii.eqb c "_" then " " else c) s.

Definition guess_alt (filename : text) : text :=
  let name := lower (path_stem filename) in
  match dict_get known name with
  | Some d => d
  | None =>
      let readable := dashes_to_spaces name in
      let readable := strip (drop_long_numbers [] readable) in
      match readable with
      | _ :: _ => txt "Figure: " ++ readable
      | [] => txt "Figure (" ++ path_name filename ++ txt ")"
      end
  end.

Definition brace_step (depth : Z) (ch : ascii) : Z :=
  if Ascii.eqb ch "{" then (depth + 1)%Z
  else if Ascii.eqb ch "}" then (depth - 1)%Z
  else depth.

Definition is_already_wrapped (t : text) (match_start : nat) : bool :=
  let preceding := firstn match_start t in
  match rfind (txt "\pdftooltip{") preceding with
  | None => false
  | Some last_tt =>
      let depth := fold_left brace_step (slice t last_tt match_start) 0%Z in
      (0 <? depth)%Z
  end.

Definition wrap_images (t : text) : text :=
  let '(result, prev) :=
    fold_left
      (fun '(result, prev) m =>
         let result := result ++ slice t prev (m_start m) in
         let result :=
           if is_already_wrapped t (m_start m)
           then result ++ m_group0 m
           else
             let opts := or_empty (group m 1) in
             let fname := group_text m 2 in
             let alt := ALT_MARKER ++ txt " " ++ guess_alt fname in
             result ++ wrapper opts fname alt in
         (result, m_end m))
      (finditer INCL_RE t) ([], 0) in
  result ++ skipn prev t.

Definition extract_alt_map (tex_text : text) : dict :=
  fold_left
    (fun alt_map m =>
       dict_set alt_map (path_name (group_text m 1)) (strip (group_text m 2)))
    (finditer tooltip_pat tex_text) [].

(** *** The per-document step and the batch loop

    The file system holds the text of each document.  The title that
    [get_title] derives is supplied by [title_of]; backups and the converter
    run are outside the model. *)

Definition filesystem := list (string * text).

Fixpoint read_text (fs : filesystem) (path : string) : option text :=
  match fs with
  | [] => None
  | (p, t) :: fs' => if String.eqb p path then Some t else read_text fs' path
  end.

Fixpoint write_text (fs : filesystem) (path : string) (t : text)
  : filesystem :=
  match fs with
  | [] => [(path, t)]
  | (p, t') :: fs' =>
      if String.eqb p path then (p, t) :: fs'
      else (p, t') :: write_text fs' path t
  end.

(** The text transformation of [apply_pdf_accessibility]. *)
Definition accessible_text (title t : text) : outcome text :=
  if already_patched t then Returned (wrap_images t)
  else bind (patch_preamble t title)
            (fun new_text => Returned (wrap_images new_text)).

Definition apply_pdf_accessibility (title_of : string -> text -> text)
           (fs : filesystem) (path : string) : outcome filesystem :=
  match read_text fs path with
  | None => Raised (FileNotFoundError path)
  | Some t =>
      bind (accessible_text (title_of path t) t)
           (fun new_text =>
              if text_eqb new_text t then Returned fs
              else Returned (write_text fs path new_text))
  end.

(** The loop of [main] with [--pdf]: a file that does not exist is
    skipped; nothing catches an exception of the per-document step. *)
Fixpoint main_loop (title_of : string -> text -> text)
         (fs : filesystem) (files : list string) : outcome filesystem :=
  match files with
  | [] => Returned fs
  | f :: rest =>
      match read_text fs f with
      | None => main_loop title_of fs rest
      | Some _ =>
          bind (apply_pdf_accessibility title_of fs f)
               (fun fs' => main_loop title_of fs' rest)
      end
  end.

End Tex.

(** ** [make_accessible.py] *)

Module Shn.
Import Py.

Definition AUTHOR : text := txt "Blake Hannaford, University of Washington".
Definition SUBJECT : text := txt "ECE 474 Embedded Microcomputer Systems".
Definition KEYWORDS : text :=
  txt "embedded systems, microcontrollers, ECE 474".

Definition ALT_MARKER : text := txt "***!!***Guess by make_accessible.py:".

(** [PREAMBLE_TEMPLATE.format(prefix=prefix)] *)
Definition PREAMBLE_TEMPLATE (prefix : text) : text :=
  join_lines
    [ prefix ++ txt "\usepackage[T1]{fontenc}";
      prefix ++ txt "\usepackage{lmodern}";
      prefix ++ txt "\usepackage[utf8]{inputenc}";
      prefix ++ txt "\usepackage[english]{babel}" ].

(** [HYPERREF_TEMPLATE.format(prefix=..., title=..., author=...,
    subject=..., keywords=...)] *)
Definition HYPERREF_TEMPLATE (prefix title author subject keywords : text)
  : text :=
  join_lines
    [ prefix ++ txt "\usepackage[pdftex,";
      prefix ++ txt "    pdftitle={" ++ title ++ txt "},";
      prefix ++ txt "    pdfauthor={" ++ author ++ txt "},";
      prefix ++ txt "    pdflang={en-US},";
      prefix ++ txt "    pdfsubject={" ++ subject ++ txt "},";
      prefix ++ txt "    pdfkeywords={" ++ keywords ++ txt "},";
      prefix ++ txt "    colorlinks=true,";
      prefix ++ txt "    linkcolor=blue,";
      prefix ++ txt "    urlcolor=blue,";
      prefix ++ txt "    citecolor=blue,";
      prefix ++ txt "    unicode]{hyperref}";
      prefix ++ txt "\IfFileExists{pdfcomment.sty}{\usepackage{pdfcomment}}{\newcommand{\pdftooltip}[2]{#1}}" ].

Definition already_patched (t : text) : bool :=
  contains (txt "fontenc") t && contains (txt "lmodern") t
  && contains (txt "pdftitle") t && contains (txt "pdfcomment") t.

Definition graphicx_line (prefix : text) : text :=
  prefix ++ txt "\usepackage{graphicx}" ++ [NL].
Definition hyperref_line (prefix : text) : text :=
  prefix ++ txt "\usepackage{hyperref}" ++ [NL].
Definition listings_line (prefix : text) : text :=
  prefix ++ txt "\usepackage{listings}" ++ [NL].

(** The pattern [pat] of [patch_preamble]: the graphicx line, the hyperref
    line and, optionally, the listings line, each with the stream
    prefix. *)
Definition pat (prefix : text) : pattern := fun s =>
  match strip_prefix (graphicx_line prefix) s with
  | None => None
  | Some s1 =>
      match strip_prefix (hyperref_line prefix) s1 with
      | None => None
      | Some s2 =>
          match strip_prefix (listings_line prefix) s2 with
          | Some s3 =>
              Some ([Some (graphicx_line prefix);
                     Some (hyperref_line prefix);
                     Some (listings_line prefix)],
                    graphicx_line prefix ++ hyperref_line prefix
                                  ++ listings_line prefix,
                    s3)
          | None =>
              Some ([Some (graphicx_line prefix);
                     Some (hyperref_line prefix);
                     None],
                    graphicx_line prefix ++ hyperref_line prefix,
                    s2)
          end
      end
  end.

(** [bare_pat]: the bare hyperref declaration with the stream prefix. *)
Definition bare_pat (prefix : text) : pattern := fun s =>
  let w := prefix ++ txt "\usepackage{hyperref}" in
  match strip_prefix w s with
  | Some rest => Some ([Some w], w, rest)
  | None => None
  end.

Definition patch_preamble (t prefix title : text) : text :=
  let preamble := PREAMBLE_TEMPLATE prefix in
  let hyperref := HYPERREF_TEMPLATE prefix title AUTHOR SUBJECT KEYWORDS in
  let replacer := fun m =>
    let listings := or_empty (group m 3) in
    preamble ++ [NL] ++ group_text m 1 ++ hyperref ++ [NL] ++ listings in
  let '(new_text, count) := subn_call_1 (pat prefix) replacer t in
  let new_text :=
    if (count =? 0)%nat
    then sub_call_1 (bare_pat prefix) (fun _ => hyperref) t
    else new_text in
  let new_text :=
    if text_eqb new_text t
    then sub_call_1 docclass_pat
           (fun m => m_group0 m ++ [NL] ++ preamble ++ [NL] ++ hyperref) t
    else new_text in
  new_text.

Definition known : dict :=
  [ (txt "redditfollowadviceuw",
     txt "Screenshot of a Reddit post advising UW students to follow course advice");
    (txt "traystack",
     txt "Photo of a spring-loaded cafeteria tray stack, analogy for the hardware stack data structure");
    (txt "pathfinder",
     txt "Photo of the NASA Mars Pathfinder rover, illustrating the priority inversion bug in the 1997 Mars mission");
    (txt "rs232_serialbits",
     txt "Timing diagram of an RS-232 serial bit frame showing start bit, data bits, parity, and stop bits");
    (txt "rs232_db25pinout",
     txt "DB-25 connector pinout diagram for RS-232 serial interface");
    (txt "includes_multi_protos",
     txt "Diagram showing a single .h header providing function prototypes to multiple .c source files");
    (txt "c-building",
     txt "Flowchart of the C build process: preprocessor, compiler, linker") ].

Definition folder_guesses : dict :=
  [ (txt "hwio_figs", txt "Hardware I/O diagram");
    (txt "usb_figs", txt "USB architecture diagram");
    (txt "sched_figs", txt "Scheduler diagram");
    (txt "intro_figs", txt "Introduction diagram");
    (txt "cprog_figs", txt "C programming diagram");
    (txt "misc_figs", txt "Diagram");
    (txt "Serial_figs", txt "Serial communication diagram") ].

Definition guess_alt (filename : text) : text :=
  let name := lower (path_stem filename) in
  match dict_get known name with
  | Some d => d
  | None =>
      let parts := split "/" (replace_char "\" "/" filename) in
      if (2 <=? length parts)%nat then
        let folder := nth (length parts - 2) parts [] in
        let base :=
          match dict_get folder_guesses folder with
          | Some b => b
          | None => txt "Diagram"
          end in
        base ++ txt " (" ++ path_name filename ++ txt ")"
      else txt "Figure (" ++ path_name filename ++ txt ")"
  end.

(** The [while] loop of [replacer]: from [pos], with [s] the text from
    [pos] on, move on while the depth is positive; the result is the
    position after the brace that closes the first argument, or the end of
    the text. *)
Fixpoint first_arg_end (depth : Z) (pos : nat) (s : text) : nat :=
  match s with
  | [] => pos
  | c :: s' =>
      if (0 <? depth)%Z then
        let depth :=
          if Ascii.eqb c "{" then (depth + 1)%Z
          else if Ascii.eqb c "}" then (depth - 1)%Z
          else depth in
        first_arg_end depth (S pos) s'
      else pos
  end.

(** The test of [replacer]: does the match at [start] lie in the first
    argument of the nearest [\pdftooltip{] before it?  (The first loop over
    [snippet] in the source changes nothing that is read later and cannot
    raise: the character it looks up is taken from [snippet].) *)
Definition inside_tooltip (t : text) (start : nat) : bool :=
  let preceding := firstn start t in
  if contains (txt "\pdftooltip{") preceding then
    match rfind (txt "\pdftooltip{") preceding with
    | Some last_tt =>
        let tt_inner_end := last_tt + length (txt "\pdftooltip{") in
        let pos := first_arg_end 1 tt_inner_end (skipn tt_inner_end t) in
        ((last_tt <? start) && (start <? pos))%nat
    | None => false
    end
  else false.

Definition replacer (t : text) (m : re_match) : text :=
  if inside_tooltip t (m_start m) then m_group0 m
  else
    let opts := or_empty (group m 1) in
    let fname := group_text m 2 in
    let alt := ALT_MARKER ++ txt " " ++ guess_alt fname in
    wrapper opts fname alt.

(** The set [tooltip_ranges] of the source is filled and never read. *)
Definition wrap_images (t : text) : text := sub_call INCL_RE (replacer t) t.

Definition extract_alt_map (tex_text : text) : dict :=
  fold_left
    (fun alt_map m =>
       let fname := path_name (group_text m 1) in
       let alt := strip (replace (txt "*\#*\#") (txt "*#*#") (group_text m 2)) in
       dict_set alt_map fname alt)
    (finditer tooltip_pat tex_text) [].

(** [(<[a-z]+>)\\usepackage\{hyperref\}], searched by
    [apply_pdf_accessibility] for the stream prefix. *)
Definition stream_pat : pattern := fun s =>
  match s with
  | "<" :: r =>
      let (letters, r2) := span_while (in_range 97 122) r in
      match letters, r2 with
      | _ :: _, ">" :: r3 =>
          match strip_prefix (txt "\usepackage{hyperref}") r3 with
          | Some rest =>
              let p := "<" :: letters ++ [">"] in
              Some ([Some p], p ++ txt "\usepackage{hyperref}", rest)
          | None => None
          end
      | _, _ => None
      end
  | _ => None
  end.

Definition stream_prefix (t : text) : text :=
  match search stream_pat t with
  | Some (_, m, _) => group_text m 1
  | None => []
  end.

(** The preamble part of [apply_pdf_accessibility]: the marker check,
    then [patch_preamble] with the prefix found in the text. *)
Definition preamble_step (title t : text) : text :=
  if already_patched t then t
  else patch_preamble t (stream_prefix t) title.

(** The text transformation of [apply_pdf_accessibility]. *)
Definition accessible_text (title t : text) : text :=
  wrap_images (preamble_step title t).

End Shn.

(** The hyperlink block that [patch_preamble] of [make_accessible.py]
    builds for a stream prefix and a title. *)
Abbreviation shn_hyperref prefix title :=
  (Shn.HYPERREF_TEMPLATE prefix title Shn.AUTHOR Shn.SUBJECT Shn.KEYWORDS).

(** ** Documents as texts and directives

    A source is seen as a text, followed by directives, each with the text
    after it; in the texts the directive keyword may occur, with no
    argument after it.  The theorems on [wrap_images] are stated on such
    sources. *)

Module Doc.
Import Py.

Definition LIT : text := txt "\includegraphics".
Definition TT : text := txt "\pdftooltip{".

Record directive := Dir {
  d_opts : option text;   (* the text between the brackets, if any *)
  d_fname : text
}.

Definition opts_text (d : directive) : text :=
  match d_opts d with
  | Some o => "[" :: o ++ ["]"]
  | None => []
  end.

Definition directive_text (d : directive) : text :=
  LIT ++ opts_text d ++ "{" :: d_fname d ++ ["}"].

(** Group 1 of a match on the directive [d]. *)
Definition opts_group (d : directive) : option text :=
  match d_opts d with
  | Some o => Some ("[" :: o ++ ["]"])
  | None => None
  end.

(** The bare hyperref declaration, and the pair of lines that the pattern
    [pat] of [make_accessible.py] looks for. *)
Definition bare : text := txt "\usepackage{hyperref}".

Definition pair_lines (prefix : text) : text :=
  Shn.graphicx_line prefix ++ Shn.hyperref_line prefix.

(** What the wrapper writes after the directive. *)
Definition closing (alt : text) : text := txt "}{" ++ alt ++ txt "}".

(** The two characters that matter in an alternative text. *)
Definition special (z : ascii) : Prop := z = "\" \/ z = "}".

(** A text that is empty or starts with a backslash: a keyword cannot
    lie across the seam before it. *)
Definition seam (rest : text) : Prop :=
  rest = [] \/ exists r, rest = "\" :: r.

Fixpoint render (t0 : text) (ds : list (directive * text)) : text :=
  match ds with
  | [] => t0
  | (d, t) :: ds' => t0 ++ directive_text d ++ render t ds'
  end.

Definition lacks (c : ascii) (t : text) : bool :=
  forallb (fun x => negb (Ascii.eqb x c)) t.

(** [p] occurs in [s]. *)
Definition occ (p s : text) : Prop := exists a b, s = a ++ p ++ b.

(** An occurrence of [p] lies across the seam of [x ++ y]. *)
Definition straddles (p x y : text) : Prop :=
  exists l1 l2 a b,
    l1 <> [] /\ l2 <> [] /\ p = l1 ++ l2 /\ x = a ++ l1 /\ y = l2 ++ b.

(** The options hold no closing bracket and no wrapper opening; the file
    name is not empty and holds no closing brace and no backslash. *)
Definition wf_dir (d : directive) : bool :=
  match d_opts d with
  | Some o => lacks "]" o && negb (contains TT o)
  | None => true
  end
  && match d_fname d with [] => false | _ :: _ => true end
  && lacks "}" (d_fname d) && lacks "\" (d_fname d).

(** What may follow a keyword that starts no directive: nothing, or a
    character other than the two that open an argument. *)
Definition inert (b : text) : bool :=
  match b with
  | [] => true
  | x :: _ => negb (Ascii.eqb x "[") && negb (Ascii.eqb x "{")
  end.

(** A text between directives: wherever it holds the directive keyword,
    no argument follows. *)
Fixpoint wf_text (t : text) : bool :=
  match t with
  | [] => true
  | _ :: t' =>
      match strip_prefix LIT t with
      | Some b => inert b
      | None => true
      end
      && wf_text t'
  end.

Definition wf_doc (t0 : text) (ds : list (directive * text)) : bool :=
  wf_text t0 && forallb (fun dt => wf_dir (fst dt) && wf_text (snd dt)) ds.

(** The braces a text opens minus those it closes. *)
Definition net (t : text) : Z := fold_left Tex.brace_step t 0%Z.

(** The text after the last occurrence of [p]. *)
Fixpoint after_last (p s : text) : option text :=
  match s with
  | [] => None
  | _ :: s' =>
      match after_last p s' with
      | Some u => Some u
      | None => strip_prefix p s
      end
  end.

(** Walking over [u] from depth [d], the depth stays positive. *)
Fixpoint stays_open (d : Z) (u : text) : bool :=
  (0 <? d)%Z &&
  match u with
  | [] => true
  | c :: u' => stays_open (Tex.brace_step d c) u'
  end.

(** What [Tex.is_already_wrapped] and [Shn.inside_tooltip] compute from
    the text before a match. *)
Definition tex_inside (pre : text) : bool :=
  match after_last TT pre with
  | Some u => (0 <? 1 + net u)%Z
  | None => false
  end.

Definition shn_inside (pre : text) : bool :=
  match after_last TT pre with
  | Some u => stays_open 1 u
  | None => false
  end.

(** *** One pass over a text

    The matches of a pattern and the characters between them, in order. *)
Inductive event : Type :=
| Lit (c : ascii)
| Hit (m : re_match).

Fixpoint events_fuel (fuel : nat) (pat : pattern) (pos : nat) (s : text)
  : list event :=
  match fuel with
  | O => []
  | S k =>
      match pat s with
      | Some (g, w, rest) =>
          Hit (MkMatch pos (pos + length w) w g)
              :: events_fuel k pat (pos + length w) rest
      | None =>
          match s with
          | [] => []
          | c :: s' => Lit c :: events_fuel k pat (S pos) s'
          end
      end
  end.

Definition events (pat : pattern) (pos : nat) (s : text) : list event :=
  events_fuel (S (length s)) pat pos s.

Definition hits (es : list event) : list re_match :=
  flat_map (fun e => match e with Hit m => [m] | Lit _ => [] end) es.

Definition emit (repl : re_match -> text) (es : list event) : text :=
  flat_map (fun e => match e with Hit m => repl m | Lit c => [c] end) es.

(** The events of the pass on a document that follows the text [pre]. *)
Fixpoint doc_events (pre t0 : text) (ds : list (directive * text))
  : list event :=
  map Lit t0 ++
  match ds with
  | [] => []
  | (d, t) :: ds' =>
      let start := length (pre ++ t0) in
      Hit (MkMatch start (start + length (directive_text d))
                   (directive_text d) [opts_group d; Some (d_fname d)])
          :: doc_events (pre ++ t0 ++ directive_text d) t ds'
  end.

(** A pattern whose matches are a non-empty prefix of the text. *)
Definition progressive (pat : pattern) : Prop :=
  forall s g w rest, pat s = Some (g, w, rest) -> s = w ++ rest /\ w <> [].

(** *** The wrapping pass on a document

    [inside] is the wrapped test on the text before a directive and
    [alt_of] the alternative text written for a file name. *)
Section Wrap.
Variable inside : text -> bool.
Variable alt_of : text -> text.

Definition wrap_dir (d : directive) : text :=
  wrapper (opts_text d) (d_fname d) (alt_of (d_fname d)).

Definition piece (pre : text) (d : directive) : text :=
  if inside pre then directive_text d else wrap_dir d.

(** The replacement of a match in the text [t]. *)
Definition piece_of (wrapped : text -> nat -> bool) (t : text)
           (m : re_match) : text :=
  if wrapped t (m_start m) then m_group0 m
  else wrapper (or_empty (group m 1)) (group_text m 2)
               (alt_of (group_text m 2)).

(** The output of the pass for the text [s] that follows [pre]. *)
Definition pass (wrapped : text -> nat -> bool) (pre s : text) : text :=
  emit (piece_of wrapped (pre ++ s)) (events INCL_RE (length pre) s).

(** The output for the document [t0 ds] that follows the text [pre]. *)
Fixpoint wrap_doc (pre t0 : text) (ds : list (directive * text)) : text :=
  match ds with
  | [] => t0
  | (d, t) :: ds' =>
      t0 ++ piece (pre ++ t0) d
         ++ wrap_doc (pre ++ t0 ++ directive_text d) t ds'
  end.

(** The same output as a document: the wrapper syntax joins the texts
    around a directive; [lead] is what the previous directive left to
    be written first. *)
Fixpoint rewrap (pre lead t0 : text) (ds : list (directive * text))
  : text * list (directive * text) :=
  match ds with
  | [] => (lead ++ t0, [])
  | (d, t) :: ds' =>
      let pre' := pre ++ t0 ++ directive_text d in
      if inside (pre ++ t0) then
        let r := rewrap pre' [] t ds' in
        (lead ++ t0, (d, fst r) :: snd r)
      else
        let r := rewrap pre' (txt "}{" ++ alt_of (d_fname d) ++ txt "}")
                        t ds' in
        (lead ++ t0 ++ TT, (d, fst r) :: snd r)
  end.
End Wrap.

(** The directives of a text: options and file name of every match. *)
Definition directives (s : text) : list (text * text) :=
  map (fun m => (or_empty (group m 1), group_text m 2)) (finditer INCL_RE s).

Definition tex_alt (fname : text) : text :=
  Tex.ALT_MARKER ++ txt " " ++ Tex.guess_alt fname.

Definition shn_alt (fname : text) : text :=
  Shn.ALT_MARKER ++ txt " " ++ Shn.guess_alt fname.

(** The map that [extract_alt_map] builds, with [post] applied to the
    alternative text. *)
Definition extract_with (post : text -> text) (s : text) : dict :=
  fold_left
    (fun alt_map m =>
       dict_set alt_map (path_name (group_text m 1)) (post (group_text m 2)))
    (finditer tooltip_pat s) [].

(** What follows a text in the output: nothing, or a wrapper. *)
Definition wrapper_seam (rest : text) : Prop :=
  rest = [] \/ exists r, rest = TT ++ LIT ++ r.

End Doc.

(** ** Sample inputs *)

Module Samples.
Import Doc.

Definition sample_title : text := txt "ECE 474: Notes".

Definition bare_only : text :=
  txt "\documentclass{article}" ++ [NL] ++ bare ++ [NL].

Definition adjacent_pair : text :=
  txt "\documentclass{article}" ++ [NL] ++ pair_lines []
      ++ txt "\begin{document}".

Definition class_only : text :=
  txt "\documentclass{article}" ++ [NL] ++ txt "\begin{document}".

Definition sample_files : Tex.filesystem :=
  [ ("a.tex"%string, class_only);
    ("b.tex"%string, txt "\documentclass{article}" ++ [NL]
                         ++ txt "\usepackage{graphicx}") ].

Definition odd_directive_tex : text :=
  txt "\includegraphics[}}]{\includegraphics{x}".
Definition odd_directive_shn : text :=
  txt "\includegraphics[}]{\includegraphics{x}".

Definition sample_doc : text * list (directive * text) :=
  (txt "See ",
   [ (Dir (Some (txt "width=0.5\textwidth")) (txt "figs/plot_2023.png"),
      txt " and \includegraphics*{c.png} (starred) and ");
     (Dir None (txt "traystack.png"), txt ".") ]).

Definition closed_wrapper : text :=
  txt "\pdftooltip{\includegraphics{a.png}}{Alt}\centerline{\includegraphics{b.png}}".

Definition lost_figures : text :=
  txt "\pdftooltip{text}{tip}\centerline{\includegraphics{a.png}} and \centerline{\includegraphics{b.png}}".

End Samples.

(** ** HTML generation: what both programs share

    Both programs read the alternative texts back from the wrappers, take
    the wrappers and the [pdfcomment] lines out of the LaTeX text that
    Pandoc reads, and add [alt] attributes to the [img] tags of the HTML
    that Pandoc writes. *)

Module Html.
Import Py.

(** The double quote. *)
Definition DQ : ascii := "034".

(** [\\pdftooltip\{(\\includegraphics(?:\[[^\]]*\])?\{[^}]+\})\}\{[^}]+\}],
    the first pattern of [preprocess_for_pandoc] in both programs: group 1
    is the directive. *)
Definition unwrap_pat : pattern := fun s =>
  match strip_prefix (txt "\pdftooltip{") s with
  | None => None
  | Some s1 =>
      match command (txt "\includegraphics") s1 with
      | Some (_, _, w, "}" :: s2) =>
          match braced s2 with
          | Some (a, rest) =>
              Some ([Some w],
                    txt "\pdftooltip{" ++ w ++ txt "}{" ++ a ++ txt "}",
                    rest)
          | None => None
          end
      | _ => None
      end
  end.

(** The words [ws] occur in [line] one after the other. *)
Fixpoint in_order (ws : list text) (line : text) : bool :=
  match ws with
  | [] => true
  | w :: ws' =>
      match find w line with
      | Some i => in_order ws' (skipn (i + length w) line)
      | None => false
      end
  end.

(** [[^\n]*w1[^\n]*w2[^\n]*\n] (and the same with [.] for [[^\n]]): the
    classes do not pass a newline, so a match at a position is the text up
    to and with the next newline, when that text holds the words in this
    order; the pattern has no group. *)
Definition line_with (ws : list text) : pattern := fun s =>
  let (line, r) := span_not NL s in
  match r with
  | nl :: rest =>
      if in_order ws line then Some ([], line ++ [nl], rest) else None
  | [] => None
  end.

(** [<img [^>]+>] *)
Definition img_pat : pattern := fun s =>
  match strip_prefix (txt "<img ") s with
  | None => None
  | Some r =>
      let (body, r2) := span_not ">" r in
      match body, r2 with
      | _ :: _, ">" :: rest => Some ([], txt "<img " ++ body ++ [">"], rest)
      | _, _ => None
      end
  end.

(** [src=Q([^Q]+)Q], where Q stands for the double quote. *)
Definition src_pat : pattern := fun s =>
  match strip_prefix (txt "src=" ++ [DQ]) s with
  | None => None
  | Some r =>
      let (v, r2) := span_not DQ r in
      match v, r2 with
      | _ :: _, q :: rest =>
          Some ([Some v], txt "src=" ++ [DQ] ++ v ++ [q], rest)
      | _, _ => None
      end
  end.

(** [s.replace(a, b, 1)] for a non-empty [a]. *)
Fixpoint replace_first (a b s : text) : text :=
  match strip_prefix a s with
  | Some r => b ++ r
  | None =>
      match s with
      | [] => []
      | c :: s' => c :: replace_first a b s'
      end
  end.

(** [s.strip(chars)]: [f] tells the characters of [chars]. *)
Fixpoint lstrip_of (f : ascii -> bool) (s : text) : text :=
  match s with
  | c :: s' => if f c then lstrip_of f s' else s
  | [] => []
  end.

Definition strip_of (f : ascii -> bool) (s : text) : text :=
  rev (lstrip_of f (rev (lstrip_of f s))).

(** The lines of a text file as iteration over the file yields them: each
    line keeps its newline; [cur] is the line read so far. *)
Fixpoint file_lines (cur s : text) : list text :=
  match s with
  | [] => match cur with [] => [] | _ :: _ => [cur] end
  | c :: s' =>
      if Ascii.eqb c NL then (cur ++ [c]) :: file_lines [] s'
      else file_lines (cur ++ [c]) s'
  end.

(** [alt_map.get(fname, '')] *)
Definition get_or_empty (d : dict) (k : text) : text :=
  match dict_get d k with
  | Some v => v
  | None => []
  end.

(** The tag that [add_alt] writes for an alternative text. *)
Definition img_with_alt (alt tag : text) : text :=
  replace_first (txt "<img ")
                (txt "<img alt=" ++ [DQ] ++ alt ++ [DQ] ++ txt " ") tag.

End Html.

(** ** [make_accessible_tex.py]: title and HTML *)

Module TexHtml.
Import Py Html.

(** [\\title\{([^}]+)\}] *)
Definition title_pat : pattern := fun s =>
  match strip_prefix (txt "\title") s with
  | None => None
  | Some s1 =>
      match braced s1 with
      | Some (f, rest) => Some ([Some f], txt "\title{" ++ f ++ txt "}", rest)
      | None => None
      end
  end.

(** [\\[a-zA-Z]+\{(G)\}] with [[^}]*] for G: the run of letters is the
    longest one, no shorter run is followed by an opening brace. *)
Definition cmd_arg_pat : pattern := fun s =>
  match s with
  | "\" :: r =>
      let (name, r2) := span_while is_ascii_letter r in
      match name, r2 with
      | _ :: _, "{" :: r3 =>
          let (a, r4) := span_not "}" r3 in
          match r4 with
          | "}" :: rest =>
              Some ([Some a], "\" :: name ++ "{" :: a ++ ["}"], rest)
          | _ => None
          end
      | _, _ => None
      end
  | _ => None
  end.

(** [\\[a-zA-Z]+\s*] *)
Definition cmd_pat : pattern := fun s =>
  match s with
  | "\" :: r =>
      let (name, r2) := span_while is_ascii_letter r in
      match name with
      | _ :: _ =>
          let (ws, rest) := span_while isspace r2 in
          Some ([], "\" :: name ++ ws, rest)
      | [] => None
      end
  | _ => None
  end.

(** [get_title(tex_path, text)]; [tex_path] is the path as a text. *)
Definition get_title (tex_path t : text) : outcome text :=
  match search title_pat t with
  | Some (_, m, _) =>
      bind (sub_template cmd_arg_pat 1 (txt "\1") (group_text m 1))
           (fun t1 =>
              bind (sub_template cmd_pat 0 [] t1)
                   (fun t2 => Returned (strip t2)))
  | None => Returned (replace (txt "_") (txt "\_") (path_stem tex_path))
  end.

Definition preprocess_for_pandoc (tex_text : text) : outcome text :=
  bind (sub_template unwrap_pat 1 (txt "\1") tex_text)
       (fun t1 =>
          bind (sub_template
                  (line_with [txt "IfFileExists"; txt "pdfcomment"]) 0 [] t1)
               (fun t2 =>
                  sub_template (line_with [txt "usepackage{pdfcomment}"])
                               0 [] t2)).

Definition add_alt (alt_map : dict) (m : re_match) : text :=
  let tag := m_group0 m in
  match search src_pat tag with
  | None => tag
  | Some (_, src_m, _) =>
      if contains (txt "alt=") tag then tag
      else
        let fname := path_name (group_text src_m 1) in
        let alt := get_or_empty alt_map fname in
        match alt with
        | _ :: _ => img_with_alt alt tag
        | [] => tag
        end
  end.

Definition postprocess_html (html : text) (alt_map : dict) : text :=
  sub_call img_pat (add_alt alt_map) html.

End TexHtml.

(** ** [make_accessible.py]: title and HTML *)

Module ShnHtml.
Import Py Html.

Definition TITLE_MAP : dict :=
  [ (txt "474_IntroW22", txt "ECE 474: Course Introduction");
    (txt "Cprog", txt "ECE 474: Structure and Compilation of C Programs");
    (txt "Hardware_IO", txt "ECE 474: Hardware and Basic I/O");
    (txt "Interrupts", txt "ECE 474: Interrupts");
    (txt "Schedulers", txt "ECE 474: Schedulers");
    (txt "SchedImplementation", txt "ECE 474: Scheduler Implementation");
    (txt "Pointers", txt "ECE 474: Pointers in C");
    (txt "CritSect", txt "ECE 474: Critical Sections");
    (txt "Serial", txt "ECE 474: Serial Communication");
    (txt "USB", txt "ECE 474: Introduction to USB");
    (txt "ConstDef", txt "ECE 474: C Constants and Preprocessor Directives");
    (txt "Secure", txt "ECE 474: Secure Coding");
    (txt "MicroCos", txt "ECE 474: Micro-C OS/II Overview") ].

Definition is_percent (c : ascii) : bool := Ascii.eqb c "%".

(** [re.match(r'%+\s*(.+)', line)].  The percent signs and the whitespace
    after them are taken as far as they go.  When a character follows,
    group 1 runs from it to the end of the line.  When nothing follows,
    the whitespace is given back until a character other than a newline
    is found, which is group 1; when there is none, the last percent sign
    is given back, and is group 1. *)
Definition header_pat : pattern := fun s =>
  let (pcs, r) := span_while is_percent s in
  match pcs with
  | [] => None
  | _ :: _ =>
      let (ws, r2) := span_while isspace r in
      match r2 with
      | _ :: _ =>
          let (g, rest) := span_not NL r2 in
          Some ([Some g], pcs ++ ws ++ g, rest)
      | [] =>
          let (nls, kept) := span_while (Ascii.eqb NL) (rev ws) in
          match kept with
          | c :: before => Some ([Some [c]], pcs ++ rev before ++ [c], nls)
          | [] =>
              match pcs with
              | _ :: _ :: _ => Some ([Some ["%"]], pcs, ws)
              | _ => None
              end
          end
      end
  end.

(** The title that a line of the file gives, if any. *)
Definition line_title (line : text) : option text :=
  match header_pat line with
  | Some (g, w, rest) =>
      let m := MkMatch 0 (length w) w g in
      match strip (strip_of is_percent (group_text m 1)) with
      | (_ :: _) as t => Some t
      | [] => None
      end
  | None => None
  end.

Fixpoint first_title (lines : list text) : option text :=
  match lines with
  | [] => None
  | line :: lines' =>
      match line_title line with
      | Some t => Some t
      | None => first_title lines'
      end
  end.

(** [pdf_title(shn_path)]; [file] is the text of the file, if the file
    exists.  The file is opened only when the stem is not in
    [TITLE_MAP]. *)
Definition pdf_title (shn_path : text) (file : option text) : outcome text :=
  let stem := path_stem shn_path in
  match dict_get TITLE_MAP stem with
  | Some title => Returned title
  | None =>
      match file with
      | None => Raised (FileNotFoundError (string_of_list_ascii shn_path))
      | Some content =>
          match first_title (file_lines [] content) with
          | Some t => Returned (txt "ECE 474: " ++ t)
          | None => Returned (txt "ECE 474: " ++ stem)
          end
      end
  end.

Definition preprocess_for_pandoc (tex_text : text) : outcome text :=
  bind (sub_template unwrap_pat 1 (txt "\1") tex_text)
       (fun t1 =>
          bind (sub_template
                  (line_with [txt "IfFileExists"; txt "pdfcomment"]) 0 [] t1)
               (fun t2 =>
                  sub_template (line_with [txt "usepackage{pdfcomment}"])
                               0 [] t2)).

Definition add_alt (alt_map : dict) (m : re_match) : text :=
  let tag := m_group0 m in
  match search src_pat tag with
  | None => tag
  | Some (_, src_m, _) =>
      let fname := path_name (group_text src_m 1) in
      if contains (txt "alt=") tag then tag
      else
        let alt := get_or_empty alt_map fname in
        match alt with
        | _ :: _ => img_with_alt alt tag
        | [] => tag
        end
  end.

Definition postprocess_html (html : text) (alt_map : dict) : text :=
  sub_call img_pat (add_alt alt_map) html.

End ShnHtml.

(** ** Shapes of sources and pages *)

Module Shapes.
Import Py Html Doc.

(** The document [t0 ds] with every directive in a wrapper. *)
Fixpoint wrap_all (alt_of : text -> text) (t0 : text)
         (ds : list (directive * text)) : text :=
  match ds with
  | [] => t0
  | (d, t) :: ds' =>
      t0 ++ wrapper (opts_text d) (d_fname d) (alt_of (d_fname d))
         ++ wrap_all alt_of t ds'
  end.

(** A line that [line_with ws] takes: it ends with a newline and holds the
    words in order. *)
Definition removable (ws : list text) (l : text) : bool :=
  match rev l with
  | nl :: body => Ascii.eqb nl NL && in_order ws (rev body)
  | [] => false
  end.

(** The text without the lines that hold the words [ws]. *)
Definition drop_lines (ws : list text) (t : text) : text :=
  concat (filter (fun l => negb (removable ws l)) (file_lines [] t)).

(** The opening of the title command. *)
Definition TITLE : text := txt "\title{".

(** A character that [strip('%').strip()] leaves at the end of a title:
    no whitespace, no percent sign. *)
Definition clean_end (c : ascii) : bool :=
  negb (isspace c) && negb (ShnHtml.is_percent c).

(** *** Pages

    An HTML page is seen as the text before the first [img] tag and the
    tags, each with the text after it; a tag is given by its body, the
    text between [<img ] and [>]. *)

Definition IMG : text := txt "<img ".

Definition tag_text (body : text) : text := IMG ++ body ++ [">"].

Fixpoint render_page (h0 : text) (ts : list (text * text)) : text :=
  match ts with
  | [] => h0
  | (body, h) :: ts' => h0 ++ tag_text body ++ render_page h ts'
  end.

(** The body of a tag is not empty and holds no [>]. *)
Definition wf_body (body : text) : bool :=
  match body with [] => false | _ :: _ => true end && lacks ">" body.

(** The texts around the tags do not hold [<img ]. *)
Definition wf_page (h0 : text) (ts : list (text * text)) : bool :=
  negb (contains IMG h0)
  && forallb (fun bh => wf_body (fst bh) && negb (contains IMG (snd bh))) ts.

(** What follows a text of the page: nothing, or a tag. *)
Definition tag_seam (rest : text) : Prop :=
  rest = [] \/ exists r, rest = "<" :: r.

(** No alternative text of the map holds [>]. *)
Definition plain_values (alt_map : dict) : Prop :=
  forall k v, In (k, v) alt_map -> ~ In ">" v.

(** The attribute that [add_alt] writes. *)
Definition alt_attr (alt : text) : text :=
  txt "alt=" ++ [DQ] ++ alt ++ [DQ] ++ txt " ".

(** The [src] attribute with the value [p]. *)
Definition src_attr (p : text) : text := txt "src=" ++ [DQ] ++ p ++ [DQ].

(** The alternative text that [add_alt] has for a tag: that of the file
    named by the first [src] value, unless the tag holds [alt=]; empty
    when the tag is left alone. *)
Definition alt_for (alt_map : dict) (body : text) : text :=
  match search src_pat (tag_text body) with
  | None => []
  | Some (_, m, _) =>
      if contains (txt "alt=") (tag_text body) then []
      else get_or_empty alt_map (path_name (group_text m 1))
  end.

(** The body of the tag that [add_alt] writes. *)
Definition new_body (alt_map : dict) (body : text) : text :=
  match alt_for alt_map body with
  | [] => body
  | (_ :: _) as alt => alt_attr alt ++ body
  end.

Definition new_tags (alt_map : dict) (ts : list (text * text))
  : list (text * text) :=
  map (fun bh => (new_body alt_map (fst bh), snd bh)) ts.

(** A page with two tags, one of which has its alternative text. *)
Definition sample_page : text * list (text * text) :=
  (txt "<p>Figure 1</p>",
   [ (src_attr (txt "figs/a.png") ++ txt " /", txt "<p>and</p>");
     (alt_attr (txt "Kept") ++ src_attr (txt "b.png"), txt "<hr>") ]).

Definition sample_alt_map : dict :=
  [ (txt "a.png", txt "A plot"); (txt "b.png", txt "Another plot") ].

(** A source whose preamble has the accessibility block of
    [make_accessible.py], with one figure. *)
Definition patched_doc : text * list (directive * text) :=
  (txt "\documentclass{article}" ++ [NL]
     ++ Shn.PREAMBLE_TEMPLATE [] ++ [NL]
     ++ shn_hyperref [] (txt "Notes") ++ [NL]
     ++ txt "\begin{document}" ++ [NL],
   [ (Dir (Some (txt "width=3in")) (txt "figs/plot.png"),
      NL :: txt "\end{document}") ]).

(** The map that [extract_alt_map] reads from the wrappers of the
    directives [ds], written with the alternative texts [alt_of] and read
    with [post] applied to them. *)
Definition alt_map_of (post alt_of : text -> text)
           (ds : list (directive * text)) : dict :=
  fold_left
    (fun alt_map dt =>
       dict_set alt_map (path_name (d_fname (fst dt)))
                (post (alt_of (d_fname (fst dt)))))
    ds [].

(** A preamble with the two kinds of lines that Pandoc must not see, and
    a last line without a newline. *)
Definition preamble_lines : text :=
  join_lines
    [ txt "\documentclass{article}";
      txt "\IfFileExists{pdfcomment.sty}{\usepackage{pdfcomment}}{\newcommand{\pdftooltip}[2]{#1}}";
      txt "  \usepackage{pdfcomment} % tooltips";
      txt "\begin{document}";
      txt "% \usepackage{pdfcomment}" ].

End Shapes.

(** ** What the wrapping pass keeps

    A source and the output of [wrap_images] are read side by side, and
    the wrappers are taken away again the way [preprocess_for_pandoc]
    does it. *)

Module Kept.
Import Py Doc.





End Kept.


(** * Part II: lemmas and theorems *)

(** ** Literal prefixes and occurrences *)

(** Lists of appended texts are compared after reassociation. *)
Ltac flat := repeat (progress (rewrite <- ?app_assoc; cbn [app])).
Ltac flat_in H := repeat (progress (rewrite <- ?app_assoc in H; cbn [app] in H)).

Module TextFacts.
Import Py Doc.

Lemma strip_prefix_spec (p s r : text) :
  strip_prefix p s = Some r <-> s = p ++ r.
Proof.
  revert s; induction p as [|a p IH]; intros s; simpl.
  - split; intros H; [injection H as ->; reflexivity | now subst].
  - destruct s as [|b s].
    + split; intros H; discriminate.
    + destruct (Ascii.eqb a b) eqn:E.
      * apply Ascii.eqb_eq in E; subst b. rewrite IH.
        split; intros H; [now subst | now injection H].
      * apply Ascii.eqb_neq in E.
        split; intros H; [discriminate | injection H as <- _; congruence].
Qed.

Lemma strip_prefix_app (p r : text) : strip_prefix p (p ++ r) = Some r.
Proof. now apply strip_prefix_spec. Qed.

Lemma strip_prefix_none (p s : text) :
  strip_prefix p s = None <-> forall r, s <> p ++ r.
Proof.
  split.
  - intros H r E. apply strip_prefix_spec in E. congruence.
  - intros H. destruct (strip_prefix p s) as [r|] eqn:E; [|reflexivity].
    apply strip_prefix_spec in E. now apply H in E.
Qed.

Lemma startswith_strip (p s : text) :
  startswith p s = is_some (strip_prefix p s).
Proof.
  revert s; induction p as [|a p IH]; intros [|b s]; simpl; try reflexivity.
  destruct (Ascii.eqb a b); simpl; auto.
Qed.

Lemma startswith_spec (p s : text) :
  startswith p s = true <-> exists r, s = p ++ r.
Proof.
  rewrite startswith_strip. split.
  - destruct (strip_prefix p s) as [r|] eqn:E; [|discriminate].
    intros _. exists r. now apply strip_prefix_spec.
  - intros [r ->]. now rewrite strip_prefix_app.
Qed.

Lemma contains_spec (p s : text) : contains p s = true <-> occ p s.
Proof.
  induction s as [|c s IH]; simpl.
  - rewrite orb_false_r, startswith_spec. split.
    + intros [r E]. now exists [], r.
    + intros [a [b E]]. destruct a; [now exists b|discriminate].
  - rewrite orb_true_iff, startswith_spec, IH. split.
    + intros [[r E]|[a [b E]]].
      * now exists [], r.
      * exists (c :: a), b. now rewrite E.
    + intros [[|x a] [b E]].
      * left. now exists b.
      * right. injection E as _ E. now exists a, b.
Qed.

Lemma contains_false (p s : text) : contains p s = false <-> ~ occ p s.
Proof.
  rewrite <- contains_spec. destruct (contains p s); split; intros H;
    congruence.
Qed.

Lemma occ_app_at (p x y a b : text) :
  x ++ y = a ++ p ++ b ->
  (exists b', x = a ++ p ++ b' /\ b = b' ++ y)
  \/ (exists a', y = a' ++ p ++ b /\ a = x ++ a')
  \/ (exists l1 l2, l1 <> [] /\ l2 <> [] /\ p = l1 ++ l2
                    /\ x = a ++ l1 /\ y = l2 ++ b).
Proof.
  intros E. apply app_eq_app in E as [l [[E1 E2]|[E1 E2]]].
  - (* x = a ++ l, p ++ b = l ++ y *)
    apply app_eq_app in E2 as [l' [[E3 E4]|[E3 E4]]].
    + (* p = l ++ l', y = l' ++ b *)
      destruct l as [|c l].
      * right; left. exists []. simpl in *. subst.
        now rewrite !app_nil_r.
      * destruct l' as [|c' l'].
        -- left. exists []. rewrite app_nil_r in E3. simpl in E4.
           subst. now rewrite !app_nil_r.
        -- right; right. exists (c :: l), (c' :: l').
           repeat split; auto; discriminate.
    + (* l = p ++ l', b = l' ++ y *)
      left. exists l'. now subst.
  - right; left. exists l. now subst.
Qed.

Lemma occ_app (p x y : text) :
  occ p (x ++ y) -> occ p x \/ occ p y \/ straddles p x y.
Proof.
  intros [a [b E]]. apply occ_app_at in E as [[b' [E _]]|[[a' [E _]]|H]].
  - left. now exists a, b'.
  - right; left. now exists a', b.
  - right; right. destruct H as [l1 [l2 H]]. now exists l1, l2, a, b.
Qed.

Lemma occ_app_l (p x y : text) : occ p x -> occ p (x ++ y).
Proof.
  intros [a [b ->]]. exists a, (b ++ y). now rewrite <- !app_assoc.
Qed.

Lemma occ_app_r (p x y : text) : occ p y -> occ p (x ++ y).
Proof.
  intros [a [b ->]]. exists (x ++ a), b. now rewrite <- !app_assoc.
Qed.

(** A pattern whose first character does not come again cannot lie across
    a seam that is followed by that character. *)
Lemma no_straddle_head (c0 : ascii) (p' x y : text) :
  ~ In c0 p' -> (y = [] \/ exists y', y = c0 :: y') ->
  ~ straddles (c0 :: p') x y.
Proof.
  intros Hn Hy [l1 [l2 [a [b (H1 & H2 & Hp & Hx & Hyb)]]]].
  destruct l2 as [|c l2]; [congruence|].
  destruct Hy as [->|[y' ->]]; [discriminate|].
  injection Hyb as <- _.
  destruct l1 as [|c1 l1]; [congruence|].
  injection Hp as _ Hp. apply Hn. rewrite Hp.
  apply in_or_app. right. now left.
Qed.

(** Nor can it when the text before the seam does not hold that
    character. *)
Lemma no_straddle_lacks (c0 : ascii) (p' x y : text) :
  ~ In c0 x -> ~ straddles (c0 :: p') x y.
Proof.
  intros Hn [l1 [l2 [a [b (H1 & H2 & Hp & Hx & Hyb)]]]].
  destruct l1 as [|c1 l1]; [congruence|].
  injection Hp as <- _. apply Hn. rewrite Hx.
  apply in_or_app. right. now left.
Qed.

(** Nor when the text before the seam ends with a character that the
    pattern does not hold. *)
Lemma no_straddle_last (e : ascii) (p x y : text) :
  ~ In e p -> (x = [] \/ exists x', x = x' ++ [e]) -> ~ straddles p x y.
Proof.
  intros Hn Hx [l1 [l2 [a [b (H1 & H2 & Hp & Hxa & Hyb)]]]].
  destruct Hx as [->|[x' ->]].
  - destruct a; destruct l1; simpl in *; congruence.
  - destruct (exists_last H1) as [l1' [e' ->]].
    rewrite app_assoc in Hxa. apply app_inj_tail in Hxa as [_ <-].
    apply Hn. rewrite Hp. apply in_or_app. left.
    apply in_or_app. right. now left.
Qed.

(** Nor when the text after the seam starts with a character that the
    pattern does not hold. *)
Lemma no_straddle_next (e : ascii) (p x y : text) :
  ~ In e p -> (y = [] \/ exists y', y = e :: y') -> ~ straddles p x y.
Proof.
  intros Hn Hy [l1 [l2 [a [b (H1 & H2 & Hp & Hxa & Hyb)]]]].
  destruct l2 as [|c l2]; [congruence|].
  destruct Hy as [->|[y' ->]]; [discriminate|].
  injection Hyb as <- _. apply Hn. rewrite Hp.
  apply in_or_app. right. now left.
Qed.

Lemma occ_lacks (c0 : ascii) (p' s : text) : ~ In c0 s -> ~ occ (c0 :: p') s.
Proof.
  intros Hn [a [b ->]]. apply Hn. apply in_or_app. right. now left.
Qed.

Lemma lacks_spec (c : ascii) (t : text) : lacks c t = true <-> ~ In c t.
Proof.
  unfold lacks. induction t as [|x t IH]; simpl.
  - tauto.
  - rewrite andb_true_iff, IH, negb_true_iff, Ascii.eqb_neq. intuition.
Qed.

End TextFacts.

(** ** Patterns *)

Module PatternFacts.
Import Py TextFacts.

Lemma span_not_spec (c : ascii) (s a b : text) :
  span_not c s = (a, b) ->
  s = a ++ b /\ ~ In c a /\ (b = [] \/ exists b', b = c :: b').
Proof.
  revert a b; induction s as [|x s IH]; intros a b; simpl.
  - intros H; injection H as <- <-. auto.
  - destruct (Ascii.eqb x c) eqn:E.
    + apply Ascii.eqb_eq in E; subst x.
      intros H; injection H as <- <-. simpl. repeat split; eauto.
    + apply Ascii.eqb_neq in E.
      destruct (span_not c s) as [a' b'] eqn:Es.
      intros H; injection H as <- <-.
      destruct (IH a' b' eq_refl) as (-> & Hn & Hb).
      repeat split; auto. simpl. intros [H|H]; auto.
Qed.

Lemma span_not_app (c : ascii) (a r : text) :
  ~ In c a -> span_not c (a ++ c :: r) = (a, c :: r).
Proof.
  induction a as [|x a IH]; simpl; intros Hn.
  - now rewrite Ascii.eqb_refl.
  - destruct (Ascii.eqb x c) eqn:E.
    + apply Ascii.eqb_eq in E. tauto.
    + rewrite IH; auto.
Qed.

Lemma span_not_all (c : ascii) (a : text) :
  ~ In c a -> span_not c a = (a, []).
Proof.
  induction a as [|x a IH]; simpl; intros Hn; [reflexivity|].
  destruct (Ascii.eqb x c) eqn:E.
  - apply Ascii.eqb_eq in E. tauto.
  - rewrite IH; auto.
Qed.

Lemma bracketed_spec (s w r : text) :
  bracketed s = Some (w, r) ->
  s = w ++ r /\ exists o, w = "[" :: o ++ ["]"] /\ ~ In "]" o.
Proof.
  unfold bracketed. destruct s as [|x s]; [discriminate|].
  destruct (ascii_dec x "[") as [->|Hx].
  - destruct (span_not "]" s) as [o r2] eqn:Es.
    apply span_not_spec in Es as (-> & Hn & Hb).
    destruct r2 as [|y r2]; [discriminate|].
    destruct Hb as [Hb|[b' Hb]]; [discriminate|]. injection Hb as -> ->.
    intros H; injection H as <- <-. split.
    + simpl. now rewrite <- app_assoc.
    + now exists o.
  - destruct x as [[] [] [] [] [] [] [] []]; try discriminate; congruence.
Qed.

Lemma bracketed_app (o r : text) :
  ~ In "]" o -> bracketed ("[" :: o ++ "]" :: r) = Some ("[" :: o ++ ["]"], r).
Proof. intros Hn. unfold bracketed. now rewrite span_not_app. Qed.

Lemma bracketed_head (s : text) :
  (forall r, s <> "[" :: r) -> bracketed s = None.
Proof.
  intros H. destruct s as [|x s]; [reflexivity|].
  destruct (ascii_dec x "[") as [->|Hx]; [now destruct (H s)|].
  destruct x as [[] [] [] [] [] [] [] []]; try reflexivity; congruence.
Qed.

Lemma braced_spec (s f r : text) :
  braced s = Some (f, r) ->
  s = "{" :: f ++ "}" :: r /\ f <> [] /\ ~ In "}" f.
Proof.
  unfold braced. destruct s as [|x s]; [discriminate|].
  destruct (ascii_dec x "{") as [->|Hx].
  - destruct (span_not "}" s) as [f' r2] eqn:Es.
    apply span_not_spec in Es as (-> & Hn & Hb).
    destruct f' as [|y f']; [discriminate|].
    destruct r2 as [|z r2]; [discriminate|].
    destruct Hb as [Hb|[b' Hb]]; [discriminate|]. injection Hb as -> ->.
    intros H; injection H as <- <-. repeat split; auto. discriminate.
  - destruct x as [[] [] [] [] [] [] [] []]; try discriminate; congruence.
Qed.

Lemma braced_app (f r : text) :
  f <> [] -> ~ In "}" f -> braced ("{" :: f ++ "}" :: r) = Some (f, r).
Proof.
  intros Hf Hn. unfold braced. rewrite span_not_app by assumption.
  destruct f; [congruence|reflexivity].
Qed.

Lemma command_spec (name s : text) o f w rest :
  command name s = Some (o, f, w, rest) ->
  s = w ++ rest /\ w = name ++ or_empty o ++ "{" :: f ++ ["}"]
  /\ f <> [] /\ ~ In "}" f.
Proof.
  unfold command. destruct (strip_prefix name s) as [s1|] eqn:E1;
    [|discriminate].
  apply strip_prefix_spec in E1 as ->.
  unfold with_optional.
  destruct (bracketed s1) as [[wo s2]|] eqn:Eo.
  - destruct (braced s2) as [[a r]|] eqn:Eb.
    + intros H; injection H as <- <- <- <-.
      apply bracketed_spec in Eo as (-> & o' & -> & _).
      apply braced_spec in Eb as (-> & Hf & Hn).
      repeat split; auto. simpl. now flat.
    + destruct (braced s1) as [[a r]|] eqn:Eb1; [|discriminate].
      intros H; injection H as <- <- <- <-.
      apply braced_spec in Eb1 as (-> & Hf & Hn).
      repeat split; auto. simpl. now flat.
  - destruct (braced s1) as [[a r]|] eqn:Eb1; [|discriminate].
    intros H; injection H as <- <- <- <-.
    apply braced_spec in Eb1 as (-> & Hf & Hn).
    repeat split; auto. simpl. now flat.
Qed.

Lemma command_starts (name s : text) :
  startswith name s = false -> command name s = None.
Proof.
  unfold command. rewrite startswith_strip.
  now destruct (strip_prefix name s).
Qed.

End PatternFacts.

(** ** One pass over a text: matches and replacement *)

Module ScanFacts.
Import Py TextFacts Doc.

Lemma fold_left_pointwise {A B} (f g : A -> B -> A) (l : list B) (a : A) :
  (forall x y, f x y = g x y) -> fold_left f l a = fold_left g l a.
Proof.
  intros H. revert a; induction l as [|b l IH]; intros a; simpl; auto.
  now rewrite H, IH.
Qed.

Lemma hits_hit m es : hits (Hit m :: es) = m :: hits es.
Proof. reflexivity. Qed.
Lemma hits_lit c es : hits (Lit c :: es) = hits es.
Proof. reflexivity. Qed.
Lemma emit_hit repl m es : emit repl (Hit m :: es) = repl m ++ emit repl es.
Proof. reflexivity. Qed.
Lemma emit_lit repl c es : emit repl (Lit c :: es) = c :: emit repl es.
Proof. reflexivity. Qed.

Section Pattern.
Variable pat : pattern.
Hypothesis pat_progressive : progressive pat.

Lemma pat_nil : pat [] = None.
Proof.
  destruct (pat []) as [[[g w] rest]|] eqn:E; [|reflexivity].
  apply pat_progressive in E as [E Hw].
  destruct w; [congruence|discriminate].
Qed.

Lemma pat_rest_shorter s g w rest :
  pat s = Some (g, w, rest) -> length rest < length s.
Proof.
  intros E. apply pat_progressive in E as [-> Hw].
  rewrite length_app. destruct w; [congruence|simpl; lia].
Qed.

Lemma events_fuel_enough (fuel1 fuel2 pos : nat) (s : text) :
  length s < fuel1 -> length s < fuel2 ->
  events_fuel fuel1 pat pos s = events_fuel fuel2 pat pos s.
Proof.
  revert fuel2 pos s.
  induction fuel1 as [|k1 IH]; intros [|k2] pos s H1 H2; try lia.
  simpl. destruct (pat s) as [[[g w] rest]|] eqn:E.
  - f_equal. apply pat_rest_shorter in E. apply IH; lia.
  - destruct s as [|c s]; [reflexivity|]. f_equal.
    simpl in *. apply IH; lia.
Qed.

Lemma events_nil (pos : nat) : events pat pos [] = [].
Proof. unfold events. simpl. now rewrite pat_nil. Qed.

Lemma events_skip (pos : nat) (c : ascii) (s : text) :
  pat (c :: s) = None -> events pat pos (c :: s) = Lit c :: events pat (S pos) s.
Proof.
  intros E. unfold events. simpl events_fuel at 1. now rewrite E.
Qed.

Lemma events_hit (pos : nat) (s : text) g w rest :
  pat s = Some (g, w, rest) ->
  events pat pos s =
  Hit (MkMatch pos (pos + length w) w g)
      :: events pat (pos + length w) rest.
Proof.
  intros E. unfold events. simpl events_fuel at 1. rewrite E. f_equal.
  apply pat_rest_shorter in E. apply events_fuel_enough; lia.
Qed.

Lemma finditer_fuel_events (fuel pos : nat) (s : text) :
  finditer_fuel fuel pat pos s = hits (events_fuel fuel pat pos s).
Proof.
  revert pos s; induction fuel as [|k IH]; intros pos s; [reflexivity|].
  simpl. destruct (pat s) as [[[g w] rest]|] eqn:E.
  - apply pat_progressive in E as [_ Hw].
    destruct w as [|c w]; [congruence|]. simpl. now rewrite IH.
  - destruct s; [reflexivity|]. simpl. apply IH.
Qed.

Lemma finditer_events (s : text) :
  finditer pat s = hits (events pat 0 s).
Proof. apply finditer_fuel_events. Qed.

Section Replace.
Variable repl : re_match -> text.
Variable t : text.

Let sub_step : text * nat -> re_match -> text * nat :=
  fun '(result, prev) m =>
    (result ++ slice t prev (m_start m) ++ repl m, m_end m).

Lemma sub_loop_events (fuel : nat) (pre s result : text) (prev : nat) :
  t = pre ++ s -> prev <= length pre -> length s < fuel ->
  (let '(r, p) :=
     fold_left sub_step (hits (events_fuel fuel pat (length pre) s))
               (result, prev) in
   r ++ skipn p t)
  = result ++ skipn prev pre
           ++ emit repl (events_fuel fuel pat (length pre) s).
Proof.
  revert pre s result prev.
  induction fuel as [|k IH]; intros pre s result prev Ht Hp Hf; [lia|].
  simpl events_fuel. destruct (pat s) as [[[g w] rest]|] eqn:E.
  - pose proof (pat_rest_shorter _ _ _ _ E) as Hlt.
    apply pat_progressive in E as [-> Hw].
    rewrite hits_hit, emit_hit.
    cbn [fold_left sub_step m_start m_end].
    rewrite <- (length_app pre w).
    rewrite (IH (pre ++ w) rest); [|now flat|lia|lia].
    rewrite skipn_all. unfold slice. rewrite Ht.
    rewrite skipn_app, firstn_app.
    rewrite length_skipn.
    replace (length pre - prev - (length pre - prev)) with 0 by lia.
    rewrite firstn_all2 by (rewrite length_skipn; lia).
    simpl. now flat.
  - destruct s as [|c s].
    + simpl. rewrite Ht. now rewrite !app_nil_r.
    + rewrite hits_lit, emit_lit.
      replace (S (length pre)) with (length (pre ++ [c]))
        by (rewrite length_app; simpl; lia).
      rewrite (IH (pre ++ [c]) s);
        [|now flat|rewrite length_app; lia|simpl in Hf; lia].
      rewrite skipn_app.
      replace (prev - length pre) with 0 by lia. simpl.
      now flat.
Qed.
End Replace.

Lemma sub_call_events (repl : re_match -> text) (s : text) :
  sub_call pat repl s = emit repl (events pat 0 s).
Proof.
  unfold sub_call, sub_loop, finditer. rewrite finditer_fuel_events.
  pose proof (sub_loop_events repl s (S (length s)) [] s [] 0
                              eq_refl (Nat.le_refl _)) as H.
  simpl length in H.
  specialize (H (Nat.lt_succ_diag_r _)). simpl in H. exact H.
Qed.

End Pattern.

End ScanFacts.

(** ** The directive pattern on documents *)

Module DirectiveFacts.
Import Py TextFacts PatternFacts ScanFacts Doc.

Lemma LIT_cons : LIT = "\" :: txt "includegraphics".
Proof. reflexivity. Qed.

Lemma TT_cons : TT = "\" :: txt "pdftooltip{".
Proof. reflexivity. Qed.

Lemma LIT_tail_plain : ~ In "\" (txt "includegraphics").
Proof. now apply lacks_spec. Qed.

Lemma TT_tail_plain : ~ In "\" (txt "pdftooltip{").
Proof. now apply lacks_spec. Qed.

Lemma TT_no_close : ~ In "}" TT.
Proof. now apply lacks_spec. Qed.

Lemma LIT_not_in_TT : ~ occ LIT TT.
Proof. now apply contains_false. Qed.

Lemma TT_not_in_LIT : ~ occ TT LIT.
Proof. now apply contains_false. Qed.

Lemma INCL_progressive : progressive INCL_RE.
Proof.
  intros s g w rest. unfold INCL_RE.
  destruct (command _ s) as [[[[o f] w'] r]|] eqn:E; [|discriminate].
  intros H; injection H as <- <- <-.
  apply command_spec in E as (-> & -> & _). split; [reflexivity|].
  discriminate.
Qed.

Lemma tooltip_progressive : progressive tooltip_pat.
Proof.
  intros s g w rest. unfold tooltip_pat.
  destruct (strip_prefix _ s) as [s1|] eqn:E1; [|discriminate].
  apply strip_prefix_spec in E1 as ->.
  destruct (command _ s1) as [[[[o f] w'] r]|] eqn:E; [|discriminate].
  apply command_spec in E as (-> & _ & _).
  destruct r as [|c r]; [discriminate|].
  destruct (ascii_dec c "}") as [->|Hc].
  - destruct (braced r) as [[a rest']|] eqn:Eb; [|discriminate].
    apply braced_spec in Eb as (-> & _ & _).
    intros H; injection H as <- <- <-. split; [|discriminate].
    unfold txt; simpl. now flat.
  - destruct c as [[] [] [] [] [] [] [] []]; try discriminate; congruence.
Qed.

Lemma or_empty_opts (d : directive) : or_empty (opts_group d) = opts_text d.
Proof. unfold opts_group, opts_text. now destruct (d_opts d). Qed.

Lemma wf_dir_spec (d : directive) :
  wf_dir d = true ->
  (forall o, d_opts d = Some o -> ~ In "]" o /\ ~ occ TT o)
  /\ d_fname d <> [] /\ ~ In "}" (d_fname d) /\ ~ In "\" (d_fname d).
Proof.
  unfold wf_dir. rewrite !andb_true_iff, !lacks_spec.
  intros [[[Ho Hf] Hc] Hb]. repeat split; auto.
  - destruct (d_opts d); [|discriminate].
    injection H as <-. apply andb_true_iff in Ho as [Ho _].
    now apply lacks_spec.
  - destruct (d_opts d); [|discriminate].
    injection H as <-. apply andb_true_iff in Ho as [_ Ho].
    apply negb_true_iff in Ho. now apply contains_false.
  - destruct (d_fname d); [discriminate|discriminate].
Qed.

Lemma command_dir (d : directive) (rest : text) :
  wf_dir d = true ->
  command LIT (directive_text d ++ rest)
  = Some (opts_group d, d_fname d, directive_text d, rest).
Proof.
  intros Hd. apply wf_dir_spec in Hd as (Ho & Hf & Hc & _).
  unfold command, directive_text. rewrite <- app_assoc, strip_prefix_app.
  unfold with_optional, opts_text, opts_group.
  destruct (d_opts d) as [o|] eqn:Eo.
  - destruct (Ho o eq_refl) as [Hb _].
    flat. rewrite bracketed_app by assumption.
    rewrite braced_app by assumption. cbn [or_empty]. now flat.
  - flat. rewrite bracketed_head by (intros r; discriminate).
    rewrite braced_app by assumption. reflexivity.
Qed.

Lemma INCL_dir (d : directive) (rest : text) :
  wf_dir d = true ->
  INCL_RE (directive_text d ++ rest)
  = Some ([opts_group d; Some (d_fname d)], directive_text d, rest).
Proof.
  intros Hd. unfold INCL_RE. fold LIT. now rewrite command_dir.
Qed.

Lemma wf_text_cons (c : ascii) (t : text) :
  wf_text (c :: t)
  = match strip_prefix LIT (c :: t) with
    | Some b => inert b
    | None => true
    end && wf_text t.
Proof. reflexivity. Qed.

Lemma wf_text_spec (t : text) :
  wf_text t = true <-> forall a b, t = a ++ LIT ++ b -> inert b = true.
Proof.
  induction t as [|c t IH].
  - split; [|reflexivity]. intros _ a b E.
    destruct a; rewrite ?LIT_cons in E; discriminate.
  - rewrite wf_text_cons, andb_true_iff, IH. split.
    + intros [H1 H2] a b E. destruct a as [|x a].
      * change ([] ++ LIT ++ b) with (LIT ++ b) in E.
        rewrite E, strip_prefix_app in H1. exact H1.
      * injection E as _ E. now apply (H2 a).
    + intros H. split.
      * destruct (strip_prefix LIT (c :: t)) as [b|] eqn:E; [|reflexivity].
        apply strip_prefix_spec in E. now apply (H []).
      * intros a b E. apply (H (c :: a)). now rewrite E.
Qed.

Lemma wf_text_tail (c : ascii) (t : text) :
  wf_text (c :: t) = true -> wf_text t = true.
Proof. rewrite wf_text_cons, andb_true_iff. tauto. Qed.

Lemma inert_seam (rest : text) : seam rest -> inert rest = true.
Proof. now intros [->|[r ->]]. Qed.

Lemma inert_app (b rest : text) :
  inert b = true -> inert rest = true -> inert (b ++ rest) = true.
Proof. now destruct b. Qed.

(** The keyword with nothing that opens an argument after it starts no
    directive. *)
Lemma command_inert (name r : text) :
  inert r = true -> command name (name ++ r) = None.
Proof.
  intros Hi. unfold command. rewrite strip_prefix_app. unfold with_optional.
  assert (Hb : bracketed r = None).
  { apply bracketed_head. intros r' ->. discriminate. }
  assert (Hc : braced r = None).
  { destruct (braced r) as [[f r']|] eqn:E; [|reflexivity].
    apply braced_spec in E as (-> & _). discriminate. }
  now rewrite Hb, Hc.
Qed.

(** In a text between directives, what follows a keyword stays inert
    when a text that starts with a backslash is appended. *)
Lemma keyword_in_text (c : ascii) (t rest r : text) :
  wf_text (c :: t) = true -> seam rest ->
  (c :: t) ++ rest = LIT ++ r -> inert r = true.
Proof.
  intros Hw Hs E. rewrite wf_text_spec in Hw.
  change (LIT ++ r) with ([] ++ LIT ++ r) in E.
  apply occ_app_at in E as [[b' [E ->]]|[[a' [_ E]]|H]].
  - apply inert_app; [now apply (Hw [])|now apply inert_seam].
  - discriminate.
  - exfalso. destruct H as [l1 [l2 H]].
    apply (no_straddle_head "\" (txt "includegraphics") (c :: t) rest
                            LIT_tail_plain Hs).
    rewrite <- LIT_cons. now exists l1, l2, [], r.
Qed.

Lemma INCL_text (c : ascii) (t rest : text) :
  wf_text (c :: t) = true -> seam rest -> INCL_RE ((c :: t) ++ rest) = None.
Proof.
  intros Hw Hs. unfold INCL_RE. fold LIT.
  destruct (startswith LIT ((c :: t) ++ rest)) eqn:E;
    [|now rewrite command_starts].
  apply startswith_spec in E as [r E]. rewrite E.
  rewrite command_inert; [reflexivity|].
  now apply (keyword_in_text c t rest).
Qed.

Lemma seam_dir (d : directive) (rest : text) : seam (directive_text d ++ rest).
Proof. right. unfold directive_text. rewrite LIT_cons. simpl. eauto. Qed.

Lemma seam_render_dir t0 d t ds :
  render t0 ((d, t) :: ds) = t0 ++ directive_text d ++ render t ds.
Proof. reflexivity. Qed.

Lemma events_text (pos : nat) (t rest : text) :
  wf_text t = true -> seam rest ->
  events INCL_RE pos (t ++ rest)
  = map Lit t ++ events INCL_RE (pos + length t) rest.
Proof.
  revert pos; induction t as [|c t IH]; intros pos Hw Hs.
  - simpl. now rewrite Nat.add_0_r.
  - rewrite <- app_comm_cons.
    rewrite (events_skip INCL_RE)
      by (rewrite app_comm_cons; now apply INCL_text).
    rewrite IH by (eauto using wf_text_tail). simpl.
    do 3 f_equal. lia.
Qed.

Lemma events_dir (pos : nat) (d : directive) (rest : text) :
  wf_dir d = true ->
  events INCL_RE pos (directive_text d ++ rest)
  = Hit (MkMatch pos (pos + length (directive_text d))
                 (directive_text d) [opts_group d; Some (d_fname d)])
        :: events INCL_RE (pos + length (directive_text d)) rest.
Proof.
  intros Hd. now rewrite (events_hit INCL_RE INCL_progressive _ _ _ _ _
                                     (INCL_dir d rest Hd)).
Qed.

Lemma wf_doc_cons t0 d t ds :
  wf_doc t0 ((d, t) :: ds) = true <->
  wf_text t0 = true /\ wf_dir d = true /\ wf_doc t ds = true.
Proof.
  unfold wf_doc. simpl. rewrite !andb_true_iff. tauto.
Qed.

Lemma wf_doc_nil t0 : wf_doc t0 [] = true <-> wf_text t0 = true.
Proof. unfold wf_doc. simpl. rewrite andb_true_iff. tauto. Qed.

Lemma events_doc (pre t0 : text) (ds : list (directive * text)) :
  wf_doc t0 ds = true ->
  events INCL_RE (length pre) (render t0 ds) = doc_events pre t0 ds.
Proof.
  revert pre t0; induction ds as [|[d t] ds IH]; intros pre t0 Hw.
  - apply wf_doc_nil in Hw. simpl.
    rewrite <- (app_nil_r t0) at 1.
    rewrite events_text by (auto; now left).
    now rewrite (events_nil INCL_RE INCL_progressive).
  - apply wf_doc_cons in Hw as (H0 & Hd & Hw).
    cbn [render doc_events].
    rewrite events_text by (auto using seam_dir).
    rewrite events_dir by assumption.
    rewrite <- IH by assumption. rewrite !length_app.
    do 3 f_equal. lia.
Qed.

End DirectiveFacts.

(** ** The wrapping pass on documents *)

Module WrapFacts.
Import Py TextFacts PatternFacts ScanFacts DirectiveFacts Doc.

Lemma emit_lits repl (t : text) es :
  emit repl (map Lit t ++ es) = t ++ emit repl es.
Proof. induction t as [|c t IH]; simpl; [reflexivity|]. now rewrite <- IH. Qed.

Lemma wrapper_eq (opts fname alt : text) :
  wrapper opts fname alt
  = TT ++ (LIT ++ opts ++ "{" :: fname ++ ["}"]) ++ txt "}{" ++ alt ++ txt "}".
Proof.
  unfold wrapper.
  change (txt "\pdftooltip{\includegraphics") with (TT ++ LIT).
  change (txt "{") with ["{"]. change (txt "}}{") with ("}" :: txt "}{").
  now flat.
Qed.

Lemma hits_lits (t : text) es : hits (map Lit t ++ es) = hits es.
Proof. induction t as [|c t IH]; simpl; auto. Qed.



Section Engine.
Variable inside : text -> bool.
Variable alt_of : text -> text.
Variable wrapped : text -> nat -> bool.

Hypothesis wrapped_inside :
  forall pre s, s <> [] -> wrapped (pre ++ s) (length pre) = inside pre.

Lemma wrap_dir_eq (d : directive) :
  wrap_dir alt_of d
  = TT ++ directive_text d ++ txt "}{" ++ alt_of (d_fname d) ++ txt "}".
Proof. unfold wrap_dir. now rewrite wrapper_eq. Qed.

Lemma emit_doc_events pre t0 ds :
  emit (piece_of alt_of wrapped (pre ++ render t0 ds))
       (doc_events pre t0 ds)
  = wrap_doc inside alt_of pre t0 ds.
Proof.
  revert pre t0; induction ds as [|[d t] ds IH]; intros pre t0;
    cbn [doc_events render wrap_doc]; rewrite emit_lits.
  - simpl. now rewrite app_nil_r.
  - rewrite emit_hit. f_equal. f_equal.
    + unfold piece_of, piece. cbn [m_start m_group0].
      rewrite app_assoc, wrapped_inside.
      * unfold group_text, group. cbn.
        now rewrite or_empty_opts.
      * unfold directive_text. rewrite LIT_cons. discriminate.
    + rewrite <- IH. f_equal. f_equal. now flat.
Qed.

Lemma pass_doc pre t0 ds :
  wf_doc t0 ds = true ->
  pass alt_of wrapped pre (render t0 ds) = wrap_doc inside alt_of pre t0 ds.
Proof.
  intros Hw. unfold pass. rewrite events_doc by assumption.
  apply emit_doc_events.
Qed.

Lemma render_rewrap pre lead t0 ds :
  render (fst (rewrap inside alt_of pre lead t0 ds))
         (snd (rewrap inside alt_of pre lead t0 ds))
  = lead ++ wrap_doc inside alt_of pre t0 ds.
Proof.
  revert pre lead t0; induction ds as [|[d t] ds IH]; intros pre lead t0;
    cbn [rewrap wrap_doc]; [reflexivity|].
  unfold piece. destruct (inside (pre ++ t0)); cbn [fst snd render];
    rewrite IH.
  - now flat.
  - rewrite wrap_dir_eq. now flat.
Qed.


Hypothesis alt_plain : forall f, ~ In "\" f -> ~ In "\" (alt_of f).

Lemma wf_text_lead (lead t : text) :
  ~ In "\" lead -> wf_text t = true -> wf_text (lead ++ t) = true.
Proof.
  rewrite !wf_text_spec. intros Hl Ht a b E.
  apply occ_app_at in E as [[b' [E _]]|[[a' [E _]]|H]].
  - exfalso. apply Hl. rewrite E, LIT_cons.
    apply in_or_app; right. now left.
  - now apply (Ht a').
  - exfalso. destruct H as [l1 [l2 (H1 & H2 & Hp & Hx & Hy)]].
    apply (no_straddle_lacks "\" (txt "includegraphics") lead t Hl).
    rewrite <- LIT_cons. now exists l1, l2, a, b.
Qed.

Lemma wf_text_open (t : text) :
  wf_text t = true -> wf_text (t ++ TT) = true.
Proof.
  rewrite !wf_text_spec. intros Ht a b E.
  apply occ_app_at in E as [[b' [E ->]]|[[a' [E _]]|H]].
  - apply inert_app; [now apply (Ht a)|reflexivity].
  - exfalso. apply LIT_not_in_TT. now exists a', b.
  - exfalso. destruct H as [l1 [l2 (H1 & H2 & Hp & Hx & Hy)]].
    apply (no_straddle_head "\" (txt "includegraphics") t TT
                            LIT_tail_plain).
    + right. rewrite TT_cons. eauto.
    + rewrite <- LIT_cons. now exists l1, l2, a, b.
Qed.

Lemma wf_rewrap pre lead t0 ds :
  wf_doc t0 ds = true -> ~ In "\" lead ->
  wf_doc (fst (rewrap inside alt_of pre lead t0 ds))
         (snd (rewrap inside alt_of pre lead t0 ds)) = true.
Proof.
  revert pre lead t0; induction ds as [|[d t] ds IH]; intros pre lead t0 Hw Hl;
    cbn [rewrap].
  - apply wf_doc_nil in Hw. apply wf_doc_nil. cbn [fst].
    now apply wf_text_lead.
  - apply wf_doc_cons in Hw as (H0 & Hd & Hw).
    destruct (inside (pre ++ t0)); cbn [fst snd]; apply wf_doc_cons;
      (split; [|split; [assumption|]]).
    + now apply wf_text_lead.
    + apply IH; [assumption|]. intros [].
    + rewrite app_assoc. apply wf_text_open. now apply wf_text_lead.
    + apply IH; [assumption|].
      apply wf_dir_spec in Hd as (_ & _ & _ & Hb).
      intros Hi. apply in_app_or in Hi as [Hi|Hi].
      * revert Hi. now apply lacks_spec.
      * apply in_app_or in Hi as [Hi|Hi].
        -- now apply alt_plain in Hi.
        -- revert Hi. now apply lacks_spec.
Qed.

Hypothesis inside_open : forall x, inside (x ++ TT) = true.

Hypothesis inside_rewrap :
  forall p p' d u,
    wf_dir d = true -> inside p = false ->
    inside (p ++ directive_text d ++ u) = true ->
    inside (p' ++ wrap_dir alt_of d ++ u) = true.

(** A second pass leaves the output of the first as it is. *)
Lemma rewrap_fixed pre out lead t0 ds :
  wf_doc t0 ds = true ->
  (forall u, inside (pre ++ u) = true -> inside (out ++ lead ++ u) = true) ->
  wrap_doc inside alt_of out
           (fst (rewrap inside alt_of pre lead t0 ds))
           (snd (rewrap inside alt_of pre lead t0 ds))
  = render (fst (rewrap inside alt_of pre lead t0 ds))
           (snd (rewrap inside alt_of pre lead t0 ds)).
Proof.
  revert pre out lead t0; induction ds as [|[d t] ds IH];
    intros pre out lead t0 Hw Hrel; cbn [rewrap]; [reflexivity|].
  apply wf_doc_cons in Hw as (H0 & Hd & Hw).
  destruct (inside (pre ++ t0)) eqn:Ei; cbn [fst snd wrap_doc render].
  - unfold piece. rewrite (Hrel t0 Ei).
    f_equal. f_equal. apply IH; [assumption|].
    intros u Hu. cbn [app].
    replace ((out ++ (lead ++ t0) ++ directive_text d) ++ u)
      with (out ++ lead ++ t0 ++ directive_text d ++ u) by now flat.
    apply Hrel. rewrite <- Hu. f_equal. now flat.
  - unfold piece.
    replace (out ++ lead ++ t0 ++ TT) with ((out ++ lead ++ t0) ++ TT)
      by now flat.
    rewrite inside_open. f_equal. f_equal. apply IH; [assumption|].
    intros u Hu.
    replace ((out ++ (lead ++ t0 ++ TT) ++ directive_text d)
               ++ (txt "}{" ++ alt_of (d_fname d) ++ txt "}") ++ u)
      with ((out ++ lead ++ t0) ++ wrap_dir alt_of d ++ u)
      by (rewrite wrap_dir_eq; now flat).
    apply (inside_rewrap (pre ++ t0)); auto.
    rewrite <- Hu. now flat.
Qed.

Lemma pass_is_rewrap t0 ds :
  wf_doc t0 ds = true ->
  pass alt_of wrapped [] (render t0 ds)
  = render (fst (rewrap inside alt_of [] [] t0 ds))
           (snd (rewrap inside alt_of [] [] t0 ds)).
Proof.
  intros Hw. rewrite pass_doc by assumption. now rewrite render_rewrap.
Qed.

Lemma pass_idempotent t0 ds :
  wf_doc t0 ds = true ->
  pass alt_of wrapped [] (pass alt_of wrapped [] (render t0 ds))
  = pass alt_of wrapped [] (render t0 ds).
Proof.
  intros Hw. rewrite pass_is_rewrap by assumption.
  rewrite pass_doc by (apply wf_rewrap; auto).
  apply (rewrap_fixed []); auto.
Qed.


End Engine.

End WrapFacts.

(** ** The wrapped test of the two programs *)

Module InsideFacts.
Import Py TextFacts PatternFacts ScanFacts DirectiveFacts WrapFacts Doc.

Lemma after_last_none (p s : text) :
  p <> [] -> (after_last p s = None <-> ~ occ p s).
Proof.
  intros Hp. induction s as [|c s IH]; simpl.
  - split; [|reflexivity]. intros _ [a [b E]].
    destruct a; destruct p; simpl in E; congruence.
  - destruct (after_last p s) as [u|] eqn:E.
    + split; [discriminate|]. intros Hn. exfalso.
      destruct IH as [_ IH].
      assert (Ho : occ p s).
      { destruct (contains p s) eqn:Ec; [now apply contains_spec|].
        apply contains_false in Ec. apply IH in Ec. discriminate. }
      apply Hn. now apply (occ_app_r p [c] s).
    + destruct IH as [IH _]. specialize (IH eq_refl).
      rewrite strip_prefix_none. split.
      * intros Hn [[|x a] [b Eo]].
        -- now apply (Hn b).
        -- injection Eo as _ Eo. apply IH. now exists a, b.
      * intros Hn r Er. apply Hn. now exists [], r.
Qed.

Lemma after_last_app_r (p x y v : text) :
  after_last p y = Some v -> after_last p (x ++ y) = Some v.
Proof.
  intros H. induction x as [|c x IH]; simpl; [assumption|]. now rewrite IH.
Qed.

Lemma straddles_tail (p : text) (c : ascii) (x y : text) :
  straddles p x y -> straddles p (c :: x) y.
Proof.
  intros [l1 [l2 [a [b (H1 & H2 & Hp & Hx & Hy)]]]].
  exists l1, l2, (c :: a), b. repeat split; auto. now rewrite Hx.
Qed.

Lemma after_last_app_l (p x y : text) :
  p <> [] -> ~ occ p y -> ~ straddles p x y ->
  after_last p (x ++ y) = option_map (fun v => v ++ y) (after_last p x).
Proof.
  intros Hp Hy. induction x as [|c x IH]; intros Hs.
  - simpl. now apply after_last_none.
  - cbn [app after_last]. rewrite IH by (intros H; now apply Hs, straddles_tail).
    destruct (after_last p x) as [v|]; [reflexivity|]. cbn [option_map].
    destruct (strip_prefix p (c :: x)) as [r|] eqn:E.
    + apply strip_prefix_spec in E. rewrite app_comm_cons, E.
      rewrite <- app_assoc. now rewrite strip_prefix_app.
    + cbn [option_map]. apply strip_prefix_none. intros r Er.
      change (p ++ r) with ([] ++ p ++ r) in Er.
      rewrite app_comm_cons in Er.
      apply occ_app_at in Er as [[b' [Er _]]|[[a' [_ Er]]|H]].
      * simpl in Er. apply strip_prefix_spec in Er. congruence.
      * discriminate.
      * apply Hs. destruct H as [l1 [l2 H]]. now exists l1, l2, [], r.
Qed.

Lemma rfind_after_last (p s : text) :
  p <> [] ->
  match rfind p s with
  | Some i => exists u, after_last p s = Some u /\ skipn i s = p ++ u
                        /\ i <= length s
  | None => after_last p s = None
  end.
Proof.
  intros Hp. induction s as [|c s IH]; simpl.
  - destruct p; [congruence|reflexivity].
  - destruct (rfind p s) as [i|].
    + destruct IH as [u (-> & Hs & Hi)]. exists u. repeat split; auto. lia.
    + rewrite IH. rewrite startswith_strip.
      change (match p with
              | [] => Some (c :: s)
              | a :: p' => if Ascii.eqb a c then strip_prefix p' s else None
              end) with (strip_prefix p (c :: s)).
      destruct (strip_prefix p (c :: s)) as [r|] eqn:E; simpl; [|reflexivity].
      exists r. apply strip_prefix_spec in E. repeat split; auto. lia.
Qed.

(** *** Brace counting *)

Lemma fold_brace_step (t : text) (d : Z) :
  fold_left Tex.brace_step t d = (d + net t)%Z.
Proof.
  unfold net. revert d. induction t as [|c t IH]; intros d; simpl.
  - lia.
  - rewrite IH, (IH (Tex.brace_step 0 c)). unfold Tex.brace_step.
    destruct (Ascii.eqb c "{"); [lia|]. destruct (Ascii.eqb c "}"); lia.
Qed.

Lemma net_app (a b : text) : net (a ++ b) = (net a + net b)%Z.
Proof.
  unfold net at 1. rewrite fold_left_app, fold_brace_step.
  fold (net a). lia.
Qed.

Lemma net_cons (c : ascii) (t : text) :
  net (c :: t) = (Tex.brace_step 0 c + net t)%Z.
Proof. change (c :: t) with ([c] ++ t). now rewrite net_app. Qed.

Lemma net_nonneg (t : text) : ~ In "}" t -> (0 <= net t)%Z.
Proof.
  induction t as [|c t IH]; intros Hn; [unfold net; simpl; lia|].
  rewrite net_cons. simpl in Hn.
  assert (0 <= net t)%Z by (apply IH; tauto).
  unfold Tex.brace_step. destruct (Ascii.eqb c "{"); [lia|].
  destruct (Ascii.eqb c "}") eqn:E; [|lia].
  apply Ascii.eqb_eq in E. subst. tauto.
Qed.

Lemma stays_open_app (d : Z) (a b : text) :
  stays_open d (a ++ b) = true -> stays_open d a = true.
Proof.
  revert d; induction a as [|c a IH]; intros d; simpl.
  - destruct b; simpl; rewrite ?andb_true_iff; tauto.
  - rewrite !andb_true_iff. intros [H1 H2]. split; auto.
Qed.

(** *** Occurrences of the wrapper's opening in a directive *)

Lemma no_straddle_TT_LIT (y : text) : ~ straddles TT LIT y.
Proof.
  intros [l1 [l2 [a [b (H1 & H2 & Hp & Hx & Hy)]]]].
  destruct l1 as [|c1 l1]; [congruence|].
  rewrite TT_cons in Hp. injection Hp as <- Hp.
  destruct a as [|x a].
  - simpl in Hx. rewrite LIT_cons in Hx. injection Hx as Hx.
    rewrite <- Hx in Hp. discriminate.
  - rewrite LIT_cons in Hx. injection Hx as _ Hx.
    assert (Hin : In "\" (a ++ "\" :: l1))
      by (apply in_or_app; right; now left).
    rewrite <- Hx in Hin. now apply LIT_tail_plain.
Qed.

Lemma TT_not_in_opts (d : directive) :
  wf_dir d = true -> ~ occ TT (opts_text d).
Proof.
  intros Hd. apply wf_dir_spec in Hd as (Ho & _).
  unfold opts_text. destruct (d_opts d) as [o|].
  - destruct (Ho o eq_refl) as [Hb Hn].
    change ("[" :: o ++ ["]"]) with (["["] ++ o ++ ["]"]).
    intros H. apply occ_app in H as [H|[H|H]].
    + revert H. rewrite TT_cons. apply occ_lacks. now apply lacks_spec.
    + apply occ_app in H as [H|[H|H]]; [tauto| |].
      * revert H. rewrite TT_cons. apply occ_lacks. now apply lacks_spec.
      * revert H. apply (no_straddle_next "]"); [now apply lacks_spec|].
        right. eauto.
    + revert H. rewrite TT_cons. apply no_straddle_lacks.
      now apply lacks_spec.
  - rewrite TT_cons. apply occ_lacks. intros [].
Qed.

Lemma TT_not_in_directive (d : directive) :
  wf_dir d = true -> ~ occ TT (directive_text d).
Proof.
  intros Hd. pose proof (TT_not_in_opts d Hd) as Hopts.
  apply wf_dir_spec in Hd as (_ & _ & _ & Hb).
  unfold directive_text. intros H. apply occ_app in H as [H|[H|H]].
  - now apply TT_not_in_LIT.
  - apply occ_app in H as [H|[H|H]]; [tauto| |].
    + revert H. rewrite TT_cons. apply occ_lacks.
      intros [Hi|Hi]; [discriminate|].
      apply in_app_or in Hi as [Hi|[Hi|[]]]; [tauto|discriminate].
    + revert H. apply (no_straddle_last "]"); [now apply lacks_spec|].
      unfold opts_text. destruct (d_opts d) as [o|]; [|now left].
      right. exists ("[" :: o). reflexivity.
  - now apply no_straddle_TT_LIT in H.
Qed.

Lemma directive_ends (d : directive) :
  exists x, directive_text d = x ++ ["}"].
Proof.
  unfold directive_text.
  exists (LIT ++ opts_text d ++ "{" :: d_fname d). now flat.
Qed.

Lemma no_straddle_after_directive (p : text) (d : directive) (x y : text) :
  ~ In "}" p -> ~ straddles p (x ++ directive_text d) y.
Proof.
  intros Hp. apply (no_straddle_last "}"); [assumption|].
  right. destruct (directive_ends d) as [z ->]. exists (x ++ z). now flat.
Qed.

Lemma no_straddle_before_directive (d : directive) (x y : text) :
  ~ straddles TT x (directive_text d ++ y).
Proof.
  rewrite TT_cons. apply no_straddle_head; [exact TT_tail_plain|].
  right. unfold directive_text. rewrite LIT_cons. cbn [app]. eauto.
Qed.

(** The text from a directive on, when nothing after it opens a
    wrapper. *)
Lemma TT_not_from_directive (d : directive) (u : text) :
  wf_dir d = true -> ~ occ TT u -> ~ occ TT (directive_text d ++ u).
Proof.
  intros Hd Hu Ho. apply occ_app in Ho as [Ho|[Ho|Ho]]; auto.
  - now apply (TT_not_in_directive d).
  - revert Ho. apply (no_straddle_after_directive TT d []). exact TT_no_close.
Qed.

Lemma TT_not_from_closing (alt u : text) :
  ~ In "\" alt -> ~ occ TT u -> ~ occ TT (closing alt ++ u).
Proof.
  intros Ha Hu Ho. apply occ_app in Ho as [Ho|[Ho|Ho]]; auto.
  - revert Ho. rewrite TT_cons. apply occ_lacks. unfold closing.
    intros Hi. apply in_app_or in Hi as [Hi|Hi].
    + revert Hi. now apply lacks_spec.
    + apply in_app_or in Hi as [Hi|Hi]; [tauto|].
      revert Hi. now apply lacks_spec.
  - revert Ho. apply (no_straddle_last "}"); [exact TT_no_close|].
    right. exists (txt "}{" ++ alt). unfold closing. now flat.
Qed.

(** The text after the last wrapper opening, before and after a directive
    is wrapped. *)
Lemma after_last_kept (p u : text) (d : directive) :
  wf_dir d = true -> after_last TT u = None ->
  after_last TT (p ++ directive_text d ++ u)
  = option_map (fun v => v ++ directive_text d ++ u) (after_last TT p).
Proof.
  intros Hd Hu. apply after_last_none in Hu; [|discriminate].
  apply after_last_app_l; [discriminate| |].
  - now apply TT_not_from_directive.
  - apply no_straddle_before_directive.
Qed.

Lemma after_last_wrapped (p u alt : text) (d : directive) :
  wf_dir d = true -> ~ In "\" alt -> after_last TT u = None ->
  after_last TT (p ++ TT ++ directive_text d ++ closing alt ++ u)
  = Some (directive_text d ++ closing alt ++ u).
Proof.
  intros Hd Ha Hu. apply after_last_none in Hu; [|discriminate].
  apply after_last_app_r.
  rewrite after_last_app_l; [reflexivity|discriminate| |].
  - apply TT_not_from_directive; [assumption|].
    now apply TT_not_from_closing.
  - apply no_straddle_before_directive.
Qed.

Lemma net_closing (alt : text) : net (closing alt) = (net alt - 1)%Z.
Proof.
  unfold closing. rewrite !net_app.
  change (net (txt "}{")) with 0%Z. change (net (txt "}")) with (-1)%Z. lia.
Qed.

Lemma tex_inside_open (x : text) : tex_inside (x ++ TT) = true.
Proof.
  unfold tex_inside. now rewrite (after_last_app_r TT x TT []).
Qed.

Lemma shn_inside_open (x : text) : shn_inside (x ++ TT) = true.
Proof.
  unfold shn_inside. now rewrite (after_last_app_r TT x TT []).
Qed.

Lemma tex_inside_rewrap (alt_of : text -> text) (p p' : text)
      (d : directive) (u : text) :
  wf_dir d = true ->
  ~ In "\" (alt_of (d_fname d)) -> ~ In "}" (alt_of (d_fname d)) ->
  tex_inside p = false ->
  tex_inside (p ++ directive_text d ++ u) = true ->
  tex_inside (p' ++ wrap_dir alt_of d ++ u) = true.
Proof.
  intros Hd Hb Hc Hp Hu. rewrite wrap_dir_eq. fold (closing (alt_of (d_fname d))).
  replace (p' ++ (TT ++ directive_text d ++ closing (alt_of (d_fname d))) ++ u)
    with (p' ++ TT ++ directive_text d ++ closing (alt_of (d_fname d)) ++ u)
    by now flat.
  unfold tex_inside in *.
  destruct (after_last TT u) as [v|] eqn:Ev.
  - rewrite (after_last_app_r TT _ _ v) in Hu
      by now apply after_last_app_r.
    rewrite (after_last_app_r TT _ _ v); [assumption|].
    do 3 apply after_last_app_r. assumption.
  - rewrite after_last_kept in Hu by assumption.
    rewrite after_last_wrapped by assumption.
    destruct (after_last TT p) as [w|]; [|discriminate].
    cbn [option_map] in Hu. rewrite !net_app in *. rewrite net_closing.
    apply net_nonneg in Hc. apply Z.ltb_lt in Hu. apply Z.ltb_ge in Hp.
    apply Z.ltb_lt. lia.
Qed.

Lemma shn_inside_rewrap (alt_of : text -> text) (p p' : text)
      (d : directive) (u : text) :
  wf_dir d = true ->
  ~ In "\" (alt_of (d_fname d)) ->
  shn_inside p = false ->
  shn_inside (p ++ directive_text d ++ u) = true ->
  shn_inside (p' ++ wrap_dir alt_of d ++ u) = true.
Proof.
  intros Hd Hb Hp Hu. rewrite wrap_dir_eq. fold (closing (alt_of (d_fname d))).
  replace (p' ++ (TT ++ directive_text d ++ closing (alt_of (d_fname d))) ++ u)
    with (p' ++ TT ++ directive_text d ++ closing (alt_of (d_fname d)) ++ u)
    by now flat.
  unfold shn_inside in *.
  destruct (after_last TT u) as [v|] eqn:Ev.
  - rewrite (after_last_app_r TT _ _ v) in Hu
      by now apply after_last_app_r.
    rewrite (after_last_app_r TT _ _ v); [assumption|].
    do 3 apply after_last_app_r. assumption.
  - rewrite after_last_kept in Hu by assumption.
    destruct (after_last TT p) as [w|]; [|discriminate].
    cbn [option_map] in Hu. apply stays_open_app in Hu. congruence.
Qed.

End InsideFacts.

(** ** The alternative text holds no backslash or brace of its own *)

Module AltFacts.
Import Py TextFacts Doc.

Lemma in_lstrip c s : In c (lstrip s) -> In c s.
Proof.
  induction s as [|x s IH]; simpl; [tauto|].
  destruct (isspace x); simpl; auto.
Qed.

Lemma in_strip c s : In c (strip s) -> In c s.
Proof.
  unfold strip, rstrip. intros H. apply in_rev in H.
  apply in_lstrip in H. apply in_rev in H. now apply in_lstrip.
Qed.

Lemma in_firstn c n (s : text) : In c (firstn n s) -> In c s.
Proof.
  intros H. rewrite <- (firstn_skipn n s). apply in_or_app. now left.
Qed.

Lemma in_split c d s t : In t (split d s) -> In c t -> In c s.
Proof.
  revert t; induction s as [|x s IH]; intros t; simpl.
  - intros [<-|[]] [].
  - destruct (Ascii.eqb x d).
    + intros [<-|H]; [intros []|]. right. eauto.
    + destruct (split d s) as [|h l] eqn:E.
      * intros [<-|[]] [<-|[]]. now left.
      * intros [<-|H] Hc.
        -- destruct Hc as [<-|Hc]; [now left|]. right.
           apply (IH h); [now left|assumption].
        -- right. apply (IH t); [now right|assumption].
Qed.

Lemma in_last (c : ascii) (l : list text) :
  In c (last l []) -> exists t, In t l /\ In c t.
Proof.
  induction l as [|t l IH]; [intros []|].
  destruct l as [|t' l].
  - simpl. intros H. exists t. auto.
  - intros H. change (last (t :: t' :: l) []) with (last (t' :: l) []) in H.
    destruct (IH H) as [t'' [H1 H2]]. exists t''. split; [now right|assumption].
Qed.

Lemma in_path_name c s : In c (path_name s) -> In c s.
Proof.
  unfold path_name, path_parts. intros H.
  apply in_last in H as [t [Ht Hc]]. apply filter_In in Ht as [Ht _].
  eauto using in_split.
Qed.

Lemma in_path_stem c s : In c (path_stem s) -> In c s.
Proof.
  unfold path_stem. intros H. apply in_path_name.
  destruct (rfind ["."] (path_name s)) as [i|]; [|assumption].
  destruct ((0 <? i) && (i <? length (path_name s) - 1))%nat;
    eauto using in_firstn.
Qed.

Lemma lower_char_special z c : special z -> lower_char c = z -> c = z.
Proof.
  intros [->| ->];
    destruct c as [[] [] [] [] [] [] [] []]; vm_compute; congruence.
Qed.

Lemma in_lower z s : special z -> In z (lower s) -> In z s.
Proof.
  intros Hz H. apply in_map_iff in H as [c [Hc Hi]].
  apply (lower_char_special z c Hz) in Hc. now subst.
Qed.

Lemma in_dashes z s : special z -> In z (Tex.dashes_to_spaces s) -> In z s.
Proof.
  intros Hz H. apply in_map_iff in H as [c [Hc Hi]].
  destruct (Ascii.eqb c "-" || Ascii.eqb c "_").
  - destruct Hz; subst; discriminate.
  - now subst.
Qed.

Lemma in_flush c run : In c (Tex.flush_run run) -> In c run.
Proof. unfold Tex.flush_run. destruct (4 <=? length run)%nat; simpl; tauto. Qed.

Lemma in_drop_long c run s :
  In c (Tex.drop_long_numbers run s) -> In c run \/ In c s.
Proof.
  revert run; induction s as [|x s IH]; intros run; simpl.
  - intros H. left. now apply in_flush.
  - destruct (is_digit x).
    + intros H. apply IH in H as [H|H]; [|auto].
      apply in_app_or in H as [H|[<-|[]]]; auto.
    + intros H. apply in_app_or in H as [H|[<-|H]].
      * left. now apply in_flush.
      * auto.
      * apply IH in H as [[]|H]. auto.
Qed.

Lemma dict_get_in (d : dict) (k v : text) :
  dict_get d k = Some v -> In v (map snd d).
Proof.
  induction d as [|[k' v'] d IH]; simpl; [discriminate|].
  destruct (text_eqb k k').
  - intros H; injection H as <-. now left.
  - intros H. right. auto.
Qed.

Lemma special_cases z (P : ascii -> Prop) :
  special z -> P "\" -> P "}" -> P z.
Proof. intros [->| ->]; auto. Qed.

Lemma tex_known_plain z v :
  special z -> In v (map snd Tex.known) -> ~ In z v.
Proof.
  intros Hz Hv. apply lacks_spec. revert Hv. pattern z.
  apply (special_cases z); [assumption| |];
    simpl; intros Hv;
    repeat (destruct Hv as [<-|Hv]; [reflexivity|]); destruct Hv.
Qed.

Lemma tex_guess_keeps z f :
  special z -> In z (Tex.guess_alt f) -> In z f.
Proof.
  intros Hz. unfold Tex.guess_alt.
  destruct (dict_get Tex.known (lower (path_stem f))) as [v|] eqn:E.
  - intros H. apply dict_get_in in E. now apply (tex_known_plain z v Hz) in E.
  - destruct (strip _) as [|c r] eqn:Er.
    + intros H. apply in_app_or in H as [H|H].
      * exfalso. revert H. apply lacks_spec. pattern z.
        now apply (special_cases z).
      * apply in_app_or in H as [H|H]; [now apply in_path_name|].
        exfalso. revert H. apply lacks_spec. pattern z.
        now apply (special_cases z).
    + intros H. apply in_app_or in H as [H|H].
      * exfalso. revert H. apply lacks_spec. pattern z.
        now apply (special_cases z).
      * rewrite <- Er in H. apply in_strip in H.
        apply in_drop_long in H as [[]|H].
        apply in_dashes in H; [|assumption].
        apply in_lower in H; [|assumption]. now apply in_path_stem.
Qed.

Lemma tex_alt_keeps z f : special z -> In z (tex_alt f) -> In z f.
Proof.
  intros Hz H. unfold tex_alt in H. apply in_app_or in H as [H|H].
  - exfalso. revert H. apply lacks_spec. pattern z.
    now apply (special_cases z).
  - apply in_app_or in H as [H|H]; [|now apply tex_guess_keeps].
    exfalso. revert H. apply lacks_spec. pattern z.
    now apply (special_cases z).
Qed.

Lemma shn_known_plain z v :
  special z -> In v (map snd Shn.known) -> ~ In z v.
Proof.
  intros Hz Hv. apply lacks_spec. revert Hv. pattern z.
  apply (special_cases z); [assumption| |];
    simpl; intros Hv;
    repeat (destruct Hv as [<-|Hv]; [reflexivity|]); destruct Hv.
Qed.

Lemma shn_folder_plain z v :
  special z -> In v (map snd Shn.folder_guesses) -> ~ In z v.
Proof.
  intros Hz Hv. apply lacks_spec. revert Hv. pattern z.
  apply (special_cases z); [assumption| |];
    simpl; intros Hv;
    repeat (destruct Hv as [<-|Hv]; [reflexivity|]); destruct Hv.
Qed.

Lemma shn_guess_keeps z f :
  special z -> In z (Shn.guess_alt f) -> In z f.
Proof.
  intros Hz. unfold Shn.guess_alt.
  destruct (dict_get Shn.known (lower (path_stem f))) as [v|] eqn:E.
  - intros H. apply dict_get_in in E. now apply (shn_known_plain z v Hz) in E.
  - assert (Htail : forall b, In z (b ++ txt " (" ++ path_name f ++ txt ")")
                              -> ~ In z b -> In z f).
    { intros b H Hb. apply in_app_or in H as [H|H]; [tauto|].
      apply in_app_or in H as [H|H].
      - exfalso. revert H. apply lacks_spec. pattern z.
        now apply (special_cases z).
      - apply in_app_or in H as [H|H]; [now apply in_path_name|].
        exfalso. revert H. apply lacks_spec. pattern z.
        now apply (special_cases z). }
    destruct (2 <=? _)%nat.
    + intros H. apply Htail in H; [assumption|].
      destruct (dict_get Shn.folder_guesses _) as [b|] eqn:Eb.
      * apply dict_get_in in Eb. now apply shn_folder_plain.
      * apply lacks_spec. pattern z. now apply (special_cases z).
    + intros H. change (txt "Figure (" ++ path_name f ++ txt ")")
        with (txt "Figure" ++ txt " (" ++ path_name f ++ txt ")") in H.
      apply Htail in H; [assumption|].
      apply lacks_spec. pattern z. now apply (special_cases z).
Qed.

Lemma shn_alt_keeps z f : special z -> In z (shn_alt f) -> In z f.
Proof.
  intros Hz H. unfold shn_alt in H. apply in_app_or in H as [H|H].
  - exfalso. revert H. apply lacks_spec. pattern z.
    now apply (special_cases z).
  - apply in_app_or in H as [H|H]; [|now apply shn_guess_keeps].
    exfalso. revert H. apply lacks_spec. pattern z.
    now apply (special_cases z).
Qed.

End AltFacts.

(** ** The two programs run the pass *)

Module ProgramFacts.
Import Py TextFacts PatternFacts ScanFacts DirectiveFacts WrapFacts
       InsideFacts AltFacts Doc.

Lemma firstn_prefix (pre s : text) : firstn (length pre) (pre ++ s) = pre.
Proof.
  rewrite firstn_app, Nat.sub_diag, firstn_all. simpl. apply app_nil_r.
Qed.

Lemma slice_prefix (pre s : text) (i : nat) :
  i <= length pre -> slice (pre ++ s) i (length pre) = skipn i pre.
Proof.
  intros Hi. unfold slice. rewrite skipn_app.
  replace (i - length pre) with 0 by lia. simpl.
  rewrite firstn_app, length_skipn, Nat.sub_diag. simpl.
  rewrite app_nil_r. apply firstn_all2. rewrite length_skipn. lia.
Qed.

Lemma tex_wrapped_inside (pre s : text) :
  Tex.is_already_wrapped (pre ++ s) (length pre) = tex_inside pre.
Proof.
  unfold Tex.is_already_wrapped, tex_inside. rewrite firstn_prefix.
  fold TT.
  assert (Hne : TT <> []) by discriminate.
  pose proof (rfind_after_last TT pre Hne) as H.
  destruct (rfind TT pre) as [i|].
  - destruct H as [u (-> & Hs & Hi)].
    rewrite slice_prefix, Hs, fold_brace_step, net_app by assumption.
    reflexivity.
  - now rewrite H.
Qed.

Lemma first_arg_end_ge (d : Z) (pos : nat) (s : text) :
  pos <= Shn.first_arg_end d pos s.
Proof.
  revert d pos; induction s as [|c s IH]; intros d pos; simpl; [lia|].
  destruct (0 <? d)%Z; [|lia].
  etransitivity; [|apply IH]. lia.
Qed.

Lemma first_arg_end_open (d : Z) (pos : nat) (u s : text) :
  s <> [] ->
  (pos + length u <? Shn.first_arg_end d pos (u ++ s))%nat = stays_open d u.
Proof.
  intros Hs. revert d pos; induction u as [|c u IH]; intros d pos.
  - destruct s as [|c s]; [congruence|]. simpl.
    rewrite andb_true_r. destruct (0 <? d)%Z.
    + apply Nat.ltb_lt. rewrite Nat.add_0_r.
      apply Nat.lt_le_trans with (S pos); [lia|apply first_arg_end_ge].
    + apply Nat.ltb_ge. lia.
  - cbn [app Shn.first_arg_end stays_open length].
    destruct (0 <? d)%Z; cbn [andb].
    + replace (pos + S (length u)) with (S pos + length u) by lia.
      apply IH.
    + apply Nat.ltb_ge. lia.
Qed.

Lemma shn_wrapped_inside (pre s : text) :
  s <> [] -> Shn.inside_tooltip (pre ++ s) (length pre) = shn_inside pre.
Proof.
  intros Hne. unfold Shn.inside_tooltip, shn_inside. rewrite firstn_prefix.
  fold TT.
  assert (Hne' : TT <> []) by discriminate.
  pose proof (rfind_after_last TT pre Hne') as H.
  destruct (rfind TT pre) as [i|].
  - destruct H as [u (-> & Hs & Hi)].
    assert (Ho : contains TT pre = true).
    { apply contains_spec. exists (firstn i pre), u.
      now rewrite <- Hs, firstn_skipn. }
    rewrite Ho.
    assert (Hpre : pre = firstn i pre ++ TT ++ u)
      by now rewrite <- Hs, firstn_skipn.
    assert (Hlen : length pre = i + length TT + length u).
    { rewrite Hpre at 1. rewrite !length_app, length_firstn. lia. }
    assert (Hskip : skipn (i + length TT) (pre ++ s) = u ++ s).
    { rewrite Hpre at 1.
      replace ((firstn i pre ++ TT ++ u) ++ s)
        with ((firstn i pre ++ TT) ++ u ++ s) by now flat.
      rewrite skipn_app.
      replace (i + length TT - length (firstn i pre ++ TT)) with 0
        by (rewrite length_app, length_firstn; lia).
      rewrite skipn_all2 by (rewrite length_app, length_firstn; lia).
      reflexivity. }
    rewrite Hskip, Hlen.
    rewrite first_arg_end_open by assumption.
    replace (i <? i + length TT + length u)%nat with true; [reflexivity|].
    symmetry. apply Nat.ltb_lt. change (length TT) with 12. lia.
  - rewrite H.
    assert (Hn : ~ occ TT pre)
      by (apply after_last_none; assumption).
    apply contains_false in Hn. now rewrite Hn.
Qed.

Lemma tex_wrap_is_pass (t : text) :
  Tex.wrap_images t = pass tex_alt Tex.is_already_wrapped [] t.
Proof.
  unfold pass. cbn [app length].
  rewrite <- (sub_call_events INCL_RE INCL_progressive).
  unfold Tex.wrap_images, sub_call, sub_loop.
  rewrite (fold_left_pointwise _
             (fun '(result, prev) m =>
                (result ++ slice t prev (m_start m)
                        ++ piece_of tex_alt Tex.is_already_wrapped t m,
                 m_end m))); [reflexivity|].
  intros [result prev] m. unfold piece_of, tex_alt.
  destruct (Tex.is_already_wrapped t (m_start m)); now flat.
Qed.

Lemma shn_wrap_is_pass (t : text) :
  Shn.wrap_images t = pass shn_alt Shn.inside_tooltip [] t.
Proof.
  unfold pass. cbn [app length].
  now rewrite <- (sub_call_events INCL_RE INCL_progressive).
Qed.

Lemma plain_fname (d : directive) (z : ascii) :
  wf_dir d = true -> special z -> ~ In z (d_fname d).
Proof.
  intros Hd Hz. apply wf_dir_spec in Hd as (_ & _ & Hc & Hb).
  destruct Hz as [->| ->]; assumption.
Qed.

Lemma tex_idempotent (t0 : text) (ds : list (directive * text)) :
  wf_doc t0 ds = true ->
  Tex.wrap_images (Tex.wrap_images (render t0 ds))
  = Tex.wrap_images (render t0 ds).
Proof.
  intros Hw. rewrite !tex_wrap_is_pass.
  apply (pass_idempotent tex_inside); auto.
  - intros pre s _. apply tex_wrapped_inside.
  - intros f Hf Hi. apply Hf. apply (tex_alt_keeps "\"); [now left|assumption].
  - apply tex_inside_open.
  - intros p p' d u Hd. apply tex_inside_rewrap; auto.
    + intros Hi. apply (plain_fname d "\" Hd); [now left|].
      apply (tex_alt_keeps "\"); [now left|assumption].
    + intros Hi. apply (plain_fname d "}" Hd); [now right|].
      apply (tex_alt_keeps "}"); [now right|assumption].
Qed.

Lemma shn_idempotent (t0 : text) (ds : list (directive * text)) :
  wf_doc t0 ds = true ->
  Shn.wrap_images (Shn.wrap_images (render t0 ds))
  = Shn.wrap_images (render t0 ds).
Proof.
  intros Hw. rewrite !shn_wrap_is_pass.
  apply (pass_idempotent shn_inside); auto.
  - apply shn_wrapped_inside.
  - intros f Hf Hi. apply Hf. apply (shn_alt_keeps "\"); [now left|assumption].
  - apply shn_inside_open.
  - intros p p' d u Hd. apply shn_inside_rewrap; auto.
    intros Hi. apply (plain_fname d "\" Hd); [now left|].
    apply (shn_alt_keeps "\"); [now left|assumption].
Qed.



End ProgramFacts.

(** ** The preamble step of [make_accessible_tex.py] *)

Module TexPreambleFacts.
Import Py.

Lemma packages_head :
  exists r, Tex.ACCESSIBILITY_PACKAGES = "\" :: "u" :: r.
Proof. eexists. reflexivity. Qed.

Lemma parse_bad_escape_u (n : nat) (r : text) :
  parse_template n ("\" :: "u" :: r) = Raised (re_error "bad escape \u" 0).
Proof. reflexivity. Qed.

Lemma parse_group_then_bad_escape_u (r : text) :
  parse_template 1 ("\" :: "1" :: "\" :: "n" :: "\" :: "u" :: r)
  = Raised (re_error "bad escape \u" 4).
Proof. reflexivity. Qed.

Lemma filter_bad_escape_u (n : nat) (r : text) :
  template_filter n ("\" :: "u" :: r) = Raised (re_error "bad escape \u" 0).
Proof. reflexivity. Qed.

Lemma filter_group_then_bad_escape_u (r : text) :
  template_filter 1 ("\" :: "1" :: "\" :: "n" :: "\" :: "u" :: r)
  = Raised (re_error "bad escape \u" 4).
Proof. reflexivity. Qed.

(** Whatever the text and the title, [patch_preamble] raises [re.error]:
    each of its three templates holds the escape [\u]. *)
Lemma tex_patch_preamble_raises (t title : text) :
  exists pos, Tex.patch_preamble t title
              = Raised (re_error "bad escape \u" pos).
Proof.
  destruct packages_head as [r Er]. unfold Tex.patch_preamble.
  destruct (is_some (search Tex.graphicx_pat t)).
  - exists 0. unfold sub_template at 1. cbn [template_filter contains startswith orb bind].
    unfold sub_template_1. rewrite Er. cbn [app].
    now rewrite filter_bad_escape_u.
  - destruct (is_some (search Tex.bare_href_pat t)).
    + exists 0. unfold sub_template_1. rewrite Er. cbn [app].
      now rewrite filter_bad_escape_u.
    + exists 4. unfold sub_template_1. rewrite Er.
      change (txt "\1\n") with ["\"; "1"; "\"; "n"]. cbn [app].
      now rewrite filter_group_then_bad_escape_u.
Qed.

Lemma tex_accessible_text_raises (title t : text) :
  Tex.already_patched t = false ->
  exists pos, Tex.accessible_text title t
              = Raised (re_error "bad escape \u" pos).
Proof.
  intros H. unfold Tex.accessible_text. rewrite H.
  destruct (tex_patch_preamble_raises t title) as [pos ->]. now exists pos.
Qed.

End TexPreambleFacts.

(** ** Searching for the first match *)

Module SearchFacts.
Import Py TextFacts Doc.

Lemma search_from_none (pat : pattern) (pos : nat) (s : text) :
  (forall a b, s = a ++ b -> pat b = None) -> search_from pat pos s = None.
Proof.
  revert pos; induction s as [|c s IH]; intros pos H; simpl.
  - now rewrite (H [] []).
  - rewrite (H [] (c :: s)) by reflexivity.
    rewrite IH; [reflexivity|].
    intros a b E. apply (H (c :: a) b). now rewrite E.
Qed.

Lemma search_from_first (pat : pattern) (pos : nat) (pre s : text) g w rest :
  (forall a b, pre = a ++ b -> b <> [] -> pat (b ++ s) = None) ->
  pat s = Some (g, w, rest) ->
  search_from pat pos (pre ++ s)
  = Some (pre, MkMatch (pos + length pre) (pos + length pre + length w) w g,
          rest).
Proof.
  revert pos; induction pre as [|c pre IH]; intros pos Hpre Hs.
  - destruct s; simpl; rewrite Hs, !Nat.add_0_r; reflexivity.
  - cbn [app search_from].
    assert (H0 : pat (c :: pre ++ s) = None)
      by (apply (Hpre [] (c :: pre)); [reflexivity|discriminate]).
    rewrite H0, (IH (S pos)); auto.
    + cbn [length]. now rewrite !Nat.add_succ_r.
    + intros a b E Hb. apply (Hpre (c :: a) b); [now rewrite E|assumption].
Qed.

Lemma search_from_some (pat : pattern) (pos : nat) (s pre rest : text) m :
  search_from pat pos s = Some (pre, m, rest) ->
  exists g w, pat (skipn (length pre) s) = Some (g, w, rest)
              /\ s = pre ++ skipn (length pre) s /\ m_group0 m = w
              /\ m_groups m = g.
Proof.
  revert pos pre; induction s as [|c s IH]; intros pos pre; simpl.
  - destruct (pat []) as [[[g w] r]|] eqn:E; [|discriminate].
    intros H; injection H as <- <- <-. exists g, w. simpl. auto.
  - destruct (pat (c :: s)) as [[[g w] r]|] eqn:E.
    + intros H; injection H as <- <- <-. exists g, w. simpl. auto.
    + destruct (search_from pat (S pos) s) as [[[pre' m'] rest']|] eqn:Es;
        [|discriminate].
      intros H; injection H as <- <- <-.
      destruct (IH _ _ Es) as [g [w (H1 & H2 & H3 & H4)]].
      exists g, w. simpl. repeat split; auto. now rewrite <- H2.
Qed.

(** The first occurrence of a literal. *)
Lemma find_first (p t : text) (n : nat) :
  find p t = Some n ->
  exists pre s, t = pre ++ s /\ length pre = n /\ startswith p s = true
                /\ (forall a b, pre = a ++ b -> b <> [] ->
                                startswith p (b ++ s) = false).
Proof.
  revert n; induction t as [|c t IH]; intros n; simpl.
  - destruct (startswith p []) eqn:E; [|discriminate].
    intros H; injection H as <-. exists [], []. repeat split; auto.
    intros [|x a] b Hab Hb; [simpl in Hab; congruence|discriminate].
  - destruct (startswith p (c :: t)) eqn:E.
    + intros H; injection H as <-. exists [], (c :: t). repeat split; auto.
      intros [|x a] b Hab Hb; [simpl in Hab; congruence|discriminate].
    + destruct (find p t) as [k|]; [|discriminate].
      intros H; injection H as <-.
      destruct (IH k eq_refl) as [pre [s (-> & Hl & Hs & Hf)]].
      exists (c :: pre), s. repeat split; auto; [simpl; lia|].
      intros [|x a] b Hab Hb.
      * simpl in Hab. subst b. exact E.
      * injection Hab as <- Hab. now apply (Hf a b).
Qed.

Lemma text_eqb_eq (a b : text) : text_eqb a b = true <-> a = b.
Proof.
  unfold text_eqb. destruct (list_eq_dec ascii_dec a b); split; congruence.
Qed.

Lemma text_eqb_refl (a : text) : text_eqb a a = true.
Proof. now apply text_eqb_eq. Qed.

Lemma text_eqb_length (a b : text) :
  length a <> length b -> text_eqb a b = false.
Proof.
  intros H. destruct (text_eqb a b) eqn:E; [|reflexivity].
  apply text_eqb_eq in E. now subst.
Qed.

Lemma occ_suffix (p a b : text) : occ p b -> occ p (a ++ b).
Proof. apply occ_app_r. Qed.

End SearchFacts.

(** ** The preamble step of [make_accessible.py] *)

Module ShnPreambleFacts.
Import Py TextFacts Doc SearchFacts.

Lemma hyperref_line_occ (prefix r : text) :
  occ bare (Shn.hyperref_line prefix ++ r).
Proof.
  exists prefix, (NL :: r). unfold Shn.hyperref_line. fold bare. now flat.
Qed.

Lemma pat_needs_bare (prefix s : text) :
  ~ occ bare s -> Shn.pat prefix s = None.
Proof.
  intros Hn. unfold Shn.pat.
  destruct (strip_prefix (Shn.graphicx_line prefix) s) as [s1|] eqn:E1;
    [|reflexivity].
  destruct (strip_prefix (Shn.hyperref_line prefix) s1) as [s2|] eqn:E2;
    [|reflexivity].
  exfalso. apply Hn. apply strip_prefix_spec in E1, E2. subst.
  apply occ_app_r, hyperref_line_occ.
Qed.

Lemma bare_pat_needs_bare (prefix s : text) :
  ~ occ bare s -> Shn.bare_pat prefix s = None.
Proof.
  intros Hn. unfold Shn.bare_pat.
  destruct (strip_prefix _ s) as [r|] eqn:E; [|reflexivity].
  exfalso. apply Hn. apply strip_prefix_spec in E. subst.
  exists prefix, r. fold bare. now flat.
Qed.

Lemma not_occ_suffix (p a b : text) : ~ occ p (a ++ b) -> ~ occ p b.
Proof. intros H Ho. apply H. now apply occ_app_r. Qed.

(** Without a bare hyperref declaration neither [pat] nor [bare_pat]
    matches, and [patch_preamble] is what the class-declaration fallback
    makes of the text. *)
Lemma patch_preamble_fallback (t prefix title : text) :
  contains bare t = false ->
  Shn.patch_preamble t prefix title
  = sub_call_1 docclass_pat
      (fun m => m_group0 m ++ [NL] ++ Shn.PREAMBLE_TEMPLATE prefix ++ [NL]
                          ++ shn_hyperref prefix title) t.
Proof.
  intros Hb. apply contains_false in Hb. unfold Shn.patch_preamble.
  unfold subn_call_1 at 1. unfold search.
  rewrite search_from_none
    by (intros a b ->; apply pat_needs_bare; now apply not_occ_suffix in Hb).
  cbn [Nat.eqb]. unfold sub_call_1 at 1, subn_call_1 at 1, search.
  rewrite search_from_none
    by (intros a b ->; apply bare_pat_needs_bare; now apply not_occ_suffix in Hb).
  cbn [fst]. now rewrite text_eqb_refl.
Qed.

End ShnPreambleFacts.

Module ShnPreambleFacts2.
Import Py TextFacts PatternFacts Doc SearchFacts ShnPreambleFacts.

Lemma occ_intro (p s a b : text) : s = a ++ p ++ b -> occ p s.
Proof. intros ->. now exists a, b. Qed.

Lemma preamble_markers (prefix : text) :
  occ (txt "fontenc") (Shn.PREAMBLE_TEMPLATE prefix)
  /\ occ (txt "lmodern") (Shn.PREAMBLE_TEMPLATE prefix).
Proof.
  split.
  - eapply (occ_intro _ _ (prefix ++ txt "\usepackage[T1]{")).
    unfold Shn.PREAMBLE_TEMPLATE, join_lines, txt. cbn [list_ascii_of_string app].
    flat. reflexivity.
  - eapply (occ_intro _ _ (prefix ++ txt "\usepackage[T1]{fontenc}" ++ [NL]
                                  ++ prefix ++ txt "\usepackage{")).
    unfold Shn.PREAMBLE_TEMPLATE, join_lines, txt. cbn [list_ascii_of_string app].
    flat. reflexivity.
Qed.

Lemma hyperref_markers (prefix title : text) :
  occ (txt "pdftitle") (shn_hyperref prefix title)
  /\ occ (txt "pdfcomment") (shn_hyperref prefix title).
Proof.
  split.
  - eapply (occ_intro _ _ (prefix ++ txt "\usepackage[pdftex," ++ [NL]
                                  ++ prefix ++ txt "    ")).
    unfold Shn.HYPERREF_TEMPLATE, join_lines, txt. cbn [list_ascii_of_string app].
    flat. reflexivity.
  - eapply (occ_intro _ _
              (prefix ++ txt "\usepackage[pdftex," ++ [NL]
               ++ prefix ++ txt "    pdftitle={" ++ title ++ txt "}," ++ [NL]
               ++ prefix ++ txt "    pdfauthor={" ++ Shn.AUTHOR ++ txt "}," ++ [NL]
               ++ prefix ++ txt "    pdflang={en-US}," ++ [NL]
               ++ prefix ++ txt "    pdfsubject={" ++ Shn.SUBJECT ++ txt "}," ++ [NL]
               ++ prefix ++ txt "    pdfkeywords={" ++ Shn.KEYWORDS ++ txt "}," ++ [NL]
               ++ prefix ++ txt "    colorlinks=true," ++ [NL]
               ++ prefix ++ txt "    linkcolor=blue," ++ [NL]
               ++ prefix ++ txt "    urlcolor=blue," ++ [NL]
               ++ prefix ++ txt "    citecolor=blue," ++ [NL]
               ++ prefix ++ txt "    unicode]{hyperref}" ++ [NL]
               ++ prefix ++ txt "\IfFileExists{")).
    unfold Shn.HYPERREF_TEMPLATE, join_lines, txt, Shn.AUTHOR, Shn.SUBJECT, Shn.KEYWORDS.
    cbn [list_ascii_of_string app]. flat. reflexivity.
Qed.

(** Once the preamble and the hyperref block are in a text, the marker
    check succeeds. *)
Lemma already_patched_block (a b c prefix title : text) :
  Shn.already_patched
    (a ++ Shn.PREAMBLE_TEMPLATE prefix ++ b
       ++ shn_hyperref prefix title ++ c) = true.
Proof.
  destruct (preamble_markers prefix) as [H1 H2].
  destruct (hyperref_markers prefix title) as [H3 H4].
  unfold Shn.already_patched. rewrite !andb_true_iff.
  repeat split; apply contains_spec.
  - apply occ_app_r, occ_app_l, H1.
  - apply occ_app_r, occ_app_l, H2.
  - do 3 apply occ_app_r. apply occ_app_l, H3.
  - do 3 apply occ_app_r. apply occ_app_l, H4.
Qed.

(** The class-declaration fallback of [make_accessible.py]: without a bare
    hyperref declaration, the block goes right after the first class
    declaration, and the marker check succeeds on the result. *)
Lemma shn_docclass_fallback (t prefix title pre rest : text) (m : re_match) :
  contains bare t = false ->
  search docclass_pat t = Some (pre, m, rest) ->
  t = pre ++ m_group0 m ++ rest
  /\ Shn.patch_preamble t prefix title
     = pre ++ m_group0 m ++ [NL] ++ Shn.PREAMBLE_TEMPLATE prefix ++ [NL]
           ++ shn_hyperref prefix title ++ rest
  /\ Shn.already_patched (Shn.patch_preamble t prefix title) = true.
Proof.
  intros Hb Hs. rewrite patch_preamble_fallback by assumption.
  unfold sub_call_1, subn_call_1. rewrite Hs. cbn [fst].
  unfold search in Hs. apply search_from_some in Hs
    as [g [w (Hp & Ht & Hw & Hg)]].
  unfold docclass_pat in Hp.
  destruct (command _ _) as [[[[o f] w'] r]|] eqn:Ec; [|discriminate].
  injection Hp as _ Hw0 Hr0. subst w' r.
  apply command_spec in Ec as (Ec & _).
  repeat split.
  - rewrite Ht at 1. rewrite Ec, Hw. reflexivity.
  - now flat.
  - replace ((m_group0 m ++ [NL] ++ Shn.PREAMBLE_TEMPLATE prefix ++ [NL]
                       ++ shn_hyperref prefix title) ++ rest)
      with ((m_group0 m ++ [NL]) ++ Shn.PREAMBLE_TEMPLATE prefix ++ [NL]
                       ++ shn_hyperref prefix title ++ rest) by now flat.
    rewrite app_assoc. apply already_patched_block.
Qed.

Lemma pat_pair (prefix post : text) :
  exists g w rest,
    Shn.pat prefix (pair_lines prefix ++ post) = Some (g, w, rest)
    /\ nth 0 g None = Some (Shn.graphicx_line prefix)
    /\ w ++ rest = pair_lines prefix ++ post
    /\ pair_lines prefix ++ or_empty (nth 2 g None) = w.
Proof.
  unfold Shn.pat, pair_lines. rewrite <- app_assoc.
  rewrite strip_prefix_app, strip_prefix_app.
  destruct (strip_prefix (Shn.listings_line prefix) post) as [r|] eqn:E.
  - apply strip_prefix_spec in E. subst post.
    eexists _, _, _. split; [reflexivity|]. cbn [nth].
    split; [reflexivity|]. split; [now flat|].
    assert (Hl : or_empty (Some (Shn.listings_line prefix))
                 = Shn.listings_line prefix)
      by (unfold Shn.listings_line; destruct prefix; reflexivity).
    rewrite Hl. now flat.
  - eexists _, _, _. split; [reflexivity|]. cbn [nth or_empty].
    split; [reflexivity|]. split; [now flat|]. now rewrite app_nil_r.
Qed.

Lemma pat_starts (prefix s : text) g w rest :
  Shn.pat prefix s = Some (g, w, rest) -> startswith (pair_lines prefix) s = true.
Proof.
  unfold Shn.pat.
  destruct (strip_prefix (Shn.graphicx_line prefix) s) as [s1|] eqn:E1;
    [|discriminate].
  destruct (strip_prefix (Shn.hyperref_line prefix) s1) as [s2|] eqn:E2;
    [|discriminate].
  intros _. apply strip_prefix_spec in E1, E2. subst.
  apply startswith_spec. exists s2. unfold pair_lines. now flat.
Qed.

Lemma hyperref_longer (prefix title : text) :
  length (Shn.hyperref_line prefix) < length (shn_hyperref prefix title).
Proof.
  unfold Shn.hyperref_line, Shn.HYPERREF_TEMPLATE, join_lines.
  rewrite !length_app. cbn [length]. rewrite !length_app. simpl. lia.
Qed.

End ShnPreambleFacts2.

(** ** Claims on the preamble step *)

Module PreambleClaims.
Import Py TextFacts PatternFacts Doc Samples SearchFacts ShnPreambleFacts
       ShnPreambleFacts2 TexPreambleFacts.

Lemma app_eq_length {A} (a a' b b' : list A) :
  a ++ b = a' ++ b' -> length a = length a' -> a = a' /\ b = b'.
Proof.
  revert a'; induction a as [|x a IH]; intros [|x' a'] E Hl;
    try discriminate; [auto|].
  injection E as <- E. injection Hl as Hl.
  destruct (IH a' E Hl) as [-> ->]. auto.
Qed.

(** C1 (code bug).  [make_accessible.py] on a source with a class
    declaration and a bare hyperref declaration: the first run replaces the
    bare declaration by the hyperref block alone, the marker check fails on
    its output, and the second run inserts the packages and a second
    hyperref block after the class declaration; the output of the second run
    holds two [pdftitle] declarations and differs from the first. *)
Theorem shn_preamble_step_inserts_twice :
  let once := Shn.preamble_step sample_title bare_only in
  let twice := Shn.preamble_step sample_title once in
  Shn.already_patched once = false
  /\ count (txt "pdftitle") once = 1
  /\ count (txt "pdftitle") twice = 2
  /\ count (txt "{hyperref}") twice = 2
  /\ twice <> once.
Proof.
  vm_compute. repeat split; try reflexivity. discriminate.
Qed.

(** C5 (code bug).  [make_accessible.py] on a source with a bare hyperref
    declaration and no graphicx declaration: the declaration is replaced by
    the hyperref block alone; the font encoding, font family, input encoding
    and language declarations are not written. *)
Theorem shn_bare_hyperref_gets_hyperref_only (title : text) :
  Shn.patch_preamble bare_only [] title
  = txt "\documentclass{article}" ++ [NL] ++ shn_hyperref [] title ++ [NL]
  /\ contains (txt "fontenc") (Shn.patch_preamble bare_only [] sample_title) = false
  /\ contains (txt "lmodern") (Shn.patch_preamble bare_only [] sample_title) = false
  /\ contains (txt "inputenc") (Shn.patch_preamble bare_only [] sample_title) = false
  /\ contains (txt "babel") (Shn.patch_preamble bare_only [] sample_title) = false.
Proof.
  split; [|vm_compute; auto]. vm_compute. reflexivity.
Qed.

(** C4, counterexample.  On a source where the graphicx line is followed by
    the bare hyperref line, the block is not written as a whole before the
    graphicx declaration: the hyperlink declaration comes after it. *)
Lemma shn_block_not_before_graphicx :
  let result := Shn.patch_preamble adjacent_pair [] sample_title in
  contains (Shn.PREAMBLE_TEMPLATE [] ++ [NL] ++ shn_hyperref [] sample_title)
           result = false
  /\ exists i j, find (txt "{graphicx}") result = Some i
                 /\ find (txt "pdftitle") result = Some j /\ i < j.
Proof.
  split; [vm_compute; reflexivity|].
  eexists _, _. split; [vm_compute; reflexivity|].
  split; [vm_compute; reflexivity|]. vm_compute. lia.
Qed.

(** C4, as amended.  In [make_accessible.py], when the first graphicx line
    that is followed by the bare hyperref line stands at the end of [pre]:
    the packages are written before the graphicx line, the graphicx line is
    kept, the bare hyperref line is replaced by the hyperref block, and the
    text around the two lines is unchanged. *)
Theorem shn_pair_replaced (prefix title pre post : text) :
  find (pair_lines prefix) (pre ++ pair_lines prefix ++ post)
  = Some (length pre) ->
  Shn.patch_preamble (pre ++ pair_lines prefix ++ post) prefix title
  = pre ++ Shn.PREAMBLE_TEMPLATE prefix ++ [NL] ++ Shn.graphicx_line prefix
        ++ shn_hyperref prefix title ++ [NL] ++ post.
Proof.
  intros Hf. apply find_first in Hf as [pre' [s (Et & Hl & Hs & Hno)]].
  symmetry in Hl. apply app_eq_length in Et as [<- <-]; [|assumption].
  destruct (pat_pair prefix post) as [g [w [rest (Hp & Hg1 & Hw & Hg3)]]].
  unfold Shn.patch_preamble, subn_call_1, search.
  rewrite (search_from_first _ 0 pre _ g w rest); [|
    intros a b Hab Hb;
    destruct (Shn.pat prefix (b ++ pair_lines prefix ++ post))
      as [[[g' w'] r']|] eqn:E; [|reflexivity];
    apply pat_starts in E; rewrite (Hno a b Hab Hb) in E; discriminate
  | exact Hp].
  cbn [Nat.eqb]. unfold group_text, group. cbn [m_groups Nat.sub].
  rewrite Hg1.
  assert (Hpost : or_empty (nth 2 g None) ++ rest = post).
  { apply (app_inv_head (pair_lines prefix)). rewrite app_assoc, Hg3. exact Hw. }
  assert (Hnew :
    pre ++ (Shn.PREAMBLE_TEMPLATE prefix ++ [NL] ++ Shn.graphicx_line prefix
              ++ shn_hyperref prefix title ++ [NL] ++ or_empty (nth 2 g None))
        ++ rest
    = pre ++ Shn.PREAMBLE_TEMPLATE prefix ++ [NL] ++ Shn.graphicx_line prefix
          ++ shn_hyperref prefix title ++ [NL] ++ post).
  { rewrite <- Hpost. now flat. }
  rewrite Hnew. rewrite text_eqb_length; [reflexivity|].
  pose proof (hyperref_longer prefix title) as Hlen.
  unfold pair_lines. rewrite !length_app. cbn [length]. lia.
Qed.

Lemma shn_pair_replaced_witness :
  find (pair_lines []) (txt "\documentclass{article}" ++ [NL]
                          ++ pair_lines [] ++ txt "\begin{document}")
  = Some (length (txt "\documentclass{article}" ++ [NL]))
  /\ Shn.patch_preamble
       ((txt "\documentclass{article}" ++ [NL]) ++ pair_lines []
          ++ txt "\begin{document}") [] sample_title
     = (txt "\documentclass{article}" ++ [NL]) ++ Shn.PREAMBLE_TEMPLATE [] ++ [NL]
         ++ Shn.graphicx_line [] ++ shn_hyperref [] sample_title ++ [NL]
         ++ txt "\begin{document}".
Proof.
  split; [reflexivity|].
  apply (shn_pair_replaced [] sample_title
           (txt "\documentclass{article}" ++ [NL]) (txt "\begin{document}")).
  reflexivity.
Defined.

(** C6 (code bug).  On a source with a class declaration and no other
    anchor, [make_accessible_tex.py] raises [re.error] in [patch_preamble],
    whatever the title; [make_accessible.py] writes the block right after
    the class declaration, and its marker check succeeds on the result. *)
Theorem docclass_fallback_diverges (title : text) :
  Tex.patch_preamble class_only title = Raised (re_error "bad escape \u" 4)
  /\ Shn.patch_preamble class_only [] title
     = txt "\documentclass{article}" ++ [NL] ++ Shn.PREAMBLE_TEMPLATE [] ++ [NL]
         ++ shn_hyperref [] title ++ [NL] ++ txt "\begin{document}"
  /\ Shn.already_patched (Shn.patch_preamble class_only [] title) = true.
Proof.
  split; [reflexivity|].
  destruct (shn_docclass_fallback class_only [] title []
              (NL :: txt "\begin{document}")
              (MkMatch 0 23 (txt "\documentclass{article}")
                       [Some (txt "\documentclass{article}")])
              eq_refl eq_refl)
    as (_ & H1 & H2).
  split; [|assumption]. rewrite H1. reflexivity.
Qed.

(** C10.  In [make_accessible.py], a text without a bare hyperref
    declaration and without a class declaration is returned as it is, and
    the marker check on the result is still false. *)
Theorem shn_patch_preamble_no_anchor (t prefix title : text) :
  contains bare t = false ->
  search docclass_pat t = None ->
  Shn.already_patched t = false ->
  Shn.patch_preamble t prefix title = t
  /\ Shn.already_patched (Shn.patch_preamble t prefix title) = false.
Proof.
  intros Hb Hd Hp.
  assert (E : Shn.patch_preamble t prefix title = t).
  { rewrite patch_preamble_fallback by assumption.
    unfold sub_call_1, subn_call_1. now rewrite Hd. }
  now rewrite E.
Qed.

Lemma shn_patch_preamble_no_anchor_witness :
  contains bare (txt "\begin{document} Hello \end{document}") = false
  /\ search docclass_pat (txt "\begin{document} Hello \end{document}") = None
  /\ Shn.already_patched (txt "\begin{document} Hello \end{document}") = false
  /\ Shn.patch_preamble (txt "\begin{document} Hello \end{document}")
                        [] sample_title
     = txt "\begin{document} Hello \end{document}"
  /\ Shn.already_patched
       (Shn.patch_preamble (txt "\begin{document} Hello \end{document}")
                           [] sample_title) = false.
Proof.
  split; [reflexivity|]. split; [reflexivity|]. split; [reflexivity|].
  apply (shn_patch_preamble_no_anchor
           (txt "\begin{document} Hello \end{document}") [] sample_title);
    reflexivity.
Defined.

(** C3 (code bug).  In [make_accessible_tex.py] the preamble step raises
    [re.error] on every text, and nothing catches it: a document whose
    preamble is not patched yet aborts the batch, and the documents after
    it are not processed. *)
Theorem tex_batch_aborted (title_of : string -> text -> text)
        (fs : Tex.filesystem) (f : string) (rest : list string) (t : text) :
  Tex.read_text fs f = Some t ->
  Tex.already_patched t = false ->
  (forall t' title, exists pos,
      Tex.patch_preamble t' title = Raised (re_error "bad escape \u" pos))
  /\ exists pos,
      Tex.main_loop title_of fs (f :: rest)
      = Raised (re_error "bad escape \u" pos).
Proof.
  intros Hr Hp. split; [apply tex_patch_preamble_raises|].
  cbn [Tex.main_loop]. rewrite Hr. unfold Tex.apply_pdf_accessibility.
  rewrite Hr.
  destruct (tex_accessible_text_raises (title_of f t) t Hp) as [pos ->].
  now exists pos.
Qed.

Lemma tex_batch_aborted_witness :
  Tex.read_text sample_files "a.tex" = Some class_only
  /\ Tex.already_patched class_only = false
  /\ (forall t' title, exists pos,
        Tex.patch_preamble t' title = Raised (re_error "bad escape \u" pos))
  /\ exists pos,
      Tex.main_loop (fun _ _ => sample_title) sample_files
                    ["a.tex"; "b.tex"]%string
      = Raised (re_error "bad escape \u" pos).
Proof.
  split; [reflexivity|]. split; [reflexivity|].
  apply (tex_batch_aborted (fun _ _ => sample_title) sample_files
                           "a.tex"%string ["b.tex"%string] class_only);
    reflexivity.
Defined.

End PreambleClaims.

(** ** Claims on the wrapping pass *)

Module WrapClaims.
Import Py Doc Samples ProgramFacts.

(** C2, counterexample.  A directive whose options hold closing braces and
    whose file name holds the directive keyword: the alternative text
    written by the first run holds a directive that the second run wraps. *)
Lemma wrap_images_not_idempotent :
  Tex.wrap_images (Tex.wrap_images odd_directive_tex)
  <> Tex.wrap_images odd_directive_tex
  /\ Shn.wrap_images (Shn.wrap_images odd_directive_shn)
     <> Shn.wrap_images odd_directive_shn.
Proof. split; vm_compute; discriminate. Qed.

(** C2, as amended.  On a source made of directives and of texts in which
    no argument follows the directive keyword, where the options of a
    directive hold no wrapper opening and its file name no backslash,
    running [wrap_images] twice gives what running it once gives, in both
    programs. *)
Theorem wrap_images_idempotent (t0 : text) (ds : list (directive * text)) :
  wf_doc t0 ds = true ->
  Tex.wrap_images (Tex.wrap_images (render t0 ds))
  = Tex.wrap_images (render t0 ds)
  /\ Shn.wrap_images (Shn.wrap_images (render t0 ds))
     = Shn.wrap_images (render t0 ds).
Proof.
  intros Hw. split; [now apply tex_idempotent|now apply shn_idempotent].
Qed.

Lemma wrap_images_idempotent_witness :
  wf_doc (fst sample_doc) (snd sample_doc) = true
  /\ Tex.wrap_images
       (Tex.wrap_images (render (fst sample_doc) (snd sample_doc)))
     = Tex.wrap_images (render (fst sample_doc) (snd sample_doc))
  /\ Shn.wrap_images
       (Shn.wrap_images (render (fst sample_doc) (snd sample_doc)))
     = Shn.wrap_images (render (fst sample_doc) (snd sample_doc)).
Proof.
  split; [reflexivity|].
  apply (wrap_images_idempotent (fst sample_doc) (snd sample_doc)).
  reflexivity.
Defined.

(** C9 (code bug).  A wrapper that is closed, followed by a directive in a
    brace group: in [make_accessible_tex.py] the depth counted from the
    wrapper is positive again at the directive, [is_already_wrapped]
    answers true and the directive is left without a wrapper;
    [make_accessible.py] stops at the closing brace and wraps it. *)
Theorem closed_wrapper_still_counts_in_tex :
  Tex.is_already_wrapped closed_wrapper 53 = true
  /\ skipn 53 closed_wrapper = txt "\includegraphics{b.png}}"
  /\ Tex.wrap_images closed_wrapper = closed_wrapper
  /\ Shn.inside_tooltip closed_wrapper 53 = false
  /\ Shn.wrap_images closed_wrapper
     = txt "\pdftooltip{\includegraphics{a.png}}{Alt}\centerline{"
         ++ wrapper [] (txt "b.png") (shn_alt (txt "b.png")) ++ txt "}".
Proof. repeat split; reflexivity. Qed.

End WrapClaims.

(** ** Reading the alternative texts back *)

Module ExtractFacts.
Import Py TextFacts PatternFacts ScanFacts DirectiveFacts WrapFacts
       InsideFacts AltFacts ProgramFacts Doc.

Lemma tooltip_starts (s : text) g w rest :
  tooltip_pat s = Some (g, w, rest) ->
  exists r, s = TT ++ LIT ++ r /\ inert r = false.
Proof.
  unfold tooltip_pat. fold TT LIT.
  destruct (strip_prefix TT s) as [s1|] eqn:E1; [|discriminate].
  apply strip_prefix_spec in E1 as ->.
  destruct (command LIT s1) as [[[[o f] w'] r]|] eqn:E; [|discriminate].
  intros _.
  destruct (startswith LIT s1) eqn:E0;
    [|rewrite command_starts in E by assumption; discriminate].
  apply startswith_spec in E0 as [r0 ->]. exists r0. split; [reflexivity|].
  destruct (inert r0) eqn:Ei; [|reflexivity].
  rewrite command_inert in E by assumption. discriminate.
Qed.

Lemma inert_wrapper_seam (rest : text) :
  wrapper_seam rest -> inert rest = true.
Proof. now intros [->|[q ->]]. Qed.

Lemma tooltip_text (c : ascii) (t rest : text) :
  wf_text (c :: t) = true -> wrapper_seam rest ->
  tooltip_pat ((c :: t) ++ rest) = None.
Proof.
  intros Hw Hs. rewrite wf_text_spec in Hw.
  destruct (tooltip_pat ((c :: t) ++ rest)) as [[[g w] r]|] eqn:E;
    [|reflexivity].
  exfalso. apply tooltip_starts in E as [r' [E Hi]].
  apply occ_app_at in E as [[b' [E Er]]|[[a' [E Ea]]|H]].
  - (* the keyword lies in the text: no argument follows it *)
    rewrite Er, inert_app in Hi;
      [discriminate|now apply (Hw TT)|now apply inert_wrapper_seam].
  - (* the keyword would start inside the wrapper opening that follows *)
    destruct Hs as [->|[q ->]].
    + destruct a'; discriminate.
    + rewrite TT_cons in Ea. injection Ea as _ Ea.
      destruct a' as [|x a'].
      * rewrite TT_cons, LIT_cons in E. discriminate.
      * rewrite TT_cons in E. injection E as <- _.
        assert (Hin : In "\" (t ++ "\" :: a'))
          by (apply in_or_app; right; now left).
        rewrite <- Ea in Hin. now apply TT_tail_plain.
  - destruct H as [l1 [l2 (H1 & H2 & Hp & Hx & Hy)]].
    destruct l2 as [|y l2]; [congruence|].
    destruct l1 as [|x l1]; [congruence|].
    rewrite LIT_cons in Hp. injection Hp as _ Hp.
    assert (Hin : In y (l1 ++ y :: l2))
      by (apply in_or_app; right; now left).
    rewrite <- Hp in Hin.
    destruct Hs as [->|[q ->]]; [discriminate|].
    rewrite TT_cons in Hy. injection Hy as <- _.
    now apply LIT_tail_plain.
Qed.

Lemma tooltip_wrapped (d : directive) (alt rest : text) :
  wf_dir d = true -> alt <> [] -> ~ In "}" alt ->
  tooltip_pat (TT ++ directive_text d ++ closing alt ++ rest)
  = Some ([Some (d_fname d); Some alt],
          TT ++ directive_text d ++ closing alt, rest).
Proof.
  intros Hd Ha Hc. unfold tooltip_pat. fold TT LIT.
  rewrite strip_prefix_app, command_dir by assumption.
  unfold closing. change (txt "}{") with ["}"; "{"]. change (txt "}") with ["}"].
  cbn [app]. rewrite <- app_assoc. cbn [app].
  rewrite braced_app by assumption. reflexivity.
Qed.

Lemma events_tooltip_text (pos : nat) (t rest : text) :
  wf_text t = true -> wrapper_seam rest ->
  events tooltip_pat pos (t ++ rest)
  = map Lit t ++ events tooltip_pat (pos + length t) rest.
Proof.
  revert pos; induction t as [|c t IH]; intros pos Hw Hs.
  - simpl. now rewrite Nat.add_0_r.
  - rewrite <- app_comm_cons.
    rewrite (events_skip tooltip_pat)
      by (rewrite app_comm_cons; now apply tooltip_text).
    rewrite IH by (eauto using wf_text_tail). simpl.
    do 3 f_equal. lia.
Qed.

Lemma wrapper_seam_wrapped (d : directive) (r : text) :
  wrapper_seam (TT ++ directive_text d ++ r).
Proof. right. unfold directive_text. eexists. now flat. Qed.

(** The output for two directives that are not wrapped yet holds exactly
    their two wrappers. *)
Lemma hits_two_wrappers (t0 t1 t2 alt_a alt_b : text) (da db : directive) :
  wf_text t0 = true -> wf_text t1 = true -> wf_text t2 = true ->
  wf_dir da = true -> wf_dir db = true ->
  alt_a <> [] -> ~ In "}" alt_a -> alt_b <> [] -> ~ In "}" alt_b ->
  map m_groups
      (finditer tooltip_pat
         (t0 ++ (TT ++ directive_text da ++ closing alt_a)
             ++ t1 ++ (TT ++ directive_text db ++ closing alt_b) ++ t2))
  = [ [Some (d_fname da); Some alt_a]; [Some (d_fname db); Some alt_b] ].
Proof.
  intros H0 H1 H2 Ha Hb Haa Hac Hba Hbc.
  rewrite (finditer_events tooltip_pat tooltip_progressive).
  flat.
  rewrite events_tooltip_text by (auto using wrapper_seam_wrapped).
  rewrite (events_hit tooltip_pat tooltip_progressive _ _ _ _ _
             (tooltip_wrapped da alt_a _ Ha Haa Hac)).
  rewrite events_tooltip_text by (auto using wrapper_seam_wrapped).
  rewrite (events_hit tooltip_pat tooltip_progressive _ _ _ _ _
             (tooltip_wrapped db alt_b _ Hb Hba Hbc)).
  rewrite <- (app_nil_r t2).
  rewrite events_tooltip_text by (auto; now left).
  rewrite (events_nil tooltip_pat tooltip_progressive).
  rewrite !hits_lits, hits_hit, hits_lits, hits_hit, hits_lits.
  reflexivity.
Qed.

Lemma fold_left_groups {A} (f : A -> groups -> A) (ms : list re_match) (a : A) :
  fold_left (fun acc m => f acc (m_groups m)) ms a
  = fold_left f (map m_groups ms) a.
Proof. revert a; induction ms as [|m ms IH]; intros a; simpl; auto. Qed.

Lemma extract_two_wrappers (post : text -> text)
      (t0 t1 t2 alt_a alt_b : text) (da db : directive) :
  wf_text t0 = true -> wf_text t1 = true -> wf_text t2 = true ->
  wf_dir da = true -> wf_dir db = true ->
  alt_a <> [] -> ~ In "}" alt_a -> alt_b <> [] -> ~ In "}" alt_b ->
  extract_with post
    (t0 ++ (TT ++ directive_text da ++ closing alt_a)
        ++ t1 ++ (TT ++ directive_text db ++ closing alt_b) ++ t2)
  = dict_set [(path_name (d_fname da), post alt_a)]
             (path_name (d_fname db)) (post alt_b).
Proof.
  intros. unfold extract_with.
  rewrite (fold_left_groups
             (fun alt_map g =>
                dict_set alt_map
                         (path_name (match nth 0 g None with
                                     | Some t => t | None => [] end))
                         (post (match nth 1 g None with
                                | Some t => t | None => [] end)))).
  rewrite hits_two_wrappers by assumption. reflexivity.
Qed.

End ExtractFacts.

Module RoundTrip.
Import Py TextFacts PatternFacts ScanFacts DirectiveFacts WrapFacts
       InsideFacts AltFacts ProgramFacts ExtractFacts Doc Samples.

Lemma tex_extract_is (s : text) :
  Tex.extract_alt_map s = extract_with strip s.
Proof. reflexivity. Qed.

Lemma shn_extract_is (s : text) :
  Shn.extract_alt_map s
  = extract_with (fun a => strip (replace (txt "*\#*\#") (txt "*#*#") a)) s.
Proof. reflexivity. Qed.

Lemma alt_nonempty_tex (f : text) : tex_alt f <> [].
Proof. discriminate. Qed.

Lemma alt_nonempty_shn (f : text) : shn_alt f <> [].
Proof. discriminate. Qed.

(** C7 (code bug).  Two directives, for [a.png] and [b.png], each in a
    brace group after a wrapper that is closed, none of them in a wrapper:
    in [make_accessible_tex.py] the depth counted from the wrapper opening
    is positive at both, [is_already_wrapped] answers true (the defect of
    C9), [wrap_images] returns the source and the map read back is empty;
    [make_accessible.py] judges both outside, wraps them and reads back
    the two names, each with the marker and its guess. *)
Theorem alt_map_lost_in_tex :
  directives lost_figures = [([], txt "a.png"); ([], txt "b.png")]
  /\ map m_start (finditer INCL_RE lost_figures) = [34; 75]
  /\ finditer tooltip_pat lost_figures = []
  /\ Shn.inside_tooltip lost_figures 34 = false
  /\ Shn.inside_tooltip lost_figures 75 = false
  /\ Tex.is_already_wrapped lost_figures 34 = true
  /\ Tex.is_already_wrapped lost_figures 75 = true
  /\ Tex.wrap_images lost_figures = lost_figures
  /\ Tex.extract_alt_map (Tex.wrap_images lost_figures) = []
  /\ Shn.extract_alt_map (Shn.wrap_images lost_figures)
     = [ (txt "a.png",
          Shn.ALT_MARKER ++ txt " " ++ Shn.guess_alt (txt "a.png"));
         (txt "b.png",
          Shn.ALT_MARKER ++ txt " " ++ Shn.guess_alt (txt "b.png")) ].
Proof. repeat split; reflexivity. Qed.

End RoundTrip.

(** ** Passes that find nothing, passes that change nothing *)

Module PassFacts.
Import Py TextFacts PatternFacts ScanFacts DirectiveFacts WrapFacts Doc.

Section Pattern.
Variable pat : pattern.
Hypothesis pat_progressive : progressive pat.

Lemma events_all_lit (pos : nat) (s : text) :
  (forall a b, s = a ++ b -> pat b = None) -> events pat pos s = map Lit s.
Proof.
  revert pos; induction s as [|c s IH]; intros pos H.
  - now apply events_nil.
  - rewrite events_skip by now apply (H []).
    cbn [map]. f_equal. apply IH. intros a b E. apply (H (c :: a)).
    now rewrite E.
Qed.

Lemma emit_map_lit (repl : re_match -> text) (s : text) :
  emit repl (map Lit s) = s.
Proof.
  rewrite <- (app_nil_r (map Lit s)), emit_lits. cbn. now rewrite app_nil_r.
Qed.

Lemma hits_map_lit (s : text) : hits (map Lit s) = [].
Proof. rewrite <- (app_nil_r (map Lit s)), hits_lits. reflexivity. Qed.

(** No match starts in [pre]: the scan passes over it. *)
Lemma events_prefix_lit (pos : nat) (pre s : text) :
  (forall a b, pre = a ++ b -> b <> [] -> pat (b ++ s) = None) ->
  events pat pos (pre ++ s) = map Lit pre ++ events pat (pos + length pre) s.
Proof.
  revert pos; induction pre as [|c pre IH]; intros pos H.
  - cbn [app map length]. now rewrite Nat.add_0_r.
  - cbn [app map length].
    rewrite events_skip by (apply (H [] (c :: pre)); [reflexivity|discriminate]).
    f_equal. rewrite IH.
    + now rewrite Nat.add_succ_r.
    + intros a b E Hb. apply (H (c :: a) b); [now rewrite E|assumption].
Qed.

(** A pattern that matches at no position: [sub] returns the text. *)
Lemma sub_call_none (repl : re_match -> text) (s : text) :
  (forall a b, s = a ++ b -> pat b = None) -> sub_call pat repl s = s.
Proof.
  intros H. rewrite sub_call_events by assumption.
  rewrite events_all_lit by assumption. apply emit_map_lit.
Qed.

Lemma finditer_none (s : text) :
  (forall a b, s = a ++ b -> pat b = None) -> finditer pat s = [].
Proof.
  intros H. rewrite finditer_events by assumption.
  rewrite events_all_lit by assumption. apply hits_map_lit.
Qed.

Lemma emit_group0 (repl : re_match -> text) :
  (forall m, repl m = m_group0 m) ->
  forall n s pos, length s <= n -> emit repl (events pat pos s) = s.
Proof.
  intros Hr. induction n as [|n IH]; intros s pos Hn.
  - destruct s; [|simpl in Hn; lia]. now rewrite events_nil.
  - destruct (pat s) as [[[g w] rest]|] eqn:E.
    + rewrite (events_hit pat pat_progressive pos s g w rest E), emit_hit, Hr.
      cbn [m_group0]. pose proof (pat_rest_shorter pat pat_progressive _ _ _ _ E).
      rewrite IH by lia. symmetry. now apply (pat_progressive s g w rest).
    + destruct s as [|c s]; [now rewrite events_nil|].
      rewrite events_skip by assumption. rewrite emit_lit.
      f_equal. apply IH. simpl in Hn. lia.
Qed.

(** A replacement that writes every match back: [sub] returns the text. *)
Lemma sub_call_same (repl : re_match -> text) (s : text) :
  (forall m, repl m = m_group0 m) -> sub_call pat repl s = s.
Proof.
  intros Hr. rewrite sub_call_events by assumption.
  now apply (emit_group0 repl Hr (length s)).
Qed.

End Pattern.

(** A pattern that starts with the literal [p] matches nowhere in a text
    without [p]. *)
Lemma nowhere (pat : pattern) (p s : text) :
  (forall b, startswith p b = false -> pat b = None) ->
  contains p s = false ->
  forall a b, s = a ++ b -> pat b = None.
Proof.
  intros Hp Hc a b E. apply Hp.
  destruct (startswith p b) eqn:Es; [|reflexivity].
  apply startswith_spec in Es as [r ->]. apply contains_false in Hc.
  exfalso. apply Hc. now exists a, r.
Qed.

End PassFacts.

(** ** Sources without a wrapper *)

Module PlainSourceFacts.
Import Py TextFacts PatternFacts ScanFacts DirectiveFacts WrapFacts
       InsideFacts AltFacts ProgramFacts ExtractFacts RoundTrip PassFacts
       Doc Shapes.

Lemma TT_nonempty : TT <> [].
Proof. discriminate. Qed.

Lemma not_occ_prefix (p a b : text) : ~ occ p (a ++ b) -> ~ occ p a.
Proof. intros H Ho. apply H. now apply occ_app_l. Qed.

Lemma tex_outside (pre : text) : ~ occ TT pre -> tex_inside pre = false.
Proof.
  intros H. unfold tex_inside.
  now rewrite (proj2 (after_last_none TT pre TT_nonempty) H).
Qed.

Lemma shn_outside (pre : text) : ~ occ TT pre -> shn_inside pre = false.
Proof.
  intros H. unfold shn_inside.
  now rewrite (proj2 (after_last_none TT pre TT_nonempty) H).
Qed.

(** Where the wrapped test fails before every directive, every directive
    gets its wrapper. *)
Lemma wrap_doc_all (inside : text -> bool) (alt_of : text -> text)
      (pre t0 : text) (ds : list (directive * text)) :
  (forall a b, pre ++ render t0 ds = a ++ b -> inside a = false) ->
  wrap_doc inside alt_of pre t0 ds = wrap_all alt_of t0 ds.
Proof.
  revert pre t0; induction ds as [|[d t] ds IH]; intros pre t0 H;
    [reflexivity|].
  cbn [wrap_doc wrap_all]. unfold piece.
  rewrite (H (pre ++ t0) (directive_text d ++ render t ds))
    by (cbn [render]; now flat).
  unfold wrap_dir. do 2 f_equal. apply IH.
  intros a b E. apply (H a b). rewrite <- E. cbn [render]. now flat.
Qed.

Lemma tex_wraps_all (t0 : text) (ds : list (directive * text)) :
  wf_doc t0 ds = true -> ~ occ TT (render t0 ds) ->
  Tex.wrap_images (render t0 ds) = wrap_all tex_alt t0 ds.
Proof.
  intros Hw Hn. rewrite tex_wrap_is_pass.
  rewrite (pass_doc tex_inside tex_alt Tex.is_already_wrapped)
    by (try assumption; intros pre s _; apply tex_wrapped_inside).
  apply wrap_doc_all. intros a b E. apply tex_outside.
  cbn [app] in E. rewrite E in Hn. now apply not_occ_prefix in Hn.
Qed.

Lemma shn_wraps_all (t0 : text) (ds : list (directive * text)) :
  wf_doc t0 ds = true -> ~ occ TT (render t0 ds) ->
  Shn.wrap_images (render t0 ds) = wrap_all shn_alt t0 ds.
Proof.
  intros Hw Hn. rewrite shn_wrap_is_pass.
  rewrite (pass_doc shn_inside shn_alt Shn.inside_tooltip)
    by (try assumption; apply shn_wrapped_inside).
  apply wrap_doc_all. intros a b E. apply shn_outside.
  cbn [app] in E. rewrite E in Hn. now apply not_occ_prefix in Hn.
Qed.

Lemma tooltip_needs_TT (b : text) :
  startswith TT b = false -> tooltip_pat b = None.
Proof.
  intros H. unfold tooltip_pat. fold TT.
  rewrite startswith_strip in H. now destruct (strip_prefix TT b).
Qed.

End PlainSourceFacts.

Module PlainSourceTheorems.
Import Py TextFacts PatternFacts ScanFacts DirectiveFacts WrapFacts
       InsideFacts AltFacts ProgramFacts ExtractFacts RoundTrip PassFacts
       PlainSourceFacts Doc Shapes Samples.

(** X1.  A text in which no argument follows the directive keyword, in
    particular a text without the keyword, is returned by [wrap_images] as
    it is, in both programs. *)
Theorem wrap_images_without_directive (t : text) :
  wf_text t = true ->
  Tex.wrap_images t = t /\ Shn.wrap_images t = t.
Proof.
  intros Hw. apply wf_doc_nil in Hw. split.
  - rewrite tex_wrap_is_pass.
    exact (pass_doc tex_inside tex_alt Tex.is_already_wrapped
                    (fun pre s _ => tex_wrapped_inside pre s) [] t [] Hw).
  - rewrite shn_wrap_is_pass.
    exact (pass_doc shn_inside shn_alt Shn.inside_tooltip
                    shn_wrapped_inside [] t [] Hw).
Qed.

Lemma wrap_images_without_directive_witness :
  wf_text (txt "Plain \textbf{text}, and \includegraphics* too.") = true
  /\ Tex.wrap_images (txt "Plain \textbf{text}, and \includegraphics* too.")
     = txt "Plain \textbf{text}, and \includegraphics* too."
  /\ Shn.wrap_images (txt "Plain \textbf{text}, and \includegraphics* too.")
     = txt "Plain \textbf{text}, and \includegraphics* too.".
Proof.
  split; [reflexivity|].
  apply (wrap_images_without_directive
           (txt "Plain \textbf{text}, and \includegraphics* too.")).
  reflexivity.
Defined.

(** X2.  On a source without a wrapper opening, [wrap_images] puts every
    directive in a wrapper, with the marker and the guess for its file
    name as the alternative text, and leaves the text around the
    directives as it is, in both programs. *)
Theorem wrap_images_wraps_every_directive (t0 : text)
        (ds : list (directive * text)) :
  wf_doc t0 ds = true ->
  contains TT (render t0 ds) = false ->
  Tex.wrap_images (render t0 ds)
  = wrap_all (fun f => Tex.ALT_MARKER ++ txt " " ++ Tex.guess_alt f) t0 ds
  /\ Shn.wrap_images (render t0 ds)
     = wrap_all (fun f => Shn.ALT_MARKER ++ txt " " ++ Shn.guess_alt f) t0 ds.
Proof.
  intros Hw Hn. apply contains_false in Hn. split.
  - now apply tex_wraps_all.
  - now apply shn_wraps_all.
Qed.

Lemma wrap_images_wraps_every_directive_witness :
  wf_doc (fst sample_doc) (snd sample_doc) = true
  /\ contains TT (render (fst sample_doc) (snd sample_doc)) = false
  /\ Tex.wrap_images (render (fst sample_doc) (snd sample_doc))
     = wrap_all (fun f => Tex.ALT_MARKER ++ txt " " ++ Tex.guess_alt f)
                (fst sample_doc) (snd sample_doc)
  /\ Shn.wrap_images (render (fst sample_doc) (snd sample_doc))
     = wrap_all (fun f => Shn.ALT_MARKER ++ txt " " ++ Shn.guess_alt f)
                (fst sample_doc) (snd sample_doc).
Proof.
  split; [reflexivity|]. split; [reflexivity|].
  apply (wrap_images_wraps_every_directive (fst sample_doc) (snd sample_doc));
    reflexivity.
Defined.

(** X3.  From a text without a wrapper opening, [extract_alt_map] reads
    the empty map, in both programs. *)
Theorem extract_alt_map_without_wrapper (t : text) :
  contains TT t = false ->
  Tex.extract_alt_map t = [] /\ Shn.extract_alt_map t = [].
Proof.
  intros Hn.
  assert (H : finditer tooltip_pat t = []).
  { apply (finditer_none tooltip_pat tooltip_progressive).
    now apply (nowhere tooltip_pat TT t tooltip_needs_TT). }
  unfold Tex.extract_alt_map, Shn.extract_alt_map. now rewrite H.
Qed.

Lemma extract_alt_map_without_wrapper_witness :
  contains TT (render (fst sample_doc) (snd sample_doc)) = false
  /\ Tex.extract_alt_map (render (fst sample_doc) (snd sample_doc)) = []
  /\ Shn.extract_alt_map (render (fst sample_doc) (snd sample_doc)) = [].
Proof.
  split; [reflexivity|].
  apply (extract_alt_map_without_wrapper
           (render (fst sample_doc) (snd sample_doc))).
  reflexivity.
Defined.

(** X4.  The map of [extract_alt_map] is keyed by the base name: of two
    wrappers whose files have the same base name, in whatever directories,
    the map holds one entry, with the alternative text of the second. *)
Theorem extract_alt_map_same_base_name (t0 t1 t2 alt_a alt_b : text)
        (da db : directive) :
  wf_text t0 = true -> wf_text t1 = true -> wf_text t2 = true ->
  wf_dir da = true -> wf_dir db = true ->
  alt_a <> [] -> ~ In "}" alt_a -> alt_b <> [] -> ~ In "}" alt_b ->
  path_name (d_fname da) = path_name (d_fname db) ->
  Tex.extract_alt_map
    (t0 ++ wrapper (opts_text da) (d_fname da) alt_a
        ++ t1 ++ wrapper (opts_text db) (d_fname db) alt_b ++ t2)
  = [(path_name (d_fname db), strip alt_b)]
  /\ Shn.extract_alt_map
       (t0 ++ wrapper (opts_text da) (d_fname da) alt_a
           ++ t1 ++ wrapper (opts_text db) (d_fname db) alt_b ++ t2)
     = [(path_name (d_fname db),
         strip (replace (txt "*\#*\#") (txt "*#*#") alt_b))].
Proof.
  intros H0 H1 H2 Ha Hb Ha1 Ha2 Hb1 Hb2 Hn.
  assert (E : forall d alt,
             wrapper (opts_text d) (d_fname d) alt
             = TT ++ directive_text d ++ closing alt).
  { intros d alt. rewrite wrapper_eq. unfold directive_text, closing.
    now flat. }
  rewrite !E. split.
  - rewrite tex_extract_is, extract_two_wrappers by assumption.
    cbn [dict_set]. now rewrite Hn, SearchFacts.text_eqb_refl.
  - rewrite shn_extract_is, extract_two_wrappers by assumption.
    cbn [dict_set]. now rewrite Hn, SearchFacts.text_eqb_refl.
Qed.

Lemma extract_alt_map_same_base_name_witness :
  Tex.extract_alt_map
    (txt "A " ++ wrapper [] (txt "old/fig.png") (txt "first")
        ++ txt " B "
        ++ wrapper (txt "[width=2in]") (txt "new/fig.png") (txt "second")
        ++ txt " C")
  = [(txt "fig.png", txt "second")]
  /\ Shn.extract_alt_map
       (txt "A " ++ wrapper [] (txt "old/fig.png") (txt "first")
           ++ txt " B "
           ++ wrapper (txt "[width=2in]") (txt "new/fig.png") (txt "second")
           ++ txt " C")
     = [(txt "fig.png", txt "second")].
Proof.
  apply (extract_alt_map_same_base_name
           (txt "A ") (txt " B ") (txt " C") (txt "first") (txt "second")
           (Dir None (txt "old/fig.png"))
           (Dir (Some (txt "width=2in")) (txt "new/fig.png")));
    try reflexivity; try discriminate;
    cbv; intuition discriminate.
Defined.

End PlainSourceTheorems.

(** ** The preamble step of [make_accessible.py], run twice *)

Module PreambleStepFacts.
Import Py TextFacts PatternFacts SearchFacts ShnPreambleFacts
       ShnPreambleFacts2 Doc.

Lemma search_from_exists (pat : pattern) (pos : nat) (a b : text) :
  pat b <> None -> search_from pat pos (a ++ b) <> None.
Proof.
  revert pos; induction a as [|c a IH]; intros pos H.
  - cbn [app]. destruct b; cbn [search_from];
      destruct (pat _) as [[[g w] r]|]; congruence.
  - cbn [app search_from].
    destruct (pat (c :: a ++ b)) as [[[g w] r]|]; [discriminate|].
    specialize (IH (S pos) H).
    destruct (search_from pat (S pos) (a ++ b)) as [[[p m] r]|];
      congruence.
Qed.

(** What a match of [pat] is made of. *)
Lemma pat_spec (prefix s : text) g w rest :
  Shn.pat prefix s = Some (g, w, rest) ->
  s = w ++ rest
  /\ nth 0 g None = Some (Shn.graphicx_line prefix)
  /\ w = Shn.graphicx_line prefix ++ Shn.hyperref_line prefix
           ++ or_empty (nth 2 g None).
Proof.
  unfold Shn.pat.
  destruct (strip_prefix (Shn.graphicx_line prefix) s) as [s1|] eqn:E1;
    [|discriminate].
  destruct (strip_prefix (Shn.hyperref_line prefix) s1) as [s2|] eqn:E2;
    [|discriminate].
  apply strip_prefix_spec in E1, E2. subst s s1.
  destruct (strip_prefix (Shn.listings_line prefix) s2) as [s3|] eqn:E3.
  - apply strip_prefix_spec in E3. subst s2.
    intros H; injection H as <- <- <-. cbn [nth].
    repeat split; [now flat|].
    assert (Hl : or_empty (Some (Shn.listings_line prefix))
                 = Shn.listings_line prefix).
    { unfold Shn.listings_line. destruct prefix; reflexivity. }
    now rewrite Hl.
  - intros H; injection H as <- <- <-. cbn [nth or_empty].
    repeat split; [now flat|]. now rewrite app_nil_r.
Qed.

(** The branch of [patch_preamble] for the pair of lines. *)
Lemma patch_preamble_pair (t prefix title pre rest : text) (m : re_match) :
  search (Shn.pat prefix) t = Some (pre, m, rest) ->
  Shn.patch_preamble t prefix title
  = pre ++ Shn.PREAMBLE_TEMPLATE prefix ++ [NL] ++ Shn.graphicx_line prefix
        ++ shn_hyperref prefix title ++ [NL] ++ or_empty (group m 3) ++ rest.
Proof.
  intros Hs. pose proof Hs as Hs'. unfold search in Hs'.
  apply search_from_some in Hs' as (g & w & Hp & Ht & Hw & Hg).
  apply pat_spec in Hp as (Hsk & Hg1 & Hww).
  unfold Shn.patch_preamble, subn_call_1. rewrite Hs.
  cbn [Nat.eqb]. unfold group_text, group. cbn [Nat.sub].
  rewrite Hg, Hg1.
  rewrite text_eqb_length; [now flat|].
  rewrite Hsk in Ht. rewrite Ht, Hww.
  pose proof (hyperref_longer prefix title) as Hl.
  repeat (rewrite ?length_app; cbn [length]). lia.
Qed.

Lemma occ_pair_search (prefix t : text) :
  occ (pair_lines prefix) t -> search (Shn.pat prefix) t <> None.
Proof.
  intros [a [b ->]]. apply search_from_exists.
  destruct (pat_pair prefix b) as [g [w [rest [H _]]]]. now rewrite H.
Qed.

End PreambleStepFacts.

Module PreambleStepTheorems.
Import Py TextFacts PatternFacts SearchFacts ShnPreambleFacts
       ShnPreambleFacts2 PreambleStepFacts Doc Samples.

(** X5.  In [make_accessible.py], on a text without a bare hyperref
    declaration the preamble step (marker check, then [patch_preamble]) run
    on its own output changes nothing: the block written after the class
    declaration passes the marker check, and a text without a class
    declaration is returned as it is. *)
Theorem shn_preamble_step_again_without_hyperref (title t : text) :
  contains bare t = false ->
  Shn.preamble_step title (Shn.preamble_step title t)
  = Shn.preamble_step title t.
Proof.
  intros Hb. unfold Shn.preamble_step.
  destruct (Shn.already_patched t) eqn:Ep; [now rewrite Ep|].
  destruct (search docclass_pat t) as [[[pre m] rest]|] eqn:Es.
  - destruct (shn_docclass_fallback t (Shn.stream_prefix t) title pre rest m
                                    Hb Es) as (_ & _ & Hp).
    now rewrite Hp.
  - assert (E : forall p, Shn.patch_preamble t p title = t).
    { intros p. rewrite patch_preamble_fallback by assumption.
      unfold sub_call_1, subn_call_1. now rewrite Es. }
    now rewrite !E, Ep.
Qed.

Lemma shn_preamble_step_again_without_hyperref_witness :
  contains bare class_only = false
  /\ Shn.preamble_step sample_title (Shn.preamble_step sample_title class_only)
     = Shn.preamble_step sample_title class_only.
Proof.
  split; [reflexivity|].
  apply (shn_preamble_step_again_without_hyperref sample_title class_only).
  reflexivity.
Defined.

(** X6.  In [make_accessible.py], on a text that holds the graphicx line
    followed by the bare hyperref line (with the stream prefix found in the
    text), the output of the preamble step passes the marker check, and
    the step run on its own output changes nothing. *)
Theorem shn_preamble_step_again_with_pair (title t : text) :
  contains (pair_lines (Shn.stream_prefix t)) t = true ->
  Shn.already_patched (Shn.preamble_step title t) = true
  /\ Shn.preamble_step title (Shn.preamble_step title t)
     = Shn.preamble_step title t.
Proof.
  intros Hc. apply contains_spec in Hc.
  assert (Hp : Shn.already_patched (Shn.preamble_step title t) = true).
  { unfold Shn.preamble_step.
    destruct (Shn.already_patched t) eqn:Ep; [assumption|].
    apply occ_pair_search in Hc.
    destruct (search (Shn.pat (Shn.stream_prefix t)) t)
      as [[[pre m] rest]|] eqn:Es; [|congruence].
    rewrite (patch_preamble_pair _ _ _ _ _ _ Es).
    apply (already_patched_block
             pre ([NL] ++ Shn.graphicx_line (Shn.stream_prefix t))
             ([NL] ++ or_empty (group m 3) ++ rest)). }
  split; [assumption|].
  unfold Shn.preamble_step at 1. now rewrite Hp.
Qed.

Lemma shn_preamble_step_again_with_pair_witness :
  contains (pair_lines (Shn.stream_prefix adjacent_pair)) adjacent_pair = true
  /\ Shn.already_patched (Shn.preamble_step sample_title adjacent_pair) = true
  /\ Shn.preamble_step sample_title
       (Shn.preamble_step sample_title adjacent_pair)
     = Shn.preamble_step sample_title adjacent_pair.
Proof.
  split; [reflexivity|].
  apply (shn_preamble_step_again_with_pair sample_title adjacent_pair).
  reflexivity.
Defined.

End PreambleStepTheorems.

(** ** The text that Pandoc reads *)

Module PandocFacts.
Import Py TextFacts PatternFacts ScanFacts DirectiveFacts WrapFacts
       InsideFacts AltFacts ProgramFacts ExtractFacts SearchFacts PassFacts
       PlainSourceFacts Doc Html Shapes.

Lemma unwrap_progressive : progressive unwrap_pat.
Proof.
  intros s g w rest. unfold unwrap_pat.
  destruct (strip_prefix _ s) as [s1|] eqn:E1; [|discriminate].
  apply strip_prefix_spec in E1 as ->.
  destruct (command _ s1) as [[[[o f] w'] r]|] eqn:E; [|discriminate].
  apply command_spec in E as (-> & _).
  destruct r as [|c r]; [discriminate|].
  destruct (ascii_dec c "}") as [->|Hc];
    [|destruct c as [[] [] [] [] [] [] [] []]; try discriminate; congruence].
  destruct (braced r) as [[a r']|] eqn:Eb; [|discriminate].
  apply braced_spec in Eb as (-> & _).
  intros H; injection H as <- <- <-. split; [|discriminate].
  cbn. now flat.
Qed.

Lemma unwrap_needs_TT (b : text) :
  startswith TT b = false -> unwrap_pat b = None.
Proof.
  intros H. unfold unwrap_pat. fold TT.
  rewrite startswith_strip in H. now destruct (strip_prefix TT b).
Qed.

Lemma unwrap_of_tooltip (s : text) :
  tooltip_pat s = None -> unwrap_pat s = None.
Proof.
  unfold tooltip_pat, unwrap_pat.
  destruct (strip_prefix _ s) as [s1|]; [|reflexivity].
  destruct (command _ s1) as [[[[o f] w'] r]|]; [|reflexivity].
  destruct r as [|c r]; [reflexivity|].
  destruct c as [[] [] [] [] [] [] [] []]; try reflexivity.
  now destruct (braced r) as [[a r']|].
Qed.

Lemma unwrap_wrapped (d : directive) (alt rest : text) :
  wf_dir d = true -> alt <> [] -> ~ In "}" alt ->
  unwrap_pat (TT ++ directive_text d ++ closing alt ++ rest)
  = Some ([Some (directive_text d)],
          TT ++ directive_text d ++ closing alt, rest).
Proof.
  intros Hd Ha Hn. unfold unwrap_pat. fold TT LIT.
  rewrite strip_prefix_app, command_dir by assumption.
  unfold closing. change (txt "}{") with ["}"; "{"]. change (txt "}") with ["}"].
  cbn [app]. rewrite <- app_assoc. cbn [app].
  rewrite braced_app by assumption. reflexivity.
Qed.

Lemma events_unwrap_text (pos : nat) (t rest : text) :
  wf_text t = true -> wrapper_seam rest ->
  events unwrap_pat pos (t ++ rest)
  = map Lit t ++ events unwrap_pat (pos + length t) rest.
Proof.
  intros Hw Hs. apply (events_prefix_lit unwrap_pat).
  intros a b -> Hb. destruct b as [|c b]; [congruence|].
  apply unwrap_of_tooltip. apply tooltip_text; [|assumption].
  clear Hs Hb. induction a as [|x a IH]; [assumption|].
  apply IH. now apply wf_text_tail in Hw.
Qed.

(** Taking the wrappers out of the wrapped document gives the document. *)
Lemma unwrap_wrap_all (alt_of : text -> text) (pos : nat) (t0 : text)
      (ds : list (directive * text)) :
  (forall d, wf_dir d = true ->
             alt_of (d_fname d) <> [] /\ ~ In "}" (alt_of (d_fname d))) ->
  wf_doc t0 ds = true ->
  emit (expand_template [TGroup 1])
       (events unwrap_pat pos (wrap_all alt_of t0 ds))
  = render t0 ds.
Proof.
  intros Halt. revert pos t0; induction ds as [|[d t] ds IH]; intros pos t0 Hw.
  - apply wf_doc_nil in Hw. cbn [wrap_all render].
    rewrite <- (app_nil_r t0) at 1.
    rewrite events_unwrap_text by (auto; now left).
    rewrite (events_nil unwrap_pat unwrap_progressive).
    rewrite app_nil_r. apply emit_map_lit.
  - apply wf_doc_cons in Hw as (H0 & Hd & Hw).
    cbn [wrap_all render].
    assert (E : wrapper (opts_text d) (d_fname d) (alt_of (d_fname d))
                = TT ++ directive_text d ++ closing (alt_of (d_fname d))).
    { rewrite wrapper_eq. unfold directive_text, closing. now flat. }
    rewrite E.
    replace ((TT ++ directive_text d ++ closing (alt_of (d_fname d)))
               ++ wrap_all alt_of t ds)
      with (TT ++ directive_text d ++ closing (alt_of (d_fname d))
               ++ wrap_all alt_of t ds) by now flat.
    rewrite events_unwrap_text by (auto; apply wrapper_seam_wrapped).
    rewrite emit_lits. f_equal.
    destruct (Halt d Hd) as [Ha Hn].
    rewrite (events_hit unwrap_pat unwrap_progressive _ _ _ _ _
                        (unwrap_wrapped d _ _ Hd Ha Hn)).
    rewrite emit_hit. rewrite IH by assumption.
    cbn. now rewrite app_nil_r.
Qed.

(** *** Lines *)

Lemma find_start (w s : text) : startswith w s = true -> find w s = Some 0.
Proof. intros H. destruct s; cbn [find]; now rewrite H. Qed.

Lemma find_le (w a r : text) :
  exists j, find w (a ++ w ++ r) = Some j /\ j <= length a.
Proof.
  induction a as [|c a IH].
  - exists 0. split; [|lia]. cbn [app]. apply find_start.
    apply startswith_spec. now exists r.
  - destruct IH as [j [Hj Hl]]. cbn [app find].
    destruct (startswith w (c :: a ++ w ++ r)).
    + exists 0. split; [reflexivity|lia].
    + exists (S j). rewrite Hj. split; [reflexivity|simpl; lia].
Qed.

Lemma find_split (w s : text) (i : nat) :
  find w s = Some i ->
  exists pre r, s = pre ++ w ++ r /\ length pre = i
                /\ skipn (i + length w) s = r.
Proof.
  intros H. apply find_first in H as [pre [s' (-> & Hl & Hs & _)]].
  apply startswith_spec in Hs as [r ->]. exists pre, r.
  repeat split; [assumption|].
  rewrite <- Hl, app_assoc, skipn_app, <- length_app.
  now rewrite skipn_all, Nat.sub_diag.
Qed.

(** Words that occur in order in the end of a line occur in order in the
    line. *)
Lemma in_order_suffix (ws : list text) (a b : text) :
  in_order ws b = true -> in_order ws (a ++ b) = true.
Proof.
  revert a b; induction ws as [|w ws IH]; intros a b H; [reflexivity|].
  cbn [in_order] in *.
  destruct (find w b) as [i|] eqn:E; [|discriminate].
  apply find_split in E as [pre [r (-> & Hl & Hr)]]. rewrite Hr in H.
  destruct (find_le w (a ++ pre) r) as [j [Hj Hle]].
  replace (a ++ pre ++ w ++ r) with ((a ++ pre) ++ w ++ r) by now flat.
  rewrite Hj.
  replace ((a ++ pre) ++ w ++ r) with (((a ++ pre) ++ w) ++ r) by now flat.
  rewrite skipn_app.
  replace (j + length w - length ((a ++ pre) ++ w)) with 0
    by (rewrite (length_app (a ++ pre) w); lia).
  now apply IH.
Qed.

Lemma in_order_occ (ws : list text) (w line : text) :
  in_order ws line = true -> In w ws -> occ w line.
Proof.
  revert line; induction ws as [|w0 ws IH]; intros line H Hin;
    [destruct Hin|].
  cbn [in_order] in H.
  destruct (find w0 line) as [i|] eqn:E; [|discriminate].
  apply find_split in E as [pre [r (-> & Hl & Hr)]]. rewrite Hr in H.
  destruct Hin as [->|Hin].
  - now exists pre, r.
  - apply (occ_suffix w (pre ++ w0) r) in IH; auto.
    now replace (pre ++ w0 ++ r) with ((pre ++ w0) ++ r) by now flat.
Qed.

Lemma line_with_progressive (ws : list text) : progressive (line_with ws).
Proof.
  intros s g w rest. unfold line_with.
  destruct (span_not NL s) as [line r] eqn:E.
  apply span_not_spec in E as (-> & Hn & Hr).
  destruct r as [|nl r]; [discriminate|].
  destruct (in_order ws line); [|discriminate].
  intros H; injection H as <- <- <-. split; [now flat|].
  destruct line; discriminate.
Qed.

Lemma line_with_line (ws : list text) (line rest : text) :
  ~ In NL line ->
  line_with ws (line ++ NL :: rest)
  = if in_order ws line then Some ([], line ++ [NL], rest) else None.
Proof. intros H. unfold line_with. now rewrite span_not_app. Qed.

Lemma line_with_last (ws : list text) (line : text) :
  ~ In NL line -> line_with ws line = None.
Proof. intros H. unfold line_with. now rewrite span_not_all. Qed.

(** A word of the pattern that the text does not hold: no match. *)
Lemma line_with_needs (ws : list text) (w s : text) :
  In w ws -> ~ occ w s -> line_with ws s = None.
Proof.
  intros Hin Hn. unfold line_with.
  destruct (span_not NL s) as [line r] eqn:E.
  apply span_not_spec in E as (-> & _ & _).
  destruct r as [|nl r]; [reflexivity|].
  destruct (in_order ws line) eqn:Eo; [|reflexivity].
  exfalso. apply Hn. apply occ_app_l. now apply (in_order_occ ws).
Qed.

Lemma removable_line (ws : list text) (cur : text) :
  removable ws (cur ++ [NL]) = in_order ws cur.
Proof.
  unfold removable. rewrite rev_app_distr. cbn [rev app].
  now rewrite rev_involutive, Ascii.eqb_refl.
Qed.

Lemma removable_last (ws : list text) (cur : text) :
  ~ In NL cur -> removable ws cur = false.
Proof.
  intros H. unfold removable. destruct (rev cur) as [|x r] eqn:E;
    [reflexivity|].
  destruct (Ascii.eqb_spec x NL) as [->|Hx]; [|reflexivity].
  exfalso. apply H. apply in_rev. rewrite E. now left.
Qed.

(** [sub] with a line pattern and the empty replacement drops the lines
    that the pattern takes; [cur] is the part of the line before [s]. *)
Lemma drop_lines_from (ws : list text) (s cur : text) (pos : nat) :
  ~ In NL cur ->
  emit (fun _ => []) (events (line_with ws) pos (cur ++ s))
  = concat (filter (fun l => negb (removable ws l)) (file_lines cur s)).
Proof.
  revert cur pos; induction s as [|c s IH]; intros cur pos Hc.
  - rewrite app_nil_r.
    rewrite (events_all_lit (line_with ws) (line_with_progressive ws))
      by (intros a b ->; apply line_with_last; intros Hi; apply Hc;
          apply in_or_app; now right).
    rewrite emit_map_lit. cbn [file_lines].
    destruct cur as [|x cur]; [reflexivity|].
    cbn [filter]. rewrite removable_last by assumption.
    cbn. now rewrite app_nil_r.
  - cbn [file_lines]. destruct (Ascii.eqb_spec c NL) as [->|Hne].
    + cbn [filter]. rewrite removable_line.
      destruct (in_order ws cur) eqn:Eo; cbn [negb concat].
      * rewrite (events_hit (line_with ws) (line_with_progressive ws)
                            pos _ [] (cur ++ [NL]) s)
          by (rewrite line_with_line by assumption; now rewrite Eo).
        rewrite emit_hit. cbn [app]. apply (IH [] _). intros [].
      * replace (cur ++ NL :: s) with ((cur ++ [NL]) ++ s) by now flat.
        rewrite (events_prefix_lit (line_with ws)).
        -- rewrite emit_lits. f_equal. apply (IH [] _). intros [].
        -- intros a b E Hb.
           destruct (exists_last Hb) as [b' [x ->]].
           rewrite app_assoc in E. apply app_inj_tail in E as [-> <-].
           replace ((b' ++ [NL]) ++ s) with (b' ++ NL :: s) by now flat.
           rewrite line_with_line
             by (intros Hi; apply Hc; apply in_or_app; now right).
           destruct (in_order ws b') eqn:Eb; [|reflexivity].
           apply (in_order_suffix ws a) in Eb. congruence.
    + replace (cur ++ c :: s) with ((cur ++ [c]) ++ s) by now flat.
      apply IH. intros Hi. apply in_app_or in Hi as [Hi|[Hi|[]]]; auto.
Qed.

Lemma sub_drop_lines (ws : list text) (t : text) :
  sub_call (line_with ws) (fun _ => []) t = drop_lines ws t.
Proof.
  rewrite (sub_call_events (line_with ws) (line_with_progressive ws)).
  apply (drop_lines_from ws t [] 0). intros [].
Qed.

Lemma filter_group_1 :
  template_filter 1 (txt "\1") = Returned (expand_template [TGroup 1]).
Proof. reflexivity. Qed.

Lemma filter_empty (n : nat) :
  template_filter n [] = Returned (fun _ => []).
Proof. reflexivity. Qed.

Lemma tex_preprocess_steps (t : text) :
  TexHtml.preprocess_for_pandoc t
  = Returned
      (drop_lines [txt "usepackage{pdfcomment}"]
         (drop_lines [txt "IfFileExists"; txt "pdfcomment"]
            (sub_call unwrap_pat (expand_template [TGroup 1]) t))).
Proof.
  unfold TexHtml.preprocess_for_pandoc, sub_template.
  rewrite filter_group_1, !filter_empty. cbn [bind].
  now rewrite !sub_drop_lines.
Qed.

Lemma shn_preprocess_steps (t : text) :
  ShnHtml.preprocess_for_pandoc t
  = Returned
      (drop_lines [txt "usepackage{pdfcomment}"]
         (drop_lines [txt "IfFileExists"; txt "pdfcomment"]
            (sub_call unwrap_pat (expand_template [TGroup 1]) t))).
Proof.
  unfold ShnHtml.preprocess_for_pandoc, sub_template.
  rewrite filter_group_1, !filter_empty. cbn [bind].
  now rewrite !sub_drop_lines.
Qed.

Lemma unwrap_plain (t : text) :
  contains TT t = false ->
  sub_call unwrap_pat (expand_template [TGroup 1]) t = t.
Proof.
  intros H. apply (sub_call_none unwrap_pat unwrap_progressive).
  now apply (nowhere unwrap_pat TT t unwrap_needs_TT).
Qed.

Lemma occ_inner (a w b s : text) : occ (a ++ w ++ b) s -> occ w s.
Proof.
  intros [x [y ->]]. exists (x ++ a), (b ++ y). now flat.
Qed.

Lemma drop_lines_plain (ws : list text) (w t : text) :
  In w ws -> ~ occ w t -> drop_lines ws t = t.
Proof.
  intros Hin Hn. rewrite <- sub_drop_lines.
  apply (sub_call_none (line_with ws) (line_with_progressive ws)).
  intros a b ->. apply (line_with_needs ws w); [assumption|].
  intros Ho. apply Hn. now apply occ_suffix.
Qed.

Lemma preprocess_plain (t : text) :
  contains TT t = false -> contains (txt "pdfcomment") t = false ->
  drop_lines [txt "usepackage{pdfcomment}"]
    (drop_lines [txt "IfFileExists"; txt "pdfcomment"]
       (sub_call unwrap_pat (expand_template [TGroup 1]) t)) = t.
Proof.
  intros Ht Hp. apply contains_false in Hp. rewrite unwrap_plain by assumption.
  rewrite (drop_lines_plain [txt "IfFileExists"; txt "pdfcomment"]
                            (txt "pdfcomment") t);
    [|right; now left|assumption].
  apply (drop_lines_plain _ (txt "usepackage{pdfcomment}")); [now left|].
  intros Ho. apply Hp.
  now apply (occ_inner (txt "usepackage{") (txt "pdfcomment") (txt "}")).
Qed.

Lemma tex_alt_fits (d : directive) :
  wf_dir d = true ->
  tex_alt (d_fname d) <> [] /\ ~ In "}" (tex_alt (d_fname d)).
Proof.
  intros Hd. split; [apply RoundTrip.alt_nonempty_tex|].
  intros Hi. apply (tex_alt_keeps "}") in Hi; [|now right].
  revert Hi. apply plain_fname; [assumption|now right].
Qed.

Lemma shn_alt_fits (d : directive) :
  wf_dir d = true ->
  shn_alt (d_fname d) <> [] /\ ~ In "}" (shn_alt (d_fname d)).
Proof.
  intros Hd. split; [apply RoundTrip.alt_nonempty_shn|].
  intros Hi. apply (shn_alt_keeps "}") in Hi; [|now right].
  revert Hi. apply plain_fname; [assumption|now right].
Qed.

Lemma unwrap_wrapped_doc (alt_of : text -> text) (t0 : text)
      (ds : list (directive * text)) :
  (forall d, wf_dir d = true ->
             alt_of (d_fname d) <> [] /\ ~ In "}" (alt_of (d_fname d))) ->
  wf_doc t0 ds = true ->
  sub_call unwrap_pat (expand_template [TGroup 1]) (wrap_all alt_of t0 ds)
  = render t0 ds.
Proof.
  intros Ha Hw. rewrite (sub_call_events unwrap_pat unwrap_progressive).
  now apply unwrap_wrap_all.
Qed.

End PandocFacts.

Module PandocTheorems.
Import Py TextFacts PatternFacts ScanFacts DirectiveFacts WrapFacts
       ProgramFacts PassFacts PlainSourceFacts PandocFacts
       Doc Html Shapes Samples.

(** X7.  A text that holds neither a wrapper opening nor the word
    [pdfcomment] is what Pandoc reads: [preprocess_for_pandoc] returns it
    as it is, in both programs. *)
Theorem preprocess_for_pandoc_plain (t : text) :
  contains TT t = false ->
  contains (txt "pdfcomment") t = false ->
  TexHtml.preprocess_for_pandoc t = Returned t
  /\ ShnHtml.preprocess_for_pandoc t = Returned t.
Proof.
  intros Ht Hp. rewrite tex_preprocess_steps, shn_preprocess_steps.
  now rewrite preprocess_plain.
Qed.

Lemma preprocess_for_pandoc_plain_witness :
  contains TT (render (fst sample_doc) (snd sample_doc)) = false
  /\ contains (txt "pdfcomment") (render (fst sample_doc) (snd sample_doc))
     = false
  /\ TexHtml.preprocess_for_pandoc (render (fst sample_doc) (snd sample_doc))
     = Returned (render (fst sample_doc) (snd sample_doc))
  /\ ShnHtml.preprocess_for_pandoc (render (fst sample_doc) (snd sample_doc))
     = Returned (render (fst sample_doc) (snd sample_doc)).
Proof.
  split; [reflexivity|]. split; [reflexivity|].
  apply (preprocess_for_pandoc_plain
           (render (fst sample_doc) (snd sample_doc))); reflexivity.
Defined.

(** X8.  On a text without a wrapper opening, [preprocess_for_pandoc]
    removes whole lines and nothing else: first the lines, newline
    included, that hold [IfFileExists] and after it [pdfcomment], then
    those that hold [usepackage{pdfcomment}]; a last line without a
    newline stays, in both programs. *)
Theorem preprocess_for_pandoc_drops_lines (t : text) :
  contains TT t = false ->
  TexHtml.preprocess_for_pandoc t
  = Returned (drop_lines [txt "usepackage{pdfcomment}"]
                (drop_lines [txt "IfFileExists"; txt "pdfcomment"] t))
  /\ ShnHtml.preprocess_for_pandoc t
     = Returned (drop_lines [txt "usepackage{pdfcomment}"]
                   (drop_lines [txt "IfFileExists"; txt "pdfcomment"] t)).
Proof.
  intros Ht. rewrite tex_preprocess_steps, shn_preprocess_steps.
  now rewrite unwrap_plain.
Qed.

Lemma preprocess_for_pandoc_drops_lines_witness :
  contains TT preamble_lines = false
  /\ TexHtml.preprocess_for_pandoc preamble_lines
     = Returned (txt "\documentclass{article}" ++ [NL]
                   ++ txt "\begin{document}" ++ [NL]
                   ++ txt "% \usepackage{pdfcomment}")
  /\ ShnHtml.preprocess_for_pandoc preamble_lines
     = Returned (txt "\documentclass{article}" ++ [NL]
                   ++ txt "\begin{document}" ++ [NL]
                   ++ txt "% \usepackage{pdfcomment}").
Proof.
  split; [reflexivity|].
  apply (preprocess_for_pandoc_drops_lines preamble_lines). reflexivity.
Defined.

(** X9.  Wrapping does not change what Pandoc reads: on a source without
    a wrapper opening, [preprocess_for_pandoc] gives for the output of
    [wrap_images] what it gives for the source, in both programs. *)
Theorem preprocess_for_pandoc_undoes_wrap (t0 : text)
        (ds : list (directive * text)) :
  wf_doc t0 ds = true ->
  contains TT (render t0 ds) = false ->
  TexHtml.preprocess_for_pandoc (Tex.wrap_images (render t0 ds))
  = TexHtml.preprocess_for_pandoc (render t0 ds)
  /\ ShnHtml.preprocess_for_pandoc (Shn.wrap_images (render t0 ds))
     = ShnHtml.preprocess_for_pandoc (render t0 ds).
Proof.
  intros Hw Hn. pose proof Hn as Hn'. apply contains_false in Hn'.
  split.
  - rewrite !tex_preprocess_steps, tex_wraps_all by assumption.
    rewrite unwrap_wrapped_doc by (try assumption; apply tex_alt_fits).
    now rewrite unwrap_plain.
  - rewrite !shn_preprocess_steps, shn_wraps_all by assumption.
    rewrite unwrap_wrapped_doc by (try assumption; apply shn_alt_fits).
    now rewrite unwrap_plain.
Qed.

Lemma preprocess_for_pandoc_undoes_wrap_witness :
  wf_doc (fst sample_doc) (snd sample_doc) = true
  /\ contains TT (render (fst sample_doc) (snd sample_doc)) = false
  /\ TexHtml.preprocess_for_pandoc
       (Tex.wrap_images (render (fst sample_doc) (snd sample_doc)))
     = TexHtml.preprocess_for_pandoc (render (fst sample_doc) (snd sample_doc))
  /\ ShnHtml.preprocess_for_pandoc
       (Shn.wrap_images (render (fst sample_doc) (snd sample_doc)))
     = ShnHtml.preprocess_for_pandoc (render (fst sample_doc) (snd sample_doc)).
Proof.
  split; [reflexivity|]. split; [reflexivity|].
  apply (preprocess_for_pandoc_undoes_wrap (fst sample_doc) (snd sample_doc));
    reflexivity.
Defined.

End PandocTheorems.

(** ** Alternative texts in the HTML page *)

Module PageFacts.
Import Py TextFacts PatternFacts ScanFacts DirectiveFacts WrapFacts
       SearchFacts PassFacts Doc Html Shapes.

Lemma img_progressive : progressive img_pat.
Proof.
  intros s g w rest. unfold img_pat.
  destruct (strip_prefix _ s) as [r|] eqn:E; [|discriminate].
  apply strip_prefix_spec in E as ->.
  destruct (span_not ">" r) as [body r2] eqn:Es.
  apply span_not_spec in Es as (-> & _ & _).
  destruct body as [|b body]; [discriminate|].
  destruct r2 as [|c r2]; [discriminate|].
  destruct (ascii_dec c ">") as [->|Hc];
    [|destruct c as [[] [] [] [] [] [] [] []]; try discriminate; congruence].
  intros H; injection H as <- <- <-. split; [|discriminate].
  cbn. now flat.
Qed.

Lemma img_needs_IMG (b : text) :
  startswith IMG b = false -> img_pat b = None.
Proof.
  intros H. unfold img_pat. fold IMG.
  rewrite startswith_strip in H. now destruct (strip_prefix IMG b).
Qed.

Lemma wf_body_spec (body : text) :
  wf_body body = true <-> body <> [] /\ ~ In ">" body.
Proof.
  unfold wf_body. rewrite andb_true_iff, lacks_spec.
  destruct body; intuition congruence.
Qed.

Lemma img_tag (body rest : text) :
  wf_body body = true ->
  img_pat (tag_text body ++ rest) = Some ([], tag_text body, rest).
Proof.
  intros Hb. apply wf_body_spec in Hb as [Hne Hn].
  unfold img_pat, tag_text. fold IMG.
  replace ((IMG ++ body ++ [">"]) ++ rest) with (IMG ++ body ++ ">" :: rest)
    by now flat.
  rewrite strip_prefix_app, span_not_app by assumption.
  destruct body; [congruence|reflexivity].
Qed.

Lemma IMG_cons : IMG = "<" :: txt "img ".
Proof. reflexivity. Qed.

Lemma img_text (c : ascii) (t rest : text) :
  ~ occ IMG (c :: t) -> tag_seam rest -> img_pat ((c :: t) ++ rest) = None.
Proof.
  intros Hn Hs. apply img_needs_IMG.
  destruct (startswith IMG ((c :: t) ++ rest)) eqn:E; [|reflexivity].
  exfalso. apply startswith_spec in E as [r E].
  change (IMG ++ r) with ([] ++ IMG ++ r) in E.
  apply occ_app_at in E as [[b' [E _]]|[[a' [_ E]]|H]].
  - apply Hn. now exists [], b'.
  - discriminate.
  - destruct H as [l1 [l2 H]].
    apply (no_straddle_head "<" (txt "img ") (c :: t) rest).
    + cbv. intuition discriminate.
    + exact Hs.
    + rewrite <- IMG_cons. now exists l1, l2, [], r.
Qed.

Lemma events_img_text (pos : nat) (t rest : text) :
  contains IMG t = false -> tag_seam rest ->
  events img_pat pos (t ++ rest)
  = map Lit t ++ events img_pat (pos + length t) rest.
Proof.
  intros Hn Hs. apply contains_false in Hn.
  apply (events_prefix_lit img_pat).
  intros a b -> Hb. destruct b as [|c b]; [congruence|].
  apply img_text; [|assumption].
  intros Ho. apply Hn. now apply occ_suffix.
Qed.

Lemma wf_page_cons h0 b h ts :
  wf_page h0 ((b, h) :: ts) = true <->
  contains IMG h0 = false /\ wf_body b = true /\ wf_page h ts = true.
Proof.
  unfold wf_page. cbn [forallb fst snd].
  rewrite !andb_true_iff, !negb_true_iff. tauto.
Qed.

Lemma wf_page_nil h0 : wf_page h0 [] = true <-> contains IMG h0 = false.
Proof.
  unfold wf_page. cbn [forallb]. now rewrite andb_true_r, negb_true_iff.
Qed.

Lemma tag_seam_tag (body rest : text) : tag_seam (tag_text body ++ rest).
Proof. right. unfold tag_text. rewrite IMG_cons. cbn. eauto. Qed.

(** A pass over a page: the texts are copied, every tag is replaced. *)
Lemma emit_page (repl : re_match -> text) (nb : text -> text)
      (pos : nat) (h0 : text) (ts : list (text * text)) :
  (forall m b, m_group0 m = tag_text b -> repl m = tag_text (nb b)) ->
  wf_page h0 ts = true ->
  emit repl (events img_pat pos (render_page h0 ts))
  = render_page h0 (map (fun bh => (nb (fst bh), snd bh)) ts).
Proof.
  intros Hr. revert pos h0; induction ts as [|[b h] ts IH]; intros pos h0 Hw.
  - apply wf_page_nil in Hw. cbn [render_page map].
    rewrite <- (app_nil_r h0) at 1.
    rewrite events_img_text by (auto; now left).
    rewrite (events_nil img_pat img_progressive), app_nil_r.
    apply emit_map_lit.
  - apply wf_page_cons in Hw as (H0 & Hb & Hw).
    cbn [render_page map fst snd].
    rewrite events_img_text by (auto; apply tag_seam_tag).
    rewrite emit_lits. f_equal.
    rewrite (events_hit img_pat img_progressive _ _ _ _ _ (img_tag b _ Hb)).
    rewrite emit_hit, (Hr _ b) by reflexivity.
    now rewrite IH.
Qed.

Lemma img_with_alt_tag (alt body : text) :
  img_with_alt alt (tag_text body) = tag_text (alt_attr alt ++ body).
Proof.
  unfold img_with_alt, tag_text, alt_attr. fold IMG.
  destruct (IMG ++ body ++ [">"]) as [|c s] eqn:E; [discriminate|].
  cbn [replace_first]. rewrite <- E, strip_prefix_app.
  unfold IMG. cbn. now flat.
Qed.

Lemma tex_add_alt_tag (alt_map : dict) (m : re_match) (body : text) :
  m_group0 m = tag_text body ->
  TexHtml.add_alt alt_map m = tag_text (new_body alt_map body).
Proof.
  intros E. unfold TexHtml.add_alt, new_body, alt_for. rewrite E.
  destruct (search src_pat (tag_text body)) as [[[pre sm] rest]|];
    [|reflexivity].
  destruct (contains (txt "alt=") (tag_text body)); [reflexivity|].
  destruct (get_or_empty alt_map _); [reflexivity|].
  apply img_with_alt_tag.
Qed.

Lemma shn_add_alt_tag (alt_map : dict) (m : re_match) (body : text) :
  m_group0 m = tag_text body ->
  ShnHtml.add_alt alt_map m = tag_text (new_body alt_map body).
Proof.
  intros E. unfold ShnHtml.add_alt, new_body, alt_for. rewrite E.
  destruct (search src_pat (tag_text body)) as [[[pre sm] rest]|];
    [|reflexivity].
  destruct (contains (txt "alt=") (tag_text body)); [reflexivity|].
  destruct (get_or_empty alt_map _); [reflexivity|].
  apply img_with_alt_tag.
Qed.

Lemma tex_page (alt_map : dict) (h0 : text) (ts : list (text * text)) :
  wf_page h0 ts = true ->
  TexHtml.postprocess_html (render_page h0 ts) alt_map
  = render_page h0 (new_tags alt_map ts).
Proof.
  intros Hw. unfold TexHtml.postprocess_html.
  rewrite (sub_call_events img_pat img_progressive).
  apply emit_page; [|assumption]. intros m b. apply tex_add_alt_tag.
Qed.

Lemma shn_page (alt_map : dict) (h0 : text) (ts : list (text * text)) :
  wf_page h0 ts = true ->
  ShnHtml.postprocess_html (render_page h0 ts) alt_map
  = render_page h0 (new_tags alt_map ts).
Proof.
  intros Hw. unfold ShnHtml.postprocess_html.
  rewrite (sub_call_events img_pat img_progressive).
  apply emit_page; [|assumption]. intros m b. apply shn_add_alt_tag.
Qed.

(** *** The second run *)

Lemma dict_get_pair (d : dict) (k v : text) :
  dict_get d k = Some v -> exists k', In (k', v) d.
Proof.
  induction d as [|[k' v'] d IH]; [discriminate|]. cbn [dict_get].
  destruct (text_eqb k k').
  - intros H; injection H as ->. exists k'. now left.
  - intros H. destruct (IH H) as [k2 H2]. exists k2. now right.
Qed.

Lemma alt_for_plain (alt_map : dict) (body : text) :
  plain_values alt_map -> ~ In ">" (alt_for alt_map body).
Proof.
  intros Hp. unfold alt_for.
  destruct (search src_pat (tag_text body)) as [[[pre sm] rest]|];
    [|intros []].
  destruct (contains (txt "alt=") (tag_text body)); [intros []|].
  unfold get_or_empty.
  destruct (dict_get alt_map _) as [v|] eqn:E; [|intros []].
  apply dict_get_pair in E as [k' E]. now apply (Hp k').
Qed.

Lemma alt_attr_holds (alt body : text) :
  contains (txt "alt=") (tag_text (alt_attr alt ++ body)) = true.
Proof.
  apply contains_spec. exists IMG, ([DQ] ++ alt ++ [DQ] ++ txt " " ++ body ++ [">"]).
  unfold tag_text, alt_attr. now flat.
Qed.

Lemma new_body_wf (alt_map : dict) (body : text) :
  plain_values alt_map -> wf_body body = true ->
  wf_body (new_body alt_map body) = true.
Proof.
  intros Hp Hb. unfold new_body.
  pose proof (alt_for_plain alt_map body Hp) as Ha.
  destruct (alt_for alt_map body) as [|a alt]; [assumption|].
  apply wf_body_spec in Hb as [_ Hn]. apply wf_body_spec.
  split; [discriminate|]. unfold alt_attr. intros Hi.
  repeat (apply in_app_or in Hi as [Hi|Hi]);
    try (cbv in Hi; intuition discriminate); auto.
Qed.

Lemma new_body_again (alt_map : dict) (body : text) :
  new_body alt_map (new_body alt_map body) = new_body alt_map body.
Proof.
  assert (H : new_body alt_map body = body
              \/ exists a, new_body alt_map body = alt_attr a ++ body).
  { unfold new_body. destruct (alt_for alt_map body); [now left|].
    right. eauto. }
  destruct H as [H|[a H]]; rewrite H; [exact H|].
  unfold new_body, alt_for.
  destruct (search src_pat _) as [[[pre sm] rest]|]; [|reflexivity].
  now rewrite alt_attr_holds.
Qed.

Lemma new_tags_wf (alt_map : dict) (h0 : text) (ts : list (text * text)) :
  plain_values alt_map -> wf_page h0 ts = true ->
  wf_page h0 (new_tags alt_map ts) = true.
Proof.
  intros Hp. revert h0; induction ts as [|[b h] ts IH]; intros h0 Hw;
    [assumption|].
  apply wf_page_cons in Hw as (H0 & Hb & Hw).
  cbn [new_tags map fst snd]. apply wf_page_cons.
  repeat split; [assumption|now apply new_body_wf|now apply IH].
Qed.

Lemma new_tags_again (alt_map : dict) (ts : list (text * text)) :
  new_tags alt_map (new_tags alt_map ts) = new_tags alt_map ts.
Proof.
  unfold new_tags. rewrite map_map. apply map_ext. intros [b h].
  cbn [fst snd]. now rewrite new_body_again.
Qed.

(** A tag that holds [alt=] is left alone. *)
Lemma new_body_kept (alt_map : dict) (body : text) :
  contains (txt "alt=") body = true -> new_body alt_map body = body.
Proof.
  intros H. unfold new_body, alt_for.
  destruct (search src_pat _) as [[[pre sm] rest]|]; [|reflexivity].
  assert (E : contains (txt "alt=") (tag_text body) = true).
  { apply contains_spec. apply contains_spec in H. unfold tag_text.
    apply occ_suffix. now apply occ_app_l. }
  now rewrite E.
Qed.

Lemma src_pat_head (x : ascii) (r : text) :
  x <> "s" -> src_pat (x :: r) = None.
Proof.
  intros H. unfold src_pat. cbn [txt list_ascii_of_string app strip_prefix].
  destruct (Ascii.eqb_spec "s" x); [congruence|reflexivity].
Qed.

(** The first [src] value of a tag that starts with the attribute. *)
Lemma search_src (p c : text) :
  p <> [] -> ~ In DQ p ->
  exists pre m rest,
    search src_pat (tag_text (src_attr p ++ c)) = Some (pre, m, rest)
    /\ group_text m 1 = p.
Proof.
  intros Hne Hn. unfold tag_text, src_attr, search.
  assert (Hs : src_pat (txt "src=" ++ [DQ] ++ p ++ DQ :: c ++ [">"])
               = Some ([Some p], txt "src=" ++ [DQ] ++ p ++ [DQ],
                       c ++ [">"])).
  { unfold src_pat.
    change (txt "src=" ++ [DQ] ++ p ++ DQ :: c ++ [">"])
      with ((txt "src=" ++ [DQ]) ++ p ++ DQ :: c ++ [">"]).
    rewrite strip_prefix_app.
    rewrite span_not_app by assumption.
    destruct p; [congruence|reflexivity]. }
  eexists IMG, _, _. split.
  - replace (IMG ++ ((txt "src=" ++ [DQ] ++ p ++ [DQ]) ++ c) ++ [">"])
      with (IMG ++ txt "src=" ++ [DQ] ++ p ++ DQ :: c ++ [">"])
      by now flat.
    apply search_from_first; [|exact Hs].
    intros a b E Hb. destruct b as [|x b]; [congruence|].
    apply src_pat_head. intros ->.
    assert (Hi : In "s" IMG) by (rewrite E; apply in_or_app; right; now left).
    cbv in Hi. intuition discriminate.
  - reflexivity.
Qed.

End PageFacts.

Module PageTheorems.
Import Py TextFacts PatternFacts ScanFacts SearchFacts PassFacts PageFacts
       Doc Html Shapes.

(** X10.  With an empty map [postprocess_html] returns the page as it
    is, whatever the page, in both programs. *)
Theorem postprocess_html_empty_map (html : text) :
  TexHtml.postprocess_html html [] = html
  /\ ShnHtml.postprocess_html html [] = html.
Proof.
  split.
  - apply (sub_call_same img_pat img_progressive). intros m.
    unfold TexHtml.add_alt.
    destruct (search src_pat (m_group0 m)) as [[[pre sm] rest]|];
      [|reflexivity].
    now destruct (contains (txt "alt=") (m_group0 m)).
  - apply (sub_call_same img_pat img_progressive). intros m.
    unfold ShnHtml.add_alt.
    destruct (search src_pat (m_group0 m)) as [[[pre sm] rest]|];
      [|reflexivity].
    now destruct (contains (txt "alt=") (m_group0 m)).
Qed.

(** X11.  [postprocess_html] leaves the text around the [img] tags as it
    is and rewrites the tags one by one: a tag is kept, or gets the [alt]
    attribute written right after [<img ], with the text that the map has
    for the base name of its first [src] value, in both programs. *)
Theorem postprocess_html_tag_by_tag (alt_map : dict) (h0 : text)
        (ts : list (text * text)) :
  wf_page h0 ts = true ->
  TexHtml.postprocess_html (render_page h0 ts) alt_map
  = render_page h0 (new_tags alt_map ts)
  /\ ShnHtml.postprocess_html (render_page h0 ts) alt_map
     = render_page h0 (new_tags alt_map ts).
Proof.
  intros Hw. split; [now apply tex_page|now apply shn_page].
Qed.

Lemma postprocess_html_tag_by_tag_witness :
  wf_page (fst sample_page) (snd sample_page) = true
  /\ TexHtml.postprocess_html
       (render_page (fst sample_page) (snd sample_page)) sample_alt_map
     = render_page (fst sample_page) (new_tags sample_alt_map (snd sample_page))
  /\ ShnHtml.postprocess_html
       (render_page (fst sample_page) (snd sample_page)) sample_alt_map
     = render_page (fst sample_page) (new_tags sample_alt_map (snd sample_page)).
Proof.
  split; [reflexivity|].
  apply (postprocess_html_tag_by_tag sample_alt_map (fst sample_page)
                                     (snd sample_page)).
  reflexivity.
Defined.

(** X12.  When no alternative text of the map holds [>],
    [postprocess_html] run on its own output changes nothing: the tags it
    has written hold [alt=] and are left alone, in both programs. *)
Theorem postprocess_html_idempotent (alt_map : dict) (h0 : text)
        (ts : list (text * text)) :
  wf_page h0 ts = true ->
  plain_values alt_map ->
  TexHtml.postprocess_html
    (TexHtml.postprocess_html (render_page h0 ts) alt_map) alt_map
  = TexHtml.postprocess_html (render_page h0 ts) alt_map
  /\ ShnHtml.postprocess_html
       (ShnHtml.postprocess_html (render_page h0 ts) alt_map) alt_map
     = ShnHtml.postprocess_html (render_page h0 ts) alt_map.
Proof.
  intros Hw Hp. split.
  - rewrite (tex_page alt_map h0 ts Hw).
    rewrite tex_page by now apply new_tags_wf.
    now rewrite new_tags_again.
  - rewrite (shn_page alt_map h0 ts Hw).
    rewrite shn_page by now apply new_tags_wf.
    now rewrite new_tags_again.
Qed.

Lemma sample_alt_map_plain : plain_values sample_alt_map.
Proof.
  intros k v [H|[H|[]]]; injection H as _ <-; cbv; intuition discriminate.
Defined.

Lemma postprocess_html_idempotent_witness :
  wf_page (fst sample_page) (snd sample_page) = true
  /\ TexHtml.postprocess_html
       (TexHtml.postprocess_html
          (render_page (fst sample_page) (snd sample_page)) sample_alt_map)
       sample_alt_map
     = TexHtml.postprocess_html
         (render_page (fst sample_page) (snd sample_page)) sample_alt_map
  /\ ShnHtml.postprocess_html
       (ShnHtml.postprocess_html
          (render_page (fst sample_page) (snd sample_page)) sample_alt_map)
       sample_alt_map
     = ShnHtml.postprocess_html
         (render_page (fst sample_page) (snd sample_page)) sample_alt_map.
Proof.
  split; [reflexivity|].
  apply (postprocess_html_idempotent sample_alt_map (fst sample_page)
                                     (snd sample_page));
    [reflexivity|exact sample_alt_map_plain].
Defined.

(** X13.  [postprocess_html] never replaces an alternative text that is
    there: a page whose tags all hold [alt=] is returned as it is,
    whatever the map, in both programs. *)
Theorem postprocess_html_keeps_alt (alt_map : dict) (h0 : text)
        (ts : list (text * text)) :
  wf_page h0 ts = true ->
  forallb (fun bh => contains (txt "alt=") (fst bh)) ts = true ->
  TexHtml.postprocess_html (render_page h0 ts) alt_map = render_page h0 ts
  /\ ShnHtml.postprocess_html (render_page h0 ts) alt_map
     = render_page h0 ts.
Proof.
  intros Hw Ha.
  assert (E : new_tags alt_map ts = ts).
  { clear Hw. induction ts as [|[b h] ts IH]; [reflexivity|].
    cbn [forallb fst] in Ha. apply andb_true_iff in Ha as [Hb Ha].
    cbn [new_tags map fst snd]. rewrite new_body_kept by assumption.
    f_equal. now apply IH. }
  split.
  - now rewrite tex_page, E.
  - now rewrite shn_page, E.
Qed.

Lemma postprocess_html_keeps_alt_witness :
  wf_page (txt "<p>") [(alt_attr (txt "Kept") ++ src_attr (txt "b.png"),
                        txt "</p>")] = true
  /\ TexHtml.postprocess_html
       (render_page (txt "<p>")
          [(alt_attr (txt "Kept") ++ src_attr (txt "b.png"), txt "</p>")])
       sample_alt_map
     = render_page (txt "<p>")
         [(alt_attr (txt "Kept") ++ src_attr (txt "b.png"), txt "</p>")]
  /\ ShnHtml.postprocess_html
       (render_page (txt "<p>")
          [(alt_attr (txt "Kept") ++ src_attr (txt "b.png"), txt "</p>")])
       sample_alt_map
     = render_page (txt "<p>")
         [(alt_attr (txt "Kept") ++ src_attr (txt "b.png"), txt "</p>")].
Proof.
  split; [reflexivity|].
  apply (postprocess_html_keeps_alt sample_alt_map (txt "<p>")
           [(alt_attr (txt "Kept") ++ src_attr (txt "b.png"), txt "</p>")]);
    reflexivity.
Defined.

(** X14.  A tag that starts with its [src] attribute and does not hold
    [alt=], for a file whose base name has a non-empty text in the map:
    [postprocess_html] writes that text as the [alt] attribute, before the
    [src] attribute, and changes nothing else, in both programs. *)
Theorem postprocess_html_adds_alt (alt_map : dict) (h0 h1 p c alt : text) :
  contains IMG h0 = false -> contains IMG h1 = false ->
  p <> [] -> ~ In DQ p -> ~ In ">" p -> ~ In ">" c ->
  contains (txt "alt=") (tag_text (src_attr p ++ c)) = false ->
  dict_get alt_map (path_name p) = Some alt -> alt <> [] ->
  TexHtml.postprocess_html (h0 ++ tag_text (src_attr p ++ c) ++ h1) alt_map
  = h0 ++ tag_text (alt_attr alt ++ src_attr p ++ c) ++ h1
  /\ ShnHtml.postprocess_html (h0 ++ tag_text (src_attr p ++ c) ++ h1)
                              alt_map
     = h0 ++ tag_text (alt_attr alt ++ src_attr p ++ c) ++ h1.
Proof.
  intros H0 H1 Hne Hq Hp Hc Ha Hd Halt.
  assert (Hw : wf_page h0 [(src_attr p ++ c, h1)] = true).
  { apply wf_page_cons. repeat split; [assumption| |now apply wf_page_nil].
    apply wf_body_spec. split; [discriminate|].
    unfold src_attr. intros Hi.
    repeat (apply in_app_or in Hi as [Hi|Hi]);
      try (cbv in Hi; intuition discriminate); auto. }
  assert (E : new_body alt_map (src_attr p ++ c)
              = alt_attr alt ++ src_attr p ++ c).
  { unfold new_body, alt_for.
    destruct (search_src p c Hne Hq) as [pre [m [rest [-> Hg]]]].
    rewrite Ha, Hg. unfold get_or_empty. rewrite Hd.
    destruct alt; [congruence|reflexivity]. }
  split.
  - pose proof (tex_page alt_map h0 [(src_attr p ++ c, h1)] Hw) as Ht.
    cbn [new_tags map fst snd render_page] in Ht. now rewrite E in Ht.
  - pose proof (shn_page alt_map h0 [(src_attr p ++ c, h1)] Hw) as Ht.
    cbn [new_tags map fst snd render_page] in Ht. now rewrite E in Ht.
Qed.

Lemma postprocess_html_adds_alt_witness :
  TexHtml.postprocess_html
    (txt "<p>" ++ tag_text (src_attr (txt "figs/a.png") ++ txt " /")
       ++ txt "</p>") sample_alt_map
  = txt "<p>"
      ++ tag_text (alt_attr (txt "A plot") ++ src_attr (txt "figs/a.png")
                     ++ txt " /")
      ++ txt "</p>"
  /\ ShnHtml.postprocess_html
       (txt "<p>" ++ tag_text (src_attr (txt "figs/a.png") ++ txt " /")
          ++ txt "</p>") sample_alt_map
     = txt "<p>"
         ++ tag_text (alt_attr (txt "A plot") ++ src_attr (txt "figs/a.png")
                        ++ txt " /")
         ++ txt "</p>".
Proof.
  apply (postprocess_html_adds_alt sample_alt_map (txt "<p>") (txt "</p>")
           (txt "figs/a.png") (txt " /") (txt "A plot"));
    try reflexivity; try discriminate; cbv; intuition discriminate.
Defined.

End PageTheorems.

(** ** Titles *)

Module TitleFacts.
Import Py TextFacts PatternFacts ScanFacts DirectiveFacts WrapFacts
       SearchFacts PassFacts AltFacts PandocFacts Doc Html Shapes.

Lemma span_while_app (f : ascii -> bool) (a : text) (c : ascii) (r : text) :
  forallb f a = true -> f c = false ->
  span_while f (a ++ c :: r) = (a, c :: r).
Proof.
  intros Ha Hc. induction a as [|x a IH]; cbn [app span_while].
  - now rewrite Hc.
  - cbn [forallb] in Ha. apply andb_true_iff in Ha as [Hx Ha].
    now rewrite Hx, IH.
Qed.

Lemma span_while_all (f : ascii -> bool) (a : text) :
  forallb f a = true -> span_while f a = (a, []).
Proof.
  intros Ha. induction a as [|x a IH]; [reflexivity|].
  cbn [forallb] in Ha. apply andb_true_iff in Ha as [Hx Ha].
  cbn [span_while]. now rewrite Hx, IH.
Qed.

Lemma span_while_spec (f : ascii -> bool) (s a b : text) :
  span_while f s = (a, b) ->
  s = a ++ b /\ forallb f a = true
  /\ (b = [] \/ exists c b', b = c :: b' /\ f c = false).
Proof.
  revert a b; induction s as [|x s IH]; intros a b; cbn [span_while].
  - intros H; injection H as <- <-. auto.
  - destruct (f x) eqn:Ex.
    + destruct (span_while f s) as [a' b'].
      intros H; injection H as <- <-.
      destruct (IH a' b' eq_refl) as (-> & Ha & Hb).
      cbn [forallb]. rewrite Ex, Ha. auto.
    + intros H; injection H as <- <-. repeat split. right. eauto.
Qed.

Lemma no_backslash (t : text) : ~ In "\" t -> contains ["\"] t = false.
Proof.
  intros H. apply contains_false. intros [a [b ->]]. apply H.
  apply in_or_app. right. now left.
Qed.

(** *** The patterns of [get_title] *)

Lemma TITLE_cons : TITLE = "\" :: txt "title{".
Proof. reflexivity. Qed.

Lemma title_needs (b : text) :
  startswith TITLE b = false -> TexHtml.title_pat b = None.
Proof.
  intros H. unfold TexHtml.title_pat.
  destruct (strip_prefix (txt "\title") b) as [s1|] eqn:E1; [|reflexivity].
  apply strip_prefix_spec in E1 as ->.
  destruct (braced s1) as [[f r]|] eqn:Eb; [|reflexivity].
  apply braced_spec in Eb as (-> & _). discriminate.
Qed.

Lemma title_here (T rest : text) :
  T <> [] -> ~ In "}" T ->
  TexHtml.title_pat (TITLE ++ T ++ "}" :: rest)
  = Some ([Some T], TITLE ++ T ++ txt "}", rest).
Proof.
  intros Hne Hn. unfold TexHtml.title_pat.
  change (TITLE ++ T ++ "}" :: rest)
    with (txt "\title" ++ "{" :: T ++ "}" :: rest).
  now rewrite strip_prefix_app, braced_app.
Qed.

Lemma search_title (pre T post : text) :
  contains TITLE pre = false -> T <> [] -> ~ In "}" T ->
  exists m, search TexHtml.title_pat (pre ++ TITLE ++ T ++ "}" :: post)
            = Some (pre, m, post)
            /\ group_text m 1 = T.
Proof.
  intros Hp Hne Hn. apply contains_false in Hp.
  eexists. split.
  - apply search_from_first; [|now apply title_here].
    intros a b -> Hb. apply title_needs.
    destruct (startswith TITLE (b ++ TITLE ++ T ++ "}" :: post)) eqn:E;
      [|reflexivity].
    exfalso. apply startswith_spec in E as [r E].
    change (TITLE ++ r) with ([] ++ TITLE ++ r) in E.
    apply occ_app_at in E as [[b' [E _]]|[[a' [_ E]]|H]].
    + apply Hp. apply occ_suffix. now exists [], b'.
    + destruct b; [congruence|discriminate].
    + destruct H as [l1 [l2 H]].
      apply (no_straddle_head "\" (txt "title{") b
                              (TITLE ++ T ++ "}" :: post)).
      * cbv. intuition discriminate.
      * right. rewrite TITLE_cons. cbn. eauto.
      * rewrite <- TITLE_cons. now exists l1, l2, [], r.
  - reflexivity.
Qed.

Lemma cmd_arg_spec (s : text) g w rest :
  TexHtml.cmd_arg_pat s = Some (g, w, rest) ->
  exists name a,
    s = w ++ rest /\ w = "\" :: name ++ "{" :: a ++ ["}"].
Proof.
  unfold TexHtml.cmd_arg_pat. destruct s as [|c s]; [discriminate|].
  destruct (ascii_dec c "\") as [->|Hc];
    [|destruct c as [[] [] [] [] [] [] [] []]; try discriminate; congruence].
  destruct (span_while is_ascii_letter s) as [name r2] eqn:E.
  apply span_while_spec in E as (-> & _ & _).
  destruct name as [|n name]; [discriminate|].
  destruct r2 as [|c r3]; [discriminate|].
  destruct (ascii_dec c "{") as [->|Hc];
    [|destruct c as [[] [] [] [] [] [] [] []]; try discriminate; congruence].
  destruct (span_not "}" r3) as [a r4] eqn:E2.
  apply span_not_spec in E2 as (-> & _ & _).
  destruct r4 as [|c r4]; [discriminate|].
  destruct (ascii_dec c "}") as [->|Hc];
    [|destruct c as [[] [] [] [] [] [] [] []]; try discriminate; congruence].
  intros H; injection H as <- <- <-. exists (n :: name), a.
  split; [|reflexivity]. cbn. now flat.
Qed.

Lemma cmd_arg_progressive : progressive TexHtml.cmd_arg_pat.
Proof.
  intros s g w rest H. apply cmd_arg_spec in H as (name & a & -> & ->).
  split; [reflexivity|discriminate].
Qed.

(** In a text without a closing brace the first pattern finds nothing:
    the first substitution of [get_title] never changes its text. *)
Lemma cmd_arg_nowhere (T : text) :
  ~ In "}" T -> forall a b, T = a ++ b -> TexHtml.cmd_arg_pat b = None.
Proof.
  intros Hn a b ->.
  destruct (TexHtml.cmd_arg_pat b) as [[[g w] rest]|] eqn:E; [|reflexivity].
  apply cmd_arg_spec in E as (name & x & -> & ->).
  exfalso. apply Hn. apply in_or_app. right. apply in_or_app. left.
  right. apply in_or_app. right. right. apply in_or_app. right. now left.
Qed.

Lemma first_sub (T : text) :
  ~ In "}" T ->
  sub_template TexHtml.cmd_arg_pat 1 (txt "\1") T = Returned T.
Proof.
  intros Hn. unfold sub_template. rewrite filter_group_1. cbn [bind].
  f_equal. apply (sub_call_none _ cmd_arg_progressive).
  now apply cmd_arg_nowhere.
Qed.

Lemma cmd_spec (s : text) g w rest :
  TexHtml.cmd_pat s = Some (g, w, rest) ->
  s = w ++ rest /\ exists r, w = "\" :: r.
Proof.
  unfold TexHtml.cmd_pat. destruct s as [|c s]; [discriminate|].
  destruct (ascii_dec c "\") as [->|Hc];
    [|destruct c as [[] [] [] [] [] [] [] []]; try discriminate; congruence].
  destruct (span_while is_ascii_letter s) as [name r2] eqn:E.
  apply span_while_spec in E as (-> & _ & _).
  destruct name as [|n name]; [discriminate|].
  destruct (span_while isspace r2) as [ws r3] eqn:E2.
  apply span_while_spec in E2 as (-> & _ & _).
  intros H; injection H as <- <- <-. split; [cbn; now flat|eauto].
Qed.

Lemma cmd_progressive : progressive TexHtml.cmd_pat.
Proof.
  intros s g w rest H. apply cmd_spec in H as (-> & r & ->).
  split; [reflexivity|discriminate].
Qed.

Lemma cmd_nowhere (T : text) :
  ~ In "\" T -> forall a b, T = a ++ b -> TexHtml.cmd_pat b = None.
Proof.
  intros Hn a b ->.
  destruct (TexHtml.cmd_pat b) as [[[g w] rest]|] eqn:E; [|reflexivity].
  apply cmd_spec in E as (-> & r & ->).
  exfalso. apply Hn. apply in_or_app. right. now left.
Qed.

Lemma second_sub_plain (T : text) :
  ~ In "\" T -> sub_template TexHtml.cmd_pat 0 [] T = Returned T.
Proof.
  intros Hn. unfold sub_template. rewrite filter_empty. cbn [bind].
  f_equal. apply (sub_call_none _ cmd_progressive). now apply cmd_nowhere.
Qed.

(** A command followed by an opening brace: the second substitution
    takes the command and leaves the brace and what follows. *)
Lemma second_sub_command (name a : text) :
  name <> [] -> forallb is_ascii_letter name = true -> ~ In "\" a ->
  sub_template TexHtml.cmd_pat 0 [] ("\" :: name ++ "{" :: a)
  = Returned ("{" :: a).
Proof.
  intros Hne Hl Hn. unfold sub_template. rewrite filter_empty. cbn [bind].
  f_equal. rewrite (sub_call_events _ cmd_progressive).
  assert (Hc : TexHtml.cmd_pat ("\" :: name ++ "{" :: a)
               = Some ([], "\" :: name ++ [], "{" :: a)).
  { unfold TexHtml.cmd_pat. rewrite span_while_app by (auto; reflexivity).
    destruct name; [congruence|reflexivity]. }
  rewrite (events_hit _ cmd_progressive _ _ _ _ _ Hc), emit_hit.
  rewrite (events_all_lit _ cmd_progressive).
  - cbn [app]. apply emit_map_lit.
  - intros x y E. apply (cmd_nowhere ("{" :: a)) with (a := x); [|assumption].
    intros [H|H]; [discriminate|auto].
Qed.

Lemma letters_plain (name : text) (z : ascii) :
  forallb is_ascii_letter name = true -> is_ascii_letter z = false ->
  ~ In z name.
Proof.
  intros Hl Hz Hi. rewrite forallb_forall in Hl. apply Hl in Hi. congruence.
Qed.

End TitleFacts.

Module TitleTheorems.
Import Py TextFacts PatternFacts SearchFacts PassFacts TitleFacts
       Doc Html Shapes.

(** X15.  A text without the opening of a title command: [get_title]
    falls back to the stem of the file name, with a backslash written
    before every underscore. *)
Theorem get_title_falls_back_to_stem (tex_path t : text) :
  contains TITLE t = false ->
  TexHtml.get_title tex_path t
  = Returned (replace (txt "_") (txt "\_") (path_stem tex_path)).
Proof.
  intros H. unfold TexHtml.get_title.
  assert (E : search TexHtml.title_pat t = None).
  { apply search_from_none.
    now apply (nowhere TexHtml.title_pat TITLE t title_needs). }
  now rewrite E.
Qed.

Lemma get_title_falls_back_to_stem_witness :
  contains TITLE (txt "\documentclass{article}") = false
  /\ TexHtml.get_title (txt "notes/my_paper_v2.tex")
                       (txt "\documentclass{article}")
     = Returned (txt "my\_paper\_v2").
Proof.
  split; [reflexivity|].
  apply (get_title_falls_back_to_stem (txt "notes/my_paper_v2.tex")
                                      (txt "\documentclass{article}")).
  reflexivity.
Defined.

(** X16.  The first title command of the text, with an argument that
    holds no backslash: [get_title] returns the argument without the
    whitespace around it, whatever the file name. *)
Theorem get_title_plain_argument (tex_path pre T post : text) :
  contains TITLE pre = false ->
  T <> [] -> ~ In "}" T -> ~ In "\" T ->
  TexHtml.get_title tex_path (pre ++ TITLE ++ T ++ "}" :: post)
  = Returned (strip T).
Proof.
  intros Hp Hne Hc Hb. unfold TexHtml.get_title.
  destruct (search_title pre T post Hp Hne Hc) as [m [-> ->]].
  rewrite first_sub by assumption. cbn [bind].
  rewrite second_sub_plain by assumption. reflexivity.
Qed.

Lemma get_title_plain_argument_witness :
  TexHtml.get_title (txt "p.tex")
    (txt "\documentclass{article}" ++ TITLE ++ txt " A Primer "
       ++ "}" :: txt "\author{N. N.}")
  = Returned (txt "A Primer").
Proof.
  apply (get_title_plain_argument (txt "p.tex")
           (txt "\documentclass{article}") (txt " A Primer ")
           (txt "\author{N. N.}"));
    try reflexivity; try discriminate; cbv; intuition discriminate.
Defined.

(** X17.  A title that starts with a command with a braced argument, as
    in [\title{\textbf{Big} Title}]: the title pattern stops at the first
    closing brace, so the first substitution finds no closed argument and
    the second takes the command name only; [get_title] returns the
    opening brace and the argument, and what follows the argument is
    lost. *)
Theorem get_title_cut_at_first_brace (tex_path pre name a post : text) :
  contains TITLE pre = false ->
  name <> [] -> forallb is_ascii_letter name = true ->
  ~ In "}" a -> ~ In "\" a ->
  TexHtml.get_title tex_path
    (pre ++ TITLE ++ ("\" :: name ++ "{" :: a) ++ "}" :: post)
  = Returned (strip ("{" :: a)).
Proof.
  intros Hp Hne Hl Hc Hb. unfold TexHtml.get_title.
  assert (Hn : ~ In "}" ("\" :: name ++ "{" :: a)).
  { intros [H|H]; [discriminate|].
    apply in_app_or in H as [H|[H|H]]; [|discriminate|auto].
    revert H. now apply letters_plain. }
  destruct (search_title pre ("\" :: name ++ "{" :: a) post Hp)
    as [m [-> ->]]; [discriminate|assumption|].
  rewrite first_sub by assumption. cbn [bind].
  rewrite second_sub_command by assumption. reflexivity.
Qed.

Lemma get_title_cut_at_first_brace_witness :
  TexHtml.get_title (txt "p.tex")
    (txt "\documentclass{article}" ++ TITLE
       ++ ("\" :: txt "textbf" ++ "{" :: txt "Big") ++ "}" :: txt " Title}")
  = Returned (txt "{Big").
Proof.
  apply (get_title_cut_at_first_brace (txt "p.tex")
           (txt "\documentclass{article}") (txt "textbf") (txt "Big")
           (txt " Title}"));
    try reflexivity; try discriminate; cbv; intuition discriminate.
Defined.

End TitleTheorems.

(** ** The title of a course file *)

Module CourseTitleFacts.
Import Py TextFacts PatternFacts SearchFacts PassFacts AltFacts TitleFacts
       Doc Html Shapes.

Lemma file_lines_first (line rest cur : text) :
  ~ In NL line ->
  file_lines cur (line ++ NL :: rest)
  = (cur ++ line ++ [NL]) :: file_lines [] rest.
Proof.
  revert cur; induction line as [|c line IH]; intros cur Hn.
  - cbn [app file_lines]. now rewrite Ascii.eqb_refl.
  - cbn [app file_lines].
    destruct (Ascii.eqb_spec c NL) as [->|Hc]; [exfalso; apply Hn; now left|].
    rewrite IH by (intros H; apply Hn; now right). f_equal. now flat.
Qed.

Lemma space_not_percent (x : ascii) :
  isspace x = true -> ShnHtml.is_percent x = false.
Proof.
  intros H. unfold ShnHtml.is_percent.
  destruct (Ascii.eqb_spec x "%") as [->|]; [discriminate|reflexivity].
Qed.

Lemma span_while_rest (f : ascii -> bool) (a r : text) :
  forallb f a = true ->
  (r = [] \/ exists c r', r = c :: r' /\ f c = false) ->
  span_while f (a ++ r) = (a, r).
Proof.
  intros Ha [->|[c [r' [-> Hc]]]].
  - rewrite app_nil_r. now apply span_while_all.
  - now apply span_while_app.
Qed.

Lemma lstrip_is (s : text) : lstrip s = lstrip_of isspace s.
Proof.
  induction s as [|c s IH]; [reflexivity|]. cbn [lstrip lstrip_of].
  now rewrite IH.
Qed.

Lemma strip_is (s : text) : strip s = strip_of isspace s.
Proof. unfold strip, rstrip, strip_of. now rewrite !lstrip_is. Qed.

Lemma lstrip_of_keep (f : ascii -> bool) (c : ascii) (s : text) :
  f c = false -> lstrip_of f (c :: s) = c :: s.
Proof. intros H. cbn [lstrip_of]. now rewrite H. Qed.

(** A text whose first and last character are not stripped stays. *)
Lemma strip_of_keep (f : ascii -> bool) (c : ascii) (m : text) :
  f c = false -> f (last (c :: m) c) = false ->
  strip_of f (c :: m) = c :: m.
Proof.
  intros Hc Hl. unfold strip_of. rewrite lstrip_of_keep by assumption.
  assert (Hne : c :: m <> []) by discriminate.
  destruct (exists_last Hne) as [b [e E]]. rewrite E in *.
  rewrite last_last in Hl. rewrite rev_app_distr. cbn [rev app].
  rewrite lstrip_of_keep by assumption.
  change (e :: rev b) with ([e] ++ rev b).
  now rewrite rev_app_distr, rev_involutive.
Qed.

Lemma clean_end_spec (c : ascii) :
  clean_end c = true -> isspace c = false /\ ShnHtml.is_percent c = false.
Proof.
  unfold clean_end. rewrite andb_true_iff, !negb_true_iff. tauto.
Qed.

(** The comment line that gives a title. *)
Lemma header_line (pcs ws : text) (c : ascii) (m : text) :
  pcs <> [] -> forallb ShnHtml.is_percent pcs = true ->
  forallb isspace ws = true ->
  ~ In NL (c :: m) -> clean_end c = true ->
  ShnHtml.header_pat (pcs ++ ws ++ (c :: m) ++ [NL])
  = Some ([Some (c :: m)], pcs ++ ws ++ c :: m, [NL]).
Proof.
  intros Hne Hp Hw Hn Hc. apply clean_end_spec in Hc as [Hs Hq].
  unfold ShnHtml.header_pat.
  rewrite (span_while_rest ShnHtml.is_percent pcs).
  - destruct pcs as [|p pcs]; [congruence|].
    rewrite (span_while_rest isspace ws)
      by (auto; right; exists c, (m ++ [NL]); now split).
    cbn [app]. change (c :: m ++ [NL]) with ((c :: m) ++ NL :: []).
    rewrite span_not_app by assumption. reflexivity.
  - assumption.
  - right. destruct ws as [|w ws].
    + exists c, (m ++ [NL]). now split.
    + exists w, (ws ++ (c :: m) ++ [NL]). split; [reflexivity|].
      cbn [forallb] in Hw. apply andb_true_iff in Hw as [Hw _].
      now apply space_not_percent.
Qed.

Lemma line_title_header (pcs ws : text) (c : ascii) (m : text) :
  pcs <> [] -> forallb ShnHtml.is_percent pcs = true ->
  forallb isspace ws = true ->
  ~ In NL (c :: m) -> clean_end c = true ->
  clean_end (last (c :: m) c) = true ->
  ShnHtml.line_title (pcs ++ ws ++ (c :: m) ++ [NL]) = Some (c :: m).
Proof.
  intros Hne Hp Hw Hn Hc Hl. unfold ShnHtml.line_title.
  rewrite header_line by assumption.
  unfold group_text, group. cbn [m_groups Nat.sub nth].
  apply clean_end_spec in Hc as [Hs Hq].
  apply clean_end_spec in Hl as [Hs' Hq'].
  rewrite strip_of_keep by assumption.
  rewrite strip_is, strip_of_keep by assumption. reflexivity.
Qed.

(** A line that does not start with a percent sign gives no title. *)
Lemma line_title_no_comment (line : text) :
  startswith ["%"] line = false -> ShnHtml.line_title line = None.
Proof.
  intros H. unfold ShnHtml.line_title, ShnHtml.header_pat.
  destruct line as [|x line]; [reflexivity|].
  cbn [span_while]. unfold ShnHtml.is_percent at 1.
  cbn [startswith] in H. rewrite andb_true_r in H.
  rewrite Ascii.eqb_sym in H. now rewrite H.
Qed.

Lemma strip_space (c : ascii) : isspace c = true -> strip [c] = [].
Proof.
  intros H. unfold strip, rstrip. cbn [lstrip]. now rewrite H.
Qed.

(** A line of percent signs and whitespace after them gives no title. *)
Lemma line_title_rule (pcs ws : text) :
  forallb ShnHtml.is_percent pcs = true -> forallb isspace ws = true ->
  ShnHtml.line_title (pcs ++ ws ++ [NL]) = None.
Proof.
  intros Hp Hw. unfold ShnHtml.line_title, ShnHtml.header_pat.
  assert (Hw' : forallb isspace (ws ++ [NL]) = true)
    by (rewrite forallb_app, Hw; reflexivity).
  rewrite (span_while_rest ShnHtml.is_percent pcs); [|assumption|].
  - destruct pcs as [|p pcs]; [reflexivity|].
    rewrite span_while_all by assumption.
    destruct (span_while (Ascii.eqb NL) (rev (ws ++ [NL])))
      as [nls kept] eqn:E.
    apply span_while_spec in E as (E & _ & _).
    destruct kept as [|c before].
    + destruct pcs; reflexivity.
    + assert (Hc : isspace c = true).
      { rewrite forallb_forall in Hw'. apply Hw'. apply in_rev.
        rewrite E. apply in_or_app. right. now left. }
      unfold group_text, group. cbn [m_groups Nat.sub nth].
      unfold strip_of. rewrite lstrip_of_keep by now apply space_not_percent.
      cbn [rev app]. rewrite lstrip_of_keep by now apply space_not_percent.
      cbn [rev app]. now rewrite strip_space.
  - right. destruct ws as [|w ws].
    + exists NL, []. now split.
    + exists w, (ws ++ [NL]). split; [reflexivity|].
      cbn [forallb] in Hw. apply andb_true_iff in Hw as [Hw _].
      now apply space_not_percent.
Qed.

End CourseTitleFacts.

Module CourseTitleTheorems.
Import Py TextFacts PatternFacts SearchFacts PassFacts TitleFacts
       CourseTitleFacts Doc Html Shapes.

(** X19.  For a stem that [TITLE_MAP] does not hold, a file whose first
    line is a comment (percent signs, whitespace, then a text that
    neither starts nor ends with whitespace or a percent sign) has that
    text as its title, after the course prefix. *)
Theorem pdf_title_from_first_comment (shn_path pcs ws : text) (c : ascii)
        (m rest : text) :
  dict_get ShnHtml.TITLE_MAP (path_stem shn_path) = None ->
  pcs <> [] -> forallb ShnHtml.is_percent pcs = true ->
  forallb isspace ws = true -> ~ In NL ws ->
  ~ In NL (c :: m) ->
  clean_end c = true -> clean_end (last (c :: m) c) = true ->
  ShnHtml.pdf_title shn_path (Some (pcs ++ ws ++ (c :: m) ++ NL :: rest))
  = Returned (txt "ECE 474: " ++ c :: m).
Proof.
  intros Hk Hne Hp Hw Hnw Hn Hc Hl. unfold ShnHtml.pdf_title. rewrite Hk.
  replace (pcs ++ ws ++ (c :: m) ++ NL :: rest)
    with ((pcs ++ ws ++ c :: m) ++ NL :: rest) by now flat.
  rewrite file_lines_first.
  - cbn [app ShnHtml.first_title].
    replace ((pcs ++ ws ++ c :: m) ++ [NL])
      with (pcs ++ ws ++ (c :: m) ++ [NL]) by now flat.
    now rewrite line_title_header.
  - intros Hi. apply in_app_or in Hi as [Hi|Hi].
    + rewrite forallb_forall in Hp. apply Hp in Hi. discriminate.
    + apply in_app_or in Hi as [Hi|Hi]; auto.
Qed.

Lemma pdf_title_from_first_comment_witness :
  ShnHtml.pdf_title (txt "notes/Timers.shn")
    (Some (txt "%%" ++ txt "  " ++ txt "Timers and Counters"
             ++ NL :: txt "\documentclass{article}"))
  = Returned (txt "ECE 474: Timers and Counters").
Proof.
  apply (pdf_title_from_first_comment (txt "notes/Timers.shn") (txt "%%")
           (txt "  ") "T" (txt "imers and Counters")
           (txt "\documentclass{article}"));
    try reflexivity; try discriminate; cbv; intuition discriminate.
Defined.

(** X20.  For a stem that [TITLE_MAP] does not hold, [pdf_title] passes
    over a line that does not start with a percent sign, and over a line
    made of percent signs and whitespace after them: the title is that of
    the rest of the file. *)
Theorem pdf_title_skips_line (shn_path line rest : text) :
  dict_get ShnHtml.TITLE_MAP (path_stem shn_path) = None ->
  ~ In NL line ->
  (startswith ["%"] line = false
   \/ exists pcs ws, line = pcs ++ ws
                     /\ forallb ShnHtml.is_percent pcs = true
                     /\ forallb isspace ws = true) ->
  ShnHtml.pdf_title shn_path (Some (line ++ NL :: rest))
  = ShnHtml.pdf_title shn_path (Some rest).
Proof.
  intros Hk Hn Hl. unfold ShnHtml.pdf_title. rewrite Hk.
  rewrite file_lines_first by assumption. cbn [app ShnHtml.first_title].
  assert (E : ShnHtml.line_title (line ++ [NL]) = None).
  { destruct Hl as [Hl|[pcs [ws (-> & Hp & Hw)]]].
    - apply line_title_no_comment. destruct line; [reflexivity|exact Hl].
    - rewrite <- app_assoc. now apply line_title_rule. }
  now rewrite E.
Qed.

Lemma pdf_title_skips_line_witness :
  ShnHtml.pdf_title (txt "Timers.shn")
    (Some (txt "%%%%%%%%  " ++ NL :: txt "% Timers" ++ [NL]))
  = ShnHtml.pdf_title (txt "Timers.shn") (Some (txt "% Timers" ++ [NL])).
Proof.
  apply (pdf_title_skips_line (txt "Timers.shn") (txt "%%%%%%%%  ")
                              (txt "% Timers" ++ [NL]));
    [reflexivity|cbv; intuition discriminate|].
  right. exists (txt "%%%%%%%%"), (txt "  "). repeat split.
Defined.

End CourseTitleTheorems.

(** ** The guessed text and the wrapped test *)

Module GuessFacts.
Import Py TextFacts PatternFacts SearchFacts InsideFacts AltFacts
       ProgramFacts Doc.

Lemma split_no_sep (c : ascii) (s : text) : ~ In c s -> split c s = [s].
Proof.
  induction s as [|x s IH]; intros H; [reflexivity|]. cbn [split].
  destruct (Ascii.eqb_spec x c) as [->|Hx]; [exfalso; apply H; now left|].
  rewrite IH by (intros Hi; apply H; now right). reflexivity.
Qed.

Lemma split_parts_no_sep (c : ascii) (s t : text) :
  In t (split c s) -> ~ In c t.
Proof.
  revert t; induction s as [|x s IH]; intros t; cbn [split].
  - intros [<-|[]] [].
  - destruct (Ascii.eqb_spec x c) as [->|Hx].
    + intros [<-|H]; [intros []|now apply IH].
    + destruct (split c s) as [|h tl] eqn:E.
      * intros [<-|[]] [Hi|[]]. congruence.
      * intros [<-|H].
        -- intros [Hi|Hi]; [congruence|]. revert Hi. apply IH. now left.
        -- apply IH. now right.
Qed.

Lemma last_in {A} (l : list A) (d : A) : l <> [] -> In (last l d) l.
Proof.
  induction l as [|x l IH]; [congruence|]. intros _.
  destruct l as [|y l]; [now left|]. right. apply IH. discriminate.
Qed.

Lemma path_name_fixed (s : text) : path_name (path_name s) = path_name s.
Proof.
  unfold path_name at 2 3.
  destruct (path_parts s) as [|p ps] eqn:E; [reflexivity|].
  assert (Hin : In (last (p :: ps) []) (path_parts s))
    by (rewrite E; apply last_in; discriminate).
  set (n := last (p :: ps) []) in *. unfold path_parts in Hin.
  apply filter_In in Hin as [Hs Hf].
  apply split_parts_no_sep in Hs.
  unfold path_name, path_parts. rewrite split_no_sep by assumption.
  cbn [filter]. now rewrite Hf.
Qed.

Lemma path_stem_name (s : text) : path_stem (path_name s) = path_stem s.
Proof. unfold path_stem. now rewrite path_name_fixed. Qed.

Lemma brace_step_shift (d : Z) (c : ascii) :
  Tex.brace_step d c = (d + Tex.brace_step 0 c)%Z.
Proof.
  unfold Tex.brace_step.
  destruct (Ascii.eqb c "{"); [lia|]. destruct (Ascii.eqb c "}"); lia.
Qed.

(** A depth that stays positive is positive at the end. *)
Lemma stays_open_net (u : text) (d : Z) :
  stays_open d u = true -> (0 < d + net u)%Z.
Proof.
  revert d; induction u as [|c u IH]; intros d; cbn [stays_open];
    rewrite andb_true_iff, Z.ltb_lt.
  - intros [H _]. unfold net. cbn. lia.
  - intros [_ H]. apply IH in H. rewrite net_cons.
    rewrite brace_step_shift in H. lia.
Qed.

Lemma shn_inside_tex (pre : text) :
  shn_inside pre = true -> tex_inside pre = true.
Proof.
  unfold shn_inside, tex_inside.
  destruct (after_last TT pre) as [u|]; [|discriminate].
  intros H. apply stays_open_net in H. now apply Z.ltb_lt.
Qed.

End GuessFacts.

Module GuessTheorems.
Import Py TextFacts PatternFacts SearchFacts InsideFacts AltFacts
       ProgramFacts GuessFacts Doc Samples.

(** X21.  In [make_accessible_tex.py] the guess for a file does not
    depend on its directory: [guess_alt] gives for a path what it gives
    for the base name of the path. *)
Theorem tex_guess_alt_ignores_directory (filename : text) :
  Tex.guess_alt filename = Tex.guess_alt (path_name filename).
Proof.
  unfold Tex.guess_alt. now rewrite path_stem_name, path_name_fixed.
Qed.

(** X22.  For a file name without a backslash and without a closing
    brace, the guess holds neither, in both programs: the alternative
    text cannot end the second argument of the wrapper or start a
    command. *)
Theorem guess_alt_adds_no_brace (filename : text) :
  ~ In "\" filename -> ~ In "}" filename ->
  (~ In "\" (Tex.guess_alt filename) /\ ~ In "}" (Tex.guess_alt filename))
  /\ (~ In "\" (Shn.guess_alt filename)
      /\ ~ In "}" (Shn.guess_alt filename)).
Proof.
  intros Hb Hc. repeat split; intros Hi.
  - apply Hb. apply (tex_guess_keeps "\"); [now left|assumption].
  - apply Hc. apply (tex_guess_keeps "}"); [now right|assumption].
  - apply Hb. apply (shn_guess_keeps "\"); [now left|assumption].
  - apply Hc. apply (shn_guess_keeps "}"); [now right|assumption].
Qed.

Lemma guess_alt_adds_no_brace_witness :
  (~ In "\" (Tex.guess_alt (txt "figs/plot_2023.png"))
   /\ ~ In "}" (Tex.guess_alt (txt "figs/plot_2023.png")))
  /\ (~ In "\" (Shn.guess_alt (txt "figs/plot_2023.png"))
      /\ ~ In "}" (Shn.guess_alt (txt "figs/plot_2023.png"))).
Proof.
  apply (guess_alt_adds_no_brace (txt "figs/plot_2023.png"));
    cbv; intuition discriminate.
Defined.

(** X23.  The wrapped test of [make_accessible_tex.py] is at least as
    permissive as that of [make_accessible.py]: at a position before the
    end of the text, whenever [inside_tooltip] answers true,
    [is_already_wrapped] answers true. *)
Theorem shn_wrapped_implies_tex_wrapped (t : text) (start : nat) :
  start < length t ->
  Shn.inside_tooltip t start = true ->
  Tex.is_already_wrapped t start = true.
Proof.
  intros Hl.
  assert (E : length (firstn start t) = start)
    by (rewrite length_firstn; lia).
  assert (Hs : skipn start t <> []).
  { intros H. apply (f_equal (@length ascii)) in H.
    rewrite length_skipn in H. simpl in H. lia. }
  pose proof (firstn_skipn start t) as Ht.
  revert E Hs Ht. generalize (firstn start t) (skipn start t).
  intros pre s <- Hs <-.
  rewrite shn_wrapped_inside, tex_wrapped_inside by assumption.
  apply shn_inside_tex.
Qed.

Lemma shn_wrapped_implies_tex_wrapped_witness :
  12 < length closed_wrapper
  /\ Shn.inside_tooltip closed_wrapper 12 = true
  /\ Tex.is_already_wrapped closed_wrapper 12 = true.
Proof.
  split; [cbv; lia|]. split; [reflexivity|].
  apply (shn_wrapped_implies_tex_wrapped closed_wrapper 12);
    [cbv; lia|reflexivity].
Defined.

End GuessTheorems.

(** ** A source that is patched already *)

Module PatchedFacts.
Import Py TextFacts PatternFacts ScanFacts DirectiveFacts WrapFacts
       InsideFacts AltFacts ProgramFacts SearchFacts Doc Shapes.

(** A word without backslash and closing brace lies in one text or in
    one directive, and is found again in the output of the pass. *)
Lemma occ_kept (w : text) (inside : text -> bool) (alt_of : text -> text)
      (pre t0 : text) (ds : list (directive * text)) :
  ~ In "\" w -> ~ In "}" w ->
  occ w (render t0 ds) -> occ w (wrap_doc inside alt_of pre t0 ds).
Proof.
  intros Hb Hc. revert pre t0; induction ds as [|[d t] ds IH];
    intros pre t0; [trivial|].
  cbn [render wrap_doc]. intros Ho.
  apply occ_app in Ho as [Ho|[Ho|Ho]].
  - now apply occ_app_l.
  - apply occ_suffix. apply occ_app in Ho as [Ho|[Ho|Ho]].
    + apply occ_app_l. unfold piece.
      destruct (inside (pre ++ t0)); [assumption|].
      rewrite wrap_dir_eq. apply occ_suffix. now apply occ_app_l.
    + apply occ_suffix. now apply IH.
    + exfalso. revert Ho.
      apply (no_straddle_after_directive w d []). assumption.
  - exfalso. revert Ho. apply (no_straddle_next "\"); [assumption|].
    right. unfold directive_text. rewrite LIT_cons. cbn. eauto.
Qed.

Lemma tex_wrap_keeps (w : text) (t0 : text) (ds : list (directive * text)) :
  ~ In "\" w -> ~ In "}" w -> wf_doc t0 ds = true ->
  contains w (render t0 ds) = true ->
  contains w (Tex.wrap_images (render t0 ds)) = true.
Proof.
  intros Hb Hc Hw Ho. apply contains_spec in Ho. apply contains_spec.
  rewrite tex_wrap_is_pass.
  rewrite (pass_doc tex_inside tex_alt Tex.is_already_wrapped)
    by (try assumption; intros pre s _; apply tex_wrapped_inside).
  now apply occ_kept.
Qed.

Lemma shn_wrap_keeps (w : text) (t0 : text) (ds : list (directive * text)) :
  ~ In "\" w -> ~ In "}" w -> wf_doc t0 ds = true ->
  contains w (render t0 ds) = true ->
  contains w (Shn.wrap_images (render t0 ds)) = true.
Proof.
  intros Hb Hc Hw Ho. apply contains_spec in Ho. apply contains_spec.
  rewrite shn_wrap_is_pass.
  rewrite (pass_doc shn_inside shn_alt Shn.inside_tooltip)
    by (try assumption; apply shn_wrapped_inside).
  now apply occ_kept.
Qed.

Ltac plain_word := cbv; intuition discriminate.

(** The markers of the preamble are still there after [wrap_images]. *)
Lemma tex_patched_kept (t0 : text) (ds : list (directive * text)) :
  wf_doc t0 ds = true ->
  Tex.already_patched (render t0 ds) = true ->
  Tex.already_patched (Tex.wrap_images (render t0 ds)) = true.
Proof.
  intros Hw. unfold Tex.already_patched. rewrite !andb_true_iff.
  intros [[H1 H2] H3].
  repeat split; apply tex_wrap_keeps; try assumption; plain_word.
Qed.

Lemma shn_patched_kept (t0 : text) (ds : list (directive * text)) :
  wf_doc t0 ds = true ->
  Shn.already_patched (render t0 ds) = true ->
  Shn.already_patched (Shn.wrap_images (render t0 ds)) = true.
Proof.
  intros Hw. unfold Shn.already_patched. rewrite !andb_true_iff.
  intros [[[H1 H2] H3] H4].
  repeat split; apply shn_wrap_keeps; try assumption; plain_word.
Qed.

End PatchedFacts.

Module PatchedTheorems.
Import Py TextFacts PatternFacts DirectiveFacts WrapFacts ProgramFacts
       PatchedFacts Doc Shapes.

(** X24.  On a source that passes the marker check, the per-document
    transformation only wraps the images, and its output passes the
    marker check again: run on its own output it changes nothing; in
    [make_accessible_tex.py] this is the case in which no exception is
    raised. *)
Theorem patched_source_step_twice (title t0 : text)
        (ds : list (directive * text)) :
  wf_doc t0 ds = true ->
  (Tex.already_patched (render t0 ds) = true ->
   Tex.accessible_text title (render t0 ds)
   = Returned (Tex.wrap_images (render t0 ds))
   /\ Tex.accessible_text title (Tex.wrap_images (render t0 ds))
      = Returned (Tex.wrap_images (render t0 ds)))
  /\ (Shn.already_patched (render t0 ds) = true ->
      Shn.accessible_text title (render t0 ds)
      = Shn.wrap_images (render t0 ds)
      /\ Shn.accessible_text title (Shn.wrap_images (render t0 ds))
         = Shn.wrap_images (render t0 ds)).
Proof.
  intros Hw. split; intros Hp.
  - unfold Tex.accessible_text.
    rewrite Hp, (tex_patched_kept t0 ds Hw Hp).
    now rewrite tex_idempotent.
  - unfold Shn.accessible_text, Shn.preamble_step.
    rewrite Hp, (shn_patched_kept t0 ds Hw Hp).
    now rewrite shn_idempotent.
Qed.

Lemma patched_source_step_twice_witness :
  wf_doc (fst patched_doc) (snd patched_doc) = true
  /\ Tex.already_patched (render (fst patched_doc) (snd patched_doc)) = true
  /\ Shn.already_patched (render (fst patched_doc) (snd patched_doc)) = true
  /\ Tex.accessible_text (txt "Notes")
       (Tex.wrap_images (render (fst patched_doc) (snd patched_doc)))
     = Returned (Tex.wrap_images (render (fst patched_doc) (snd patched_doc)))
  /\ Shn.accessible_text (txt "Notes")
       (Shn.wrap_images (render (fst patched_doc) (snd patched_doc)))
     = Shn.wrap_images (render (fst patched_doc) (snd patched_doc)).
Proof.
  split; [reflexivity|]. split; [reflexivity|]. split; [reflexivity|].
  destruct (patched_source_step_twice (txt "Notes") (fst patched_doc)
                                      (snd patched_doc) eq_refl) as [Ht Hs].
  split; [apply Ht; reflexivity|apply Hs; reflexivity].
Defined.

End PatchedTheorems.

(** ** From the source to the page *)

Module PipelineFacts.
Import Py TextFacts PatternFacts ScanFacts DirectiveFacts WrapFacts
       InsideFacts AltFacts ProgramFacts ExtractFacts RoundTrip SearchFacts
       PassFacts PlainSourceFacts PandocFacts PageFacts Doc Html Shapes.

(** The wrappers that the extraction finds in the wrapped document. *)
Lemma hits_wrap_all (alt_of : text -> text) (pos : nat) (t0 : text)
      (ds : list (directive * text)) :
  (forall d, wf_dir d = true ->
             alt_of (d_fname d) <> [] /\ ~ In "}" (alt_of (d_fname d))) ->
  wf_doc t0 ds = true ->
  map m_groups (hits (events tooltip_pat pos (wrap_all alt_of t0 ds)))
  = map (fun dt => [Some (d_fname (fst dt));
                    Some (alt_of (d_fname (fst dt)))]) ds.
Proof.
  intros Halt. revert pos t0; induction ds as [|[d t] ds IH]; intros pos t0 Hw.
  - apply wf_doc_nil in Hw. cbn [wrap_all map].
    rewrite <- (app_nil_r t0).
    rewrite events_tooltip_text by (auto; now left).
    rewrite (events_nil tooltip_pat tooltip_progressive), app_nil_r.
    now rewrite hits_map_lit.
  - apply wf_doc_cons in Hw as (H0 & Hd & Hw).
    cbn [wrap_all map fst].
    assert (E : wrapper (opts_text d) (d_fname d) (alt_of (d_fname d))
                = TT ++ directive_text d ++ closing (alt_of (d_fname d))).
    { rewrite wrapper_eq. unfold directive_text, closing. now flat. }
    rewrite E.
    replace ((TT ++ directive_text d ++ closing (alt_of (d_fname d)))
               ++ wrap_all alt_of t ds)
      with (TT ++ directive_text d ++ closing (alt_of (d_fname d))
               ++ wrap_all alt_of t ds) by now flat.
    rewrite events_tooltip_text by (auto; apply wrapper_seam_wrapped).
    destruct (Halt d Hd) as [Ha Hn].
    rewrite (events_hit tooltip_pat tooltip_progressive _ _ _ _ _
                        (tooltip_wrapped d _ _ Hd Ha Hn)).
    rewrite hits_lits, hits_hit. cbn [map m_groups]. f_equal.
    now apply IH.
Qed.

Lemma fold_left_mapped {A B C} (f : A -> B -> A) (g : C -> B) (l : list C)
      (a : A) :
  fold_left f (map g l) a = fold_left (fun acc x => f acc (g x)) l a.
Proof. revert a; induction l as [|x l IH]; intros a; simpl; auto. Qed.

Lemma extract_wrap_all (post alt_of : text -> text) (t0 : text)
      (ds : list (directive * text)) :
  (forall d, wf_dir d = true ->
             alt_of (d_fname d) <> [] /\ ~ In "}" (alt_of (d_fname d))) ->
  wf_doc t0 ds = true ->
  extract_with post (wrap_all alt_of t0 ds) = alt_map_of post alt_of ds.
Proof.
  intros Halt Hw. unfold extract_with, alt_map_of.
  rewrite (finditer_events tooltip_pat tooltip_progressive).
  rewrite (fold_left_groups
             (fun alt_map g =>
                dict_set alt_map
                         (path_name (match nth 0 g None with
                                     | Some t => t | None => [] end))
                         (post (match nth 1 g None with
                                | Some t => t | None => [] end)))).
  rewrite hits_wrap_all by assumption.
  now rewrite fold_left_mapped.
Qed.

Lemma lstrip_keeps_last (x : text) (c : ascii) :
  isspace c = false -> lstrip (x ++ [c]) <> [].
Proof.
  intros Hc. induction x as [|y x IH]; cbn [app lstrip].
  - now rewrite Hc.
  - destruct (isspace y); [assumption|discriminate].
Qed.

Lemma strip_nonempty (c : ascii) (m : text) :
  isspace c = false -> strip (c :: m) <> [].
Proof.
  intros Hc. unfold strip, rstrip. cbn [lstrip]. rewrite Hc.
  cbn [rev]. intros H. apply (f_equal (@rev ascii)) in H.
  rewrite rev_involutive in H. revert H. now apply lstrip_keeps_last.
Qed.

Lemma tex_alt_read (f : text) : strip (tex_alt f) <> [].
Proof.
  unfold tex_alt.
  change Tex.ALT_MARKER
    with ("*" :: txt "**!!***Guess by make_accessible_tex.py:").
  cbn [app]. apply strip_nonempty. reflexivity.
Qed.

Lemma replace_keeps_head (a b : text) (c : ascii) (s : text) :
  startswith a (c :: s) = false ->
  replace a b (c :: s) = c :: replace_from 0 a b s.
Proof. intros H. unfold replace. cbn [replace_from]. now rewrite H. Qed.

Lemma shn_alt_read (f : text) :
  strip (replace (txt "*\#*\#") (txt "*#*#") (shn_alt f)) <> [].
Proof.
  unfold shn_alt.
  change Shn.ALT_MARKER
    with ("*" :: "*" :: txt "*!!***Guess by make_accessible.py:").
  cbn [app]. rewrite replace_keeps_head by reflexivity.
  apply strip_nonempty. reflexivity.
Qed.

(** The page lemma for one tag whose file is in the map. *)
Lemma one_tag (alt_map : dict) (h0 h1 p c alt : text) :
  contains IMG h0 = false -> contains IMG h1 = false ->
  p <> [] -> ~ In DQ p -> ~ In ">" p -> ~ In ">" c ->
  contains (txt "alt=") (tag_text (src_attr p ++ c)) = false ->
  dict_get alt_map (path_name p) = Some alt -> alt <> [] ->
  wf_page h0 [(src_attr p ++ c, h1)] = true
  /\ new_body alt_map (src_attr p ++ c) = alt_attr alt ++ src_attr p ++ c.
Proof.
  intros H0 H1 Hne Hq Hp Hc Ha Hd Halt. split.
  - apply wf_page_cons. repeat split; [assumption| |now apply wf_page_nil].
    apply wf_body_spec. split; [discriminate|].
    unfold src_attr. intros Hi.
    repeat (apply in_app_or in Hi as [Hi|Hi]);
      try (cbv in Hi; intuition discriminate); auto.
  - unfold new_body, alt_for.
    destruct (search_src p c Hne Hq) as [pre [m [rest [-> Hg]]]].
    rewrite Ha, Hg. unfold get_or_empty. rewrite Hd.
    destruct alt; [congruence|reflexivity].
Qed.

End PipelineFacts.

Module PipelineTheorems.
Import Py TextFacts PatternFacts ScanFacts DirectiveFacts WrapFacts
       ProgramFacts ExtractFacts RoundTrip SearchFacts PassFacts
       PlainSourceFacts PandocFacts PageFacts PipelineFacts
       Doc Html Shapes Samples.

(** X25.  On a source without a wrapper opening, with any number of
    directives, the map read back from the output of [wrap_images] is the
    map built from the directives in their order: the base name of each
    file with the marker and the guess, as [extract_alt_map] cleans them;
    a later directive with the same base name overwrites the text of an
    earlier one, in both programs. *)
Theorem alt_map_of_wrapped_source (t0 : text) (ds : list (directive * text)) :
  wf_doc t0 ds = true ->
  contains TT (render t0 ds) = false ->
  Tex.extract_alt_map (Tex.wrap_images (render t0 ds))
  = alt_map_of strip
      (fun f => Tex.ALT_MARKER ++ txt " " ++ Tex.guess_alt f) ds
  /\ Shn.extract_alt_map (Shn.wrap_images (render t0 ds))
     = alt_map_of (fun a => strip (replace (txt "*\#*\#") (txt "*#*#") a))
         (fun f => Shn.ALT_MARKER ++ txt " " ++ Shn.guess_alt f) ds.
Proof.
  intros Hw Hn. apply contains_false in Hn. split.
  - rewrite tex_wraps_all, tex_extract_is by assumption.
    apply (extract_wrap_all strip tex_alt); [apply tex_alt_fits|assumption].
  - rewrite shn_wraps_all, shn_extract_is by assumption.
    apply (extract_wrap_all _ shn_alt); [apply shn_alt_fits|assumption].
Qed.

Lemma alt_map_of_wrapped_source_witness :
  wf_doc (fst sample_doc) (snd sample_doc) = true
  /\ contains TT (render (fst sample_doc) (snd sample_doc)) = false
  /\ Tex.extract_alt_map
       (Tex.wrap_images (render (fst sample_doc) (snd sample_doc)))
     = alt_map_of strip
         (fun f => Tex.ALT_MARKER ++ txt " " ++ Tex.guess_alt f)
         (snd sample_doc)
  /\ Shn.extract_alt_map
       (Shn.wrap_images (render (fst sample_doc) (snd sample_doc)))
     = alt_map_of (fun a => strip (replace (txt "*\#*\#") (txt "*#*#") a))
         (fun f => Shn.ALT_MARKER ++ txt " " ++ Shn.guess_alt f)
         (snd sample_doc).
Proof.
  split; [reflexivity|]. split; [reflexivity|].
  apply (alt_map_of_wrapped_source (fst sample_doc) (snd sample_doc));
    reflexivity.
Defined.

(** X26.  From the source to the page: for a source with one directive
    and no wrapper, the alternative text that [wrap_images] writes for
    the file is the [alt] attribute that [postprocess_html] gives to a
    tag whose [src] value has the same base name, whatever the directories
    on the two sides, in both programs. *)
Theorem alt_text_reaches_page (t0 t1 : text) (d : directive)
        (h0 h1 p c : text) :
  wf_doc t0 [(d, t1)] = true ->
  contains TT (render t0 [(d, t1)]) = false ->
  contains IMG h0 = false -> contains IMG h1 = false ->
  p <> [] -> ~ In DQ p -> ~ In ">" p -> ~ In ">" c ->
  contains (txt "alt=") (tag_text (src_attr p ++ c)) = false ->
  path_name p = path_name (d_fname d) ->
  TexHtml.postprocess_html
    (h0 ++ tag_text (src_attr p ++ c) ++ h1)
    (Tex.extract_alt_map (Tex.wrap_images (render t0 [(d, t1)])))
  = h0 ++ tag_text
            (alt_attr (strip (Tex.ALT_MARKER ++ txt " "
                                ++ Tex.guess_alt (d_fname d)))
               ++ src_attr p ++ c)
       ++ h1
  /\ ShnHtml.postprocess_html
       (h0 ++ tag_text (src_attr p ++ c) ++ h1)
       (Shn.extract_alt_map (Shn.wrap_images (render t0 [(d, t1)])))
     = h0 ++ tag_text
               (alt_attr
                  (strip (replace (txt "*\#*\#") (txt "*#*#")
                            (Shn.ALT_MARKER ++ txt " "
                               ++ Shn.guess_alt (d_fname d))))
                  ++ src_attr p ++ c)
          ++ h1.
Proof.
  intros Hw Hn H0 H1 Hne Hq Hp Hc Ha Hname.
  pose proof Hn as Hn'. apply contains_false in Hn'. split.
  - rewrite tex_wraps_all, tex_extract_is by assumption.
    rewrite (extract_wrap_all strip tex_alt)
      by (try assumption; apply tex_alt_fits).
    destruct (one_tag (alt_map_of strip tex_alt [(d, t1)]) h0 h1 p c
                      (strip (tex_alt (d_fname d))))
      as [Hpage E]; try assumption.
    + cbn. now rewrite Hname, text_eqb_refl.
    + apply tex_alt_read.
    + pose proof (tex_page (alt_map_of strip tex_alt [(d, t1)]) h0
                           [(src_attr p ++ c, h1)] Hpage) as Ht.
      cbn [new_tags map fst snd render_page] in Ht. now rewrite E in Ht.
  - rewrite shn_wraps_all, shn_extract_is by assumption.
    rewrite (extract_wrap_all _ shn_alt)
      by (try assumption; apply shn_alt_fits).
    set (post := fun a => strip (replace (txt "*\#*\#") (txt "*#*#") a)).
    destruct (one_tag (alt_map_of post shn_alt [(d, t1)]) h0 h1 p c
                      (post (shn_alt (d_fname d))))
      as [Hpage E]; try assumption.
    + cbn. now rewrite Hname, text_eqb_refl.
    + apply shn_alt_read.
    + pose proof (shn_page (alt_map_of post shn_alt [(d, t1)]) h0
                           [(src_attr p ++ c, h1)] Hpage) as Ht.
      cbn [new_tags map fst snd render_page] in Ht. now rewrite E in Ht.
Qed.

Lemma alt_text_reaches_page_witness :
  TexHtml.postprocess_html
    (txt "<p>" ++ tag_text (src_attr (txt "media/plot.png") ++ txt " /")
       ++ txt "</p>")
    (Tex.extract_alt_map
       (Tex.wrap_images
          (render (txt "See ") [(Dir None (txt "figs/plot.png"), txt ".")])))
  = txt "<p>"
      ++ tag_text
           (alt_attr (strip (Tex.ALT_MARKER ++ txt " "
                               ++ Tex.guess_alt (txt "figs/plot.png")))
              ++ src_attr (txt "media/plot.png") ++ txt " /")
      ++ txt "</p>".
Proof.
  apply (alt_text_reaches_page (txt "See ") (txt ".")
           (Dir None (txt "figs/plot.png")) (txt "<p>") (txt "</p>")
           (txt "media/plot.png") (txt " /"));
    try reflexivity; try discriminate; cbv; intuition discriminate.
Defined.

End PipelineTheorems.

(** ** The guess by folder *)

Module FolderFacts.
Import Py TextFacts GuessFacts Doc.

Lemma split_nonempty (c : ascii) (s : text) : split c s <> [].
Proof.
  destruct s as [|x s]; cbn [split]; [discriminate|].
  destruct (Ascii.eqb x c); [discriminate|].
  destruct (split c s); discriminate.
Qed.

(** [(a + c + b).split(c)] is [a.split(c) + b.split(c)]. *)
Lemma split_app_sep (c : ascii) (a b : text) :
  split c (a ++ c :: b) = split c a ++ split c b.
Proof.
  induction a as [|x a IH]; cbn [app split].
  - now rewrite Ascii.eqb_refl.
  - destruct (Ascii.eqb x c); [now rewrite IH|].
    rewrite IH. pose proof (split_nonempty c a) as Hn.
    destruct (split c a) as [|h t]; [congruence|reflexivity].
Qed.

Lemma replace_char_app (a b : ascii) (x y : text) :
  replace_char a b (x ++ y) = replace_char a b x ++ replace_char a b y.
Proof. apply map_app. Qed.

Lemma replace_char_absent (a b : ascii) (s : text) :
  ~ In a s -> replace_char a b s = s.
Proof.
  induction s as [|x s IH]; intros H; [reflexivity|].
  unfold replace_char in *. cbn [map].
  rewrite IH by (intros Hi; apply H; now right).
  destruct (Ascii.eqb_spec x a) as [->|_]; [|reflexivity].
  exfalso. apply H. now left.
Qed.

(** The parts of [up/folder/name] end with the folder and the name. *)
Lemma parts_of_path (up folder name : text) :
  ~ In "/" folder -> ~ In "\" folder -> ~ In "/" name -> ~ In "\" name ->
  split "/" (replace_char "\" "/" (up ++ "/" :: folder ++ "/" :: name))
  = split "/" (replace_char "\" "/" up) ++ [folder; name].
Proof.
  intros Hf1 Hf2 Hn1 Hn2.
  change (up ++ "/" :: folder ++ "/" :: name)
    with (up ++ ["/"] ++ folder ++ ["/"] ++ name).
  rewrite !replace_char_app.
  rewrite (replace_char_absent "\" "/" folder) by assumption.
  rewrite (replace_char_absent "\" "/" name) by assumption.
  change (replace_char "\" "/" ["/"]) with ["/"]. cbn [app].
  rewrite !split_app_sep.
  rewrite (split_no_sep "/" folder), (split_no_sep "/" name) by assumption.
  reflexivity.
Qed.

Lemma name_of_path (pre name : text) :
  ~ In "/" name -> name <> [] -> name <> ["."] ->
  path_name (pre ++ "/" :: name) = name.
Proof.
  intros Hn He Hd. unfold path_name, path_parts.
  rewrite split_app_sep, filter_app.
  rewrite (split_no_sep "/" name) by assumption.
  cbn [filter]. unfold text_eqb.
  destruct (list_eq_dec ascii_dec name []); [congruence|].
  destruct (list_eq_dec ascii_dec name ["."]); [congruence|].
  cbn [negb andb]. apply last_last.
Qed.

Lemma name_alone (name : text) :
  ~ In "/" name -> name <> [] -> name <> ["."] -> path_name name = name.
Proof.
  intros Hn He Hd. unfold path_name, path_parts.
  rewrite (split_no_sep "/" name) by assumption.
  cbn [filter]. unfold text_eqb.
  destruct (list_eq_dec ascii_dec name []); [congruence|].
  destruct (list_eq_dec ascii_dec name ["."]); [congruence|].
  reflexivity.
Qed.

Lemma stem_of_path (pre name : text) :
  ~ In "/" name -> name <> [] -> name <> ["."] ->
  path_stem (pre ++ "/" :: name) = path_stem name.
Proof.
  intros Hn He Hd. unfold path_stem.
  now rewrite name_of_path, name_alone.
Qed.

Lemma nth_folder (ps : list text) (folder name : text) :
  nth (length (ps ++ [folder; name]) - 2) (ps ++ [folder; name]) [] = folder.
Proof.
  rewrite length_app. cbn [length].
  replace (length ps + 2 - 2) with (length ps) by lia.
  rewrite app_nth2 by lia. now rewrite Nat.sub_diag.
Qed.

End FolderFacts.

Module FolderTheorems.
Import Py TextFacts GuessFacts FolderFacts Doc.

(** X27.  In [make_accessible.py] the guess for a figure that is not one
    of the known ones goes by the folder the file is in: for a path
    [folder/name] or [up/folder/name], whatever [up] is, it is the text
    that [folder_guesses] has for the folder, or [Diagram] when it has
    none, followed by the file name in parentheses; for a name without a
    folder it is [Figure], followed by the name in parentheses. *)
Theorem shn_guess_alt_by_folder (folder name : text) :
  ~ In "/" folder -> ~ In "\" folder ->
  ~ In "/" name -> ~ In "\" name -> name <> [] -> name <> ["."] ->
  dict_get Shn.known (lower (path_stem name)) = None ->
  let base := match dict_get Shn.folder_guesses folder with
              | Some b => b
              | None => txt "Diagram"
              end in
  Shn.guess_alt name = txt "Figure (" ++ name ++ txt ")"
  /\ Shn.guess_alt (folder ++ "/" :: name)
     = base ++ txt " (" ++ name ++ txt ")"
  /\ forall up : text,
       Shn.guess_alt (up ++ "/" :: folder ++ "/" :: name)
       = base ++ txt " (" ++ name ++ txt ")".
Proof.
  intros Hf1 Hf2 Hn1 Hn2 He Hd Hk base. split; [|split].
  - unfold Shn.guess_alt. rewrite Hk.
    rewrite (replace_char_absent "\" "/" name) by assumption.
    rewrite (split_no_sep "/" name), name_alone by assumption.
    reflexivity.
  - unfold Shn.guess_alt.
    rewrite stem_of_path, Hk, name_of_path by assumption.
    rewrite replace_char_app.
    rewrite (replace_char_absent "\" "/" folder) by assumption.
    change (replace_char "\" "/" ("/" :: name))
      with ("/" :: replace_char "\" "/" name).
    rewrite (replace_char_absent "\" "/" name) by assumption.
    rewrite split_app_sep.
    rewrite (split_no_sep "/" folder), (split_no_sep "/" name) by assumption.
    reflexivity.
  - intros up. unfold Shn.guess_alt.
    replace (up ++ "/" :: folder ++ "/" :: name)
      with ((up ++ "/" :: folder) ++ "/" :: name) by now flat.
    rewrite stem_of_path, Hk, name_of_path by assumption.
    replace ((up ++ "/" :: folder) ++ "/" :: name)
      with (up ++ "/" :: folder ++ "/" :: name) by now flat.
    rewrite parts_of_path by assumption.
    rewrite nth_folder.
    rewrite length_app. cbn [length].
    replace (2 <=? length (split "/" (replace_char "\" "/" up)) + 2)%nat
      with true by (symmetry; apply Nat.leb_le; lia).
    reflexivity.
Qed.

Lemma shn_guess_alt_by_folder_witness :
  Shn.guess_alt (txt "fig3.png") = txt "Figure (fig3.png)"
  /\ Shn.guess_alt (txt "usb_figs/fig3.png")
     = txt "USB architecture diagram (fig3.png)"
  /\ Shn.guess_alt (txt "../notes/usb_figs/fig3.png")
     = txt "USB architecture diagram (fig3.png)".
Proof.
  assert (Hf1 : ~ In "/" (txt "usb_figs")) by (cbv; intuition discriminate).
  assert (Hf2 : ~ In "\" (txt "usb_figs")) by (cbv; intuition discriminate).
  assert (Hn1 : ~ In "/" (txt "fig3.png")) by (cbv; intuition discriminate).
  assert (Hn2 : ~ In "\" (txt "fig3.png")) by (cbv; intuition discriminate).
  assert (He : txt "fig3.png" <> []) by discriminate.
  assert (Hd : txt "fig3.png" <> ["."]) by discriminate.
  destruct (shn_guess_alt_by_folder (txt "usb_figs") (txt "fig3.png")
              Hf1 Hf2 Hn1 Hn2 He Hd eq_refl) as (H1 & H2 & H3).
  split; [exact H1|]. split; [exact H2|]. exact (H3 (txt "../notes")).
Defined.

End FolderTheorems.

(** ** What the wrapping pass keeps *)

Module KeptFacts.
Import Py TextFacts PatternFacts ScanFacts DirectiveFacts WrapFacts
       InsideFacts AltFacts ProgramFacts PassFacts PlainSourceFacts
       PandocFacts Doc Html Kept.






(** *** Sources without a wrapper opening *)


















End KeptFacts.

Module KeptClaims.
Import Py TextFacts ProgramFacts KeptFacts Doc Html Kept Samples.



End KeptClaims.
